(** * Pyland engine core: object registry, viewport clamping, render passes
      and window construction

    A shallow embedding of [object_manager.cpp], [map_viewer.cpp] and
    [game_window.cpp], with the properties of the engine specification
    stated and settled against it, followed by further properties of these
    files, of the end of a challenge and of the loading of a shader
    program.

    Conventions of the embedding:
    - a C++ [int] is a [Z] inside the 32-bit signed range; an operation whose
      result would leave the range is undefined behaviour and is modelled by
      [None];
    - a C++ [float] is an IEEE-754 binary32 value, modelled with the
      parametric [spec_float] of the standard library at precision 24 and
      maximal exponent 128, every operation rounding to nearest-even;
    - a [std::shared_ptr<T>] that may be empty is an [option T];
    - a [std::map] is a [gmap];
    - calls into glog, SDL, EGL, dispmanx and OpenGL are recorded as events. *)

From Stdlib Require Import ZArith List Bool Lia String.
From Stdlib Require Import Floats.SpecFloat.
From stdpp Require Import base option gmap list.

Local Open Scope Z_scope.

(** ** Machine integers *)

Definition INT_MAX : Z := 2147483647.
Definition INT_MIN : Z := -2147483648.

Definition in_int_range (z : Z) : bool := (INT_MIN <=? z) && (z <=? INT_MAX).

(** ** Single-precision arithmetic

    [float] in the sources is IEEE-754 binary32: 24 bits of precision and
    infinities at exponent 128. The operations are those of the standard
    library's executable specification, which round to nearest, ties to
    even. *)

Module Float32.

Definition prec : Z := 24.
Definition emax : Z := 128.

Definition float := spec_float.

Definition add (x y : float) : float := SFadd prec emax x y.
Definition sub (x y : float) : float := SFsub prec emax x y.
Definition mul (x y : float) : float := SFmul prec emax x y.
Definition div (x y : float) : float := SFdiv prec emax x y.

(** [x < y], [x <= y], [x >= y] and [x == y] of C++; each is false as soon as
    an operand is NaN. *)
Definition lt (x y : float) : bool := SFltb x y.
Definition le (x y : float) : bool := SFleb x y.
Definition ge (x y : float) : bool := SFleb y x.
Definition eqb (x y : float) : bool := SFeqb x y.

(** The conversion [float(n)] of an [int]. *)
Definition of_int (n : Z) : float := binary_normalize prec emax n 0 false.

(** The literals [0.0f], [0.5f], [2.0f] and [32.0f]. *)
Definition zero : float := S754_zero false.
Definition half : float := S754_finite false 8388608 (-24).
Definition two : float := S754_finite false 8388608 (-22).
Definition thirty_two : float := S754_finite false 8388608 (-18).

Definition nan : float := S754_nan.

Definition is_nan (x : float) : bool :=
  match x with S754_nan => true | _ => false end.

(** A value a [float] variable can hold: any zero, infinity or NaN, and the
    finite numbers whose mantissa and exponent are in canonical form. *)
Definition valid (x : float) : bool := valid_binary prec emax x.

(** Finite (zero included) and not negative. *)
Definition finite_nonneg (x : float) : bool :=
  match x with
  | S754_zero _ => true
  | S754_finite false _ _ => true
  | _ => false
  end.

Definition is_finite (x : float) : bool :=
  match x with
  | S754_zero _ | S754_finite _ _ _ => true
  | _ => false
  end.

(** [std::max(a, b)] is [(a < b) ? b : a] and [std::min(a, b)] is
    [(b < a) ? b : a]. *)
Definition std_max (a b : float) : float := if lt a b then b else a.
Definition std_min (a b : float) : float := if lt b a then b else a.

(** Membership in the closed interval [[lo, hi]], with the comparisons of the
    machine. *)
Definition in_range (lo hi x : float) : bool := le lo x && le x hi.

(** [x] is a zero, a finite number or an infinity whose sign bit is [s]. *)
Definition signed (s : bool) (x : float) : Prop :=
  match x with
  | S754_nan => False
  | S754_zero s' | S754_infinity s' | S754_finite s' _ _ => s' = s
  end.

End Float32.

(** ** [centre_point_in_range] of [map_viewer.cpp] *)

Definition centre_point_in_range (point length bound : Float32.float) : Float32.float :=
  let bound_offset := Float32.sub point (Float32.div bound Float32.two) in
  if Float32.ge length bound then
    Float32.std_min (Float32.std_max bound_offset Float32.zero)
                    (Float32.sub length bound)
  else if Float32.ge bound length then
    Float32.std_max (Float32.std_min bound_offset Float32.zero)
                    (Float32.sub length bound)
  else bound_offset.

(** The second step of [centre_point_in_range], "crop to valid range", as a
    function of the offset computed by the first step. *)
Definition crop (bound_offset length bound : Float32.float) : Float32.float :=
  if Float32.ge length bound then
    Float32.std_min (Float32.std_max bound_offset Float32.zero)
                    (Float32.sub length bound)
  else if Float32.ge bound length then
    Float32.std_max (Float32.std_min bound_offset Float32.zero)
                    (Float32.sub length bound)
  else bound_offset.

(** The specification's clamping law, as it is worded: for finite
    non-negative [length] and [bound] and any [point], the result lies in
    [[0, length - bound]] when [bound <= length] and in [[length - bound, 0]]
    when [bound >= length]. *)
Definition clamping_law (point length bound : Float32.float) : Prop :=
  Float32.valid length = true -> Float32.valid bound = true ->
  Float32.finite_nonneg length = true -> Float32.finite_nonneg bound = true ->
  (Float32.le bound length = true ->
   Float32.in_range Float32.zero (Float32.sub length bound)
     (centre_point_in_range point length bound) = true) /\
  (Float32.le length bound = true ->
   Float32.in_range (Float32.sub length bound) Float32.zero
     (centre_point_in_range point length bound) = true).

(** The point that has the clamped viewport centred on it: the offset plus
    half the bound. *)
Definition recentred (point length bound : Float32.float) : Float32.float :=
  Float32.add (centre_point_in_range point length bound)
              (Float32.div bound Float32.two).

(** The specification's idempotence, as it is worded: re-applying the
    function to the re-centred point yields the same offset. *)
Definition idempotent_at (point length bound : Float32.float) : Prop :=
  Float32.valid length = true -> Float32.valid bound = true ->
  Float32.finite_nonneg length = true -> Float32.finite_nonneg bound = true ->
  centre_point_in_range (recentred point length bound) length bound
    = centre_point_in_range point length bound.

(** The worked examples of the specification. *)
Definition f10 : Float32.float := Float32.of_int 10.
Definition f4 : Float32.float := Float32.of_int 4.

(** A window 642 pixels wide showing 40-pixel tiles of a map 64 tiles wide,
    focused on the sprite at tile 63. *)
Definition width_642_px : Float32.float :=
  Float32.div (Float32.of_int 642) (Float32.of_int 40).
Definition map_64_tiles : Float32.float := Float32.of_int 64.
Definition centre_of_tile_63 : Float32.float :=
  Float32.add (Float32.of_int 63) Float32.half.

(** The offset [x] lies in the range [centre_point_in_range] crops to, for
    a line of [length] seen through a display of [bound]. *)
Definition origin_in_range (length bound x : Float32.float) : Prop :=
  (Float32.le bound length = true ->
   Float32.in_range Float32.zero (Float32.sub length bound) x = true) /\
  (Float32.le length bound = true ->
   Float32.in_range (Float32.sub length bound) Float32.zero x = true).
(** ** Entities held by the registry ([object.hpp], consumed)

    Only what the registry, the viewport and the render passes read is kept:
    the id set by [Object::set_id], the dynamic class of the entity, its tile
    position, and its renderable component (the shader program it resolves
    to, if any, and the number of vertices to draw). *)

Inductive ObjectKind := KObject | KMapObject | KSprite.

#[global] Instance ObjectKind_eq_dec : EqDecision ObjectKind.
Proof. solve_decision. Defined.

Record RenderableComponent := mkRenderable {
  get_shader : option Z;
  get_num_vertices_render : Z
}.

Record Object := mkObject {
  get_id : Z;
  object_kind : ObjectKind;
  object_name : string;
  get_position : Float32.float * Float32.float;
  get_renderable_component : RenderableComponent
}.

Definition set_id (o : Object) (new_id : Z) : Object :=
  {| get_id := new_id;
     object_kind := object_kind o;
     object_name := object_name o;
     get_position := get_position o;
     get_renderable_component := get_renderable_component o |}.

(** ** [object_manager.cpp] *)

Module ObjectManager.

(** The static counter [next_object_id], the instance's [objects] map and
    the lines written to the error log. *)
Record t := mk {
  next_object_id : Z;
  objects : gmap Z Object;
  error_log : list string
}.

(** [int ObjectManager::next_object_id(1);] and an empty map. *)
Definition initial : t :=
  {| next_object_id := 1; objects := ∅; error_log := [] |}.

Definition log_error (om : t) (line : string) : t :=
  {| next_object_id := next_object_id om;
     objects := objects om;
     error_log := error_log om ++ [line] |}.

Definition set_objects (om : t) (m : gmap Z Object) : t :=
  {| next_object_id := next_object_id om;
     objects := m;
     error_log := error_log om |}.

(** [get_next_id]: the object receives the counter, the counter is returned
    and post-incremented. Incrementing [INT_MAX] overflows a signed [int]. *)
Definition get_next_id (om : t) (object : Object) : option (Z * Object * t) :=
  if next_object_id om <? INT_MAX then
    Some (next_object_id om,
          set_id object (next_object_id om),
          {| next_object_id := next_object_id om + 1;
             objects := objects om;
             error_log := error_log om |})
  else None.

Definition is_valid_object_id (om : t) (id : Z) : bool :=
  (0 <? id) && (id <? next_object_id om).

Definition add_object (om : t) (new_object : option Object) : bool * t :=
  match new_object with
  | None =>
      (false, log_error om "ObjectManager::add_object: Object cannot be null.")
  | Some o =>
      let object_id := get_id o in
      if negb (is_valid_object_id om object_id) then
        (false, log_error om "ObjectManager::add_object: Object id is invalid; id: ")
      else
        (true, set_objects om (<[object_id := o]> (objects om)))
  end.

Definition remove_object (om : t) (object_id : Z) : t :=
  match objects om !! object_id with
  | Some _ => set_objects om (delete object_id (objects om))
  | None =>
      log_error om
        "trying to remove object that either doesn't exist or there are multiple"
  end.

(** Modelled from the spec: [get_object<T>] is a template of
    [object_manager.hpp], which is not among the sources. The specification
    gives it as: "returns the shared entity or an empty result if not present
    or of an unexpected kind". The kind asked for is the template argument. *)
Definition get_object (kind : ObjectKind) (om : t) (id : Z) : option Object :=
  match objects om !! id with
  | Some o => if decide (object_kind o = kind) then Some o else None
  | None => None
  end.


(** The operations a client can apply to the registry. *)
Inductive Op :=
| OpAllocate (entity : Object)
| OpAdd (entity : option Object)
| OpRemove (id : Z).

Definition step (om : t) (op : Op) : option t :=
  match op with
  | OpAllocate e =>
      match get_next_id om e with
      | Some (_, _, om') => Some om'
      | None => None
      end
  | OpAdd e => Some (snd (add_object om e))
  | OpRemove id => Some (remove_object om id)
  end.

Fixpoint run (om : t) (ops : list Op) : option t :=
  match ops with
  | [] => Some om
  | op :: rest =>
      match step om op with
      | Some om' => run om' rest
      | None => None
      end
  end.


(** A registry in which one sprite has been allocated id 1 and added, as
    [Challenge::make_sprite] does. *)
Definition john : Object :=
  {| get_id := 0; object_kind := KSprite; object_name := "John";
     get_position := (Float32.of_int 7, Float32.of_int 15);
     get_renderable_component := {| get_shader := Some 1; get_num_vertices_render := 6 |} |}.

Definition with_one_sprite : t :=
  match get_next_id initial john with
  | Some (_, e, om) => snd (add_object om (Some e))
  | None => initial
  end.

(** A second entity carrying the id of the first. *)
Definition impostor : Object :=
  {| get_id := 1; object_kind := KMapObject; object_name := "crate";
     get_position := (Float32.of_int 3, Float32.of_int 4);
     get_renderable_component := {| get_shader := Some 1; get_num_vertices_render := 6 |} |}.

(** The specification's removal property, as it is worded: after
    [remove(k)] of an allocated id, [is_valid(k)] is false, [get(k)] is empty
    and every other id resolves as before. *)
Definition removal_invalidates (om : t) (k : Z) : Prop :=
  is_valid_object_id om k = true ->
  let om' := remove_object om k in
  is_valid_object_id om' k = false /\
  (forall kind, get_object kind om' k = None) /\
  (forall kind j, j <> k -> get_object kind om' j = get_object kind om j).

(** The specification's rejection property of [add], as it is worded: the
    call fails and leaves the map unchanged exactly for a null entity, an id
    outside [(0, next_unallocated)] or an id already stored; otherwise the
    entity is stored and the call succeeds. *)
Definition add_rejected_case (om : t) (new_object : option Object) : Prop :=
  match new_object with
  | None => True
  | Some o =>
      is_valid_object_id om (get_id o) = false \/ is_Some (objects om !! get_id o)
  end.

Definition add_rejects_duplicates (om : t) (new_object : option Object) : Prop :=
  let '(ok, om') := add_object om new_object in
  (add_rejected_case om new_object -> ok = false /\ objects om' = objects om) /\
  (~ add_rejected_case om new_object ->
     ok = true /\
     exists o, new_object = Some o /\ objects om' !! get_id o = Some o).

End ObjectManager.

(** ** [map_viewer.cpp]: the viewport and the per-frame render passes *)

Module MapViewer.

(** What the viewer reads of a [Layer] and of a [Map] ([layer.hpp] and
    [map.hpp], consumed). *)
Record Layer := mkLayer { layer_renderable_component : RenderableComponent }.

Record Map := mkMap {
  get_layers : list Layer;
  get_sprites : list Z;
  get_map_objects : list Z;
  get_width : Z;
  get_height : Z
}.

(** The viewer: the bound map (a raw pointer, possibly null), the GUI
    manager's renderable component, the size reported by the window, the
    display origin and size in tiles, and the focus id. *)
Record t := mk {
  map : option Map;
  gui_renderable_component : RenderableComponent;
  window_size : Z * Z;
  display_x : Float32.float;
  display_y : Float32.float;
  display_width : Float32.float;
  display_height : Float32.float;
  map_focus_object : Z
}.

Definition set_display_x (v : t) (x : Float32.float) : t :=
  mk (map v) (gui_renderable_component v) (window_size v)
     x (display_y v) (display_width v) (display_height v) (map_focus_object v).

Definition set_display_y (v : t) (y : Float32.float) : t :=
  mk (map v) (gui_renderable_component v) (window_size v)
     (display_x v) y (display_width v) (display_height v) (map_focus_object v).

Definition set_map_focus (v : t) (id : Z) : t :=
  mk (map v) (gui_renderable_component v) (window_size v)
     (display_x v) (display_y v) (display_width v) (display_height v) id.

(** Whose renderable component a call is made on. *)
Inductive Target :=
| OfLayer (index : nat)
| OfEntity (id : Z)
| OfGui.

(** The calls a frame makes on its collaborators, in the order made. The
    matrices passed are not recorded. *)
Inductive Event :=
| glClear
| set_projection_matrix (on : Target)
| set_modelview_matrix (on : Target)
| bind_shader (on : Target)
| glUniformMatrix4fv (program : Z) (uniform : string)
| bind_vbos (on : Target)
| bind_textures (on : Target)
| glDrawArrays (on : Target) (count : Z)
| release_textures (on : Target)
| release_vbos (on : Target)
| release_shader (on : Target)
| LOG_ERROR (line : string)
| LOG_INFO (line : string)
| text_updater.

(** How a statement sequence ends: it falls through with a value, executes
    [return], dereferences a null pointer (behaviour undefined from there
    on), or fails a [CHECK] (the process is aborted). *)
Inductive Flow (A : Type) :=
| Normal (a : A)
| Returned
| NullDereference
| CheckFailed.

Arguments Normal {A} a.
Arguments Returned {A}.
Arguments NullDereference {A}.
Arguments CheckFailed {A}.

(** A member function: from the registry (read only) and the viewer to the
    events emitted, the way control leaves, and the viewer afterwards. *)
Definition M (A : Type) : Type :=
  ObjectManager.t -> t -> list Event * Flow A * t.

#[global] Instance M_ret : MRet M := fun A (a : A) _ v => ([], Normal a, v).

#[global] Instance M_bind : MBind M := fun A B (f : A -> M B) (m : M A) om v =>
  let '(ev1, flow, v1) := m om v in
  match flow with
  | Normal a => let '(ev2, flow2, v2) := f a om v1 in (ev1 ++ ev2, flow2, v2)
  | Returned => (ev1, Returned, v1)
  | NullDereference => (ev1, NullDereference, v1)
  | CheckFailed => (ev1, CheckFailed, v1)
  end.

Definition emit (e : Event) : M unit := fun _ v => ([e], Normal tt, v).
Definition emits (es : list Event) : M unit := fun _ v => (es, Normal tt, v).
Definition return_ {A} : M A := fun _ v => ([], Returned, v).
Definition get : M t := fun _ v => ([], Normal v, v).
Definition put (v : t) : M unit := fun _ _ => ([], Normal tt, v).
Definition registry : M ObjectManager.t := fun om v => ([], Normal om, v).

(** [p->...] on a pointer that may be null. *)
Definition deref {A} (p : option A) : M A :=
  fun _ v => match p with
             | Some a => ([], Normal a, v)
             | None => ([], NullDereference, v)
             end.

(** [CHECK_NOTNULL(p)]. *)
Definition CHECK_NOTNULL {A} (p : option A) : M A :=
  fun _ v => match p with
             | Some a => ([], Normal a, v)
             | None => ([], CheckFailed, v)
             end.

(** A call of a [void] member function: its [return] ends the callee only. *)
Definition call (body : M unit) : M unit :=
  fun om v =>
    let '(ev, flow, v') := body om v in
    match flow with
    | Returned => (ev, Normal tt, v')
    | _ => (ev, flow, v')
    end.

(** A [for] loop over the elements of a vector, first to last. *)
Fixpoint for_each {A} (l : list A) (body : A -> M unit) : M unit :=
  match l with
  | [] => mret tt
  | x :: rest => body x ;; for_each rest body
  end.

(** The same, with the position of the element passed to the body. *)
Fixpoint for_each_indexed {A} (i : nat) (l : list A) (body : nat -> A -> M unit)
  : M unit :=
  match l with
  | [] => mret tt
  | x :: rest => body i x ;; for_each_indexed (S i) rest body
  end.

(** The bind, uniform, draw and release calls shared by all passes once the
    shader is known. *)
Definition draw (on : Target) (program : Z) (count : Z) : M unit :=
  emits [ glUniformMatrix4fv program "mat_projection";
          glUniformMatrix4fv program "mat_modelview";
          bind_vbos on;
          bind_textures on;
          glDrawArrays on count;
          release_textures on;
          release_vbos on;
          release_shader on ].

Definition refocus_map : M unit :=
  v ← get;
  om ← registry;
  if map_focus_object v =? 0 then
    emit (LOG_INFO "MapViewer::refocus_map: No focus.") ;;
    return_
  else
    match ObjectManager.get_object KSprite om (map_focus_object v) with
    | Some sprite =>
        m ← deref (map v);
        put (set_display_x v
               (centre_point_in_range
                  (Float32.add (fst (get_position sprite)) Float32.half)
                  (Float32.of_int (get_width m))
                  (display_width v))) ;;
        v1 ← get;
        put (set_display_y v1
               (centre_point_in_range
                  (Float32.add (snd (get_position sprite)) Float32.half)
                  (Float32.of_int (get_height m))
                  (display_height v1))) ;;
        emit text_updater
    | None =>
        emit (LOG_INFO "MapViewer::refocus_map: No sprites have focus.") ;;
        emit text_updater
    end.

Definition set_map_focus_object (object_id : Z) : M unit :=
  om ← registry;
  if ObjectManager.is_valid_object_id om object_id then
    v ← get;
    put (set_map_focus v object_id) ;;
    call refocus_map
  else
    emit (LOG_ERROR "MapViewer::set_map_focus_object: Invalid focus object").

Definition render_map : M unit :=
  call refocus_map ;;
  v ← get;
  m ← deref (map v);
  for_each_indexed 0%nat (get_layers m) (fun layer_num layer =>
    let component := layer_renderable_component layer in
    emits [ set_projection_matrix (OfLayer layer_num);
            set_modelview_matrix (OfLayer layer_num);
            bind_shader (OfLayer layer_num) ] ;;
    program ← deref (get_shader component);
    draw (OfLayer layer_num) program (get_num_vertices_render component)).

(** The body of the loop of [render_sprites] and of [render_objects]; the
    two functions differ in the list walked, in the class asked of the
    registry and in the line logged. *)
Definition render_entity (kind : ObjectKind) (line : string) (id : Z) : M unit :=
  if id =? 0 then mret tt
  else
    om ← registry;
    entity ← deref (ObjectManager.get_object kind om id);
    let component := get_renderable_component entity in
    emits [ set_modelview_matrix (OfEntity id);
            set_projection_matrix (OfEntity id);
            bind_shader (OfEntity id) ] ;;
    match get_shader component with
    | None => emit (LOG_ERROR line) ;; return_
    | Some program =>
        draw (OfEntity id) program (get_num_vertices_render component)
    end.

Definition sprite_shader_null : string :=
  "MapViewer::render_map: Shader (sprite_render_component->get_shader()) should not be null".

Definition object_shader_null : string :=
  "MapViewer::render_map: Shader (object_render_component->get_shader()) should not be null".

(** The loop shared by the two passes. *)
Definition render_pass (kind : ObjectKind) (line : string) (ids : list Z) : M unit :=
  for_each ids (render_entity kind line).

Definition render_sprites : M unit :=
  v ← get;
  m ← deref (map v);
  render_pass KSprite sprite_shader_null (get_sprites m).

Definition render_objects : M unit :=
  v ← get;
  m ← deref (map v);
  render_pass KMapObject object_shader_null (get_map_objects m).

Definition render_gui : M unit :=
  v ← get;
  let component := gui_renderable_component v in
  emits [ set_modelview_matrix OfGui;
          set_projection_matrix OfGui;
          bind_shader OfGui ] ;;
  match get_shader component with
  | None =>
      emit (LOG_ERROR "ERROR: Shader is NULL in MapViewer::render_map") ;;
      return_
  | Some program => draw OfGui program (get_num_vertices_render component)
  end.

Definition render : M unit :=
  v ← get;
  CHECK_NOTNULL (map v) ;;
  emit glClear ;;
  call render_map ;;
  call render_objects ;;
  call render_sprites ;;
  call render_gui.

(** The events of a run and the way it ended. *)
Definition events {A} (m : M A) (om : ObjectManager.t) (v : t) : list Event :=
  fst (fst (m om v)).

Definition flow {A} (m : M A) (om : ObjectManager.t) (v : t) : Flow A :=
  snd (fst (m om v)).

(** The calls made on an entity before its shader is looked at. *)
Definition prepare (id : Z) : list Event :=
  [ set_modelview_matrix (OfEntity id);
    set_projection_matrix (OfEntity id);
    bind_shader (OfEntity id) ].

(** The draw calls of an entity whose shader is [program]. *)
Definition drawn (id : Z) (program count : Z) : list Event :=
  prepare id ++
  [ glUniformMatrix4fv program "mat_projection";
    glUniformMatrix4fv program "mat_modelview";
    bind_vbos (OfEntity id);
    bind_textures (OfEntity id);
    glDrawArrays (OfEntity id) count;
    release_textures (OfEntity id);
    release_vbos (OfEntity id);
    release_shader (OfEntity id) ].

(** A registry with two sprites: id 1 has no shader, id 2 has one. *)
Definition ghost : Object :=
  {| get_id := 0; object_kind := KSprite; object_name := "ghost";
     get_position := (Float32.of_int 2, Float32.of_int 3);
     get_renderable_component := {| get_shader := None; get_num_vertices_render := 6 |} |}.

Definition register (om : ObjectManager.t) (entity : Object) : ObjectManager.t :=
  match ObjectManager.get_next_id om entity with
  | Some (_, e, om') => snd (ObjectManager.add_object om' (Some e))
  | None => om
  end.

Definition ghost_then_john : ObjectManager.t :=
  register (register ObjectManager.initial ghost) ObjectManager.john.

(** A viewer bound to a map without layers whose sprite list is [sprites]. *)
Definition viewer_of (sprites : list Z) : t :=
  {| map := Some {| get_layers := []; get_sprites := sprites;
                    get_map_objects := []; get_width := 20; get_height := 20 |};
     gui_renderable_component := {| get_shader := Some 7; get_num_vertices_render := 12 |};
     window_size := (640, 480);
     display_x := Float32.zero;
     display_y := Float32.zero;
     display_width := Float32.of_int 20;
     display_height := Float32.of_int 15;
     map_focus_object := 0 |}.

(** The specification's handling of a missing shader, as it is worded: the
    entity whose shader is null is skipped alone, and every later entity of
    the pass that has a shader is still drawn in the frame. *)
Definition null_shader_skips_entity_only (om : ObjectManager.t) (v : t) : Prop :=
  forall m pre id post entity,
    map v = Some m ->
    get_sprites m = pre ++ id :: post ->
    id <> 0 ->
    ObjectManager.get_object KSprite om id = Some entity ->
    get_shader (get_renderable_component entity) = None ->
    forall j later program,
      In j post -> j <> 0 ->
      ObjectManager.get_object KSprite om j = Some later ->
      get_shader (get_renderable_component later) = Some program ->
      In (glDrawArrays (OfEntity j) (get_num_vertices_render (get_renderable_component later)))
         (events render om v).

(** What the code does instead: [pass] walks [pre ++ id :: post], handles
    [pre] in full, logs at [id] and returns there. Nothing of [post] is
    drawn, and whatever the caller runs after the pass is still run. *)
Definition ends_pass_at (pass : M unit) (kind : ObjectKind) (line : string)
    (om : ObjectManager.t) (v : t) (pre : list Z) (id : Z) (post : list Z) : Prop :=
  pass om v =
    (events (render_pass kind line pre) om v ++ prepare id ++ [LOG_ERROR line],
     Returned, v) /\
  (forall j n, In j post -> ~ In j pre -> j <> id ->
               ~ In (glDrawArrays (OfEntity j) n) (events pass om v)) /\
  (forall k : M unit,
     (call pass ;; k) om v =
       let '(ev2, flow2, v2) := k om v in (events pass om v ++ ev2, flow2, v2)).

(** The specification's tolerance of a missing entity, as it is worded: a
    pass over a list naming an id the registry no longer holds goes on
    without dereferencing. *)
Definition tolerates_not_found (om : ObjectManager.t) (v : t) : Prop :=
  flow render_sprites om v <> NullDereference /\
  flow render_objects om v <> NullDereference.

(** [set_map]: the viewer is bound to [new_map], which may be null. *)
Definition set_map (new_map : option Map) : M unit :=
  fun _ v =>
    ([], Normal tt,
     mk new_map (gui_renderable_component v) (window_size v)
        (display_x v) (display_y v) (display_width v) (display_height v)
        (map_focus_object v)).

(** A pass ran to its end or returned early: it neither dereferenced a null
    pointer nor failed a check. *)
Definition completes {A} (m : M A) (om : ObjectManager.t) (v : t) : Prop :=
  match flow m om v with
  | Normal _ | Returned => True
  | NullDereference | CheckFailed => False
  end.

(** The viewer a run leaves behind. *)
Definition viewer_after {A} (m : M A) (om : ObjectManager.t) (v : t) : t :=
  snd (m om v).

(** The body of the loop of [render_map], named. *)
Definition render_layer (layer_num : nat) (layer : Layer) : M unit :=
  let component := layer_renderable_component layer in
  emits [ set_projection_matrix (OfLayer layer_num);
          set_modelview_matrix (OfLayer layer_num);
          bind_shader (OfLayer layer_num) ] ;;
  program ← deref (get_shader component);
  draw (OfLayer layer_num) program (get_num_vertices_render component).

(** The calls that draw layer number [n] with shader [program]. *)
Definition layer_drawn (n : nat) (program count : Z) : list Event :=
  [ set_projection_matrix (OfLayer n);
    set_modelview_matrix (OfLayer n);
    bind_shader (OfLayer n);
    glUniformMatrix4fv program "mat_projection";
    glUniformMatrix4fv program "mat_modelview";
    bind_vbos (OfLayer n);
    bind_textures (OfLayer n);
    glDrawArrays (OfLayer n) count;
    release_textures (OfLayer n);
    release_vbos (OfLayer n);
    release_shader (OfLayer n) ].

(** The calls of a whole stack of layers that all have shaders, the first
    layer numbered [n]; nothing if a layer has none. *)
Fixpoint layers_drawn (n : nat) (layers : list Layer) : list Event :=
  match layers with
  | [] => []
  | layer :: rest =>
      match get_shader (layer_renderable_component layer) with
      | Some program =>
          layer_drawn n program
            (get_num_vertices_render (layer_renderable_component layer))
          ++ layers_drawn (S n) rest
      | None => []
      end
  end.

(** A map of two layers, 600 and 24 vertices, above which sprite 2 is
    drawn, and a viewer bound to it. *)
Definition ground : Layer :=
  {| layer_renderable_component := {| get_shader := Some 3; get_num_vertices_render := 600 |} |}.
Definition roofs : Layer :=
  {| layer_renderable_component := {| get_shader := Some 3; get_num_vertices_render := 24 |} |}.

Definition village : Map :=
  {| get_layers := [ground; roofs]; get_sprites := [2]; get_map_objects := [];
     get_width := 20; get_height := 20 |}.

Definition village_viewer : t :=
  {| map := Some village;
     gui_renderable_component := {| get_shader := None; get_num_vertices_render := 12 |};
     window_size := (640, 480);
     display_x := Float32.zero;
     display_y := Float32.zero;
     display_width := Float32.of_int 20;
     display_height := Float32.of_int 15;
     map_focus_object := 2 |}.

(** The part of [Challenge::~Challenge] that acts on the registry and on the
    viewer: every sprite id and then every map-object id of the challenge is
    removed from the registry, and the viewer is unbound from the map. *)
Record Challenge := mkChallenge {
  sprite_ids : list Z;
  map_object_ids : list Z
}.

Definition remove_all (om : ObjectManager.t) (ids : list Z) : ObjectManager.t :=
  fold_left ObjectManager.remove_object ids om.

Definition destroy_challenge (c : Challenge) (om : ObjectManager.t) (v : t)
  : ObjectManager.t * t :=
  let om1 := remove_all om (sprite_ids c) in
  let om2 := remove_all om1 (map_object_ids c) in
  (om2, viewer_after (set_map None) om2 v).

(** What a pass emits for the entry [id] of its list when nothing is
    missing: nothing for the empty entry [0], the draw calls of the entity
    otherwise. *)
Definition entity_drawn (kind : ObjectKind) (om : ObjectManager.t) (id : Z) : list Event :=
  if id =? 0 then []
  else
    match ObjectManager.get_object kind om id with
    | Some entity =>
        match get_shader (get_renderable_component entity) with
        | Some program =>
            drawn id program (get_num_vertices_render (get_renderable_component entity))
        | None => []
        end
    | None => []
    end.

(** The entry is empty, or it resolves to an entity of the class asked for
    whose renderable component has a shader. *)
Definition renderable (kind : ObjectKind) (om : ObjectManager.t) (id : Z) : Prop :=
  id = 0 \/
  exists entity program,
    ObjectManager.get_object kind om id = Some entity /\
    get_shader (get_renderable_component entity) = Some program.

End MapViewer.
(** ** [game_window.cpp]: window construction and the surface life cycle *)

Module GameWindow.

Inductive InitAction := DO_NOTHING | DO_INIT | DO_DEINIT.

(** The preprocessor switches the file is compiled under. [USE_GL] is the
    desktop build and stands for [USE_GLES] being off. *)
Record Config := mkConfig {
  USE_GLES : bool;
  GAME_WINDOW_DISABLE_DIRECT_RENDER : bool;
  overscan_left : Z;
  overscan_top : Z
}.

Definition USE_GL (cfg : Config) : bool := negb (USE_GLES cfg).

(** The fields of a [GameWindow] object. [window] is the id of its SDL
    window; [surface] and [background_surface] are present while the EGL
    surface and the blitting surface exist. *)
Record t := mk {
  visible : bool;
  foreground : bool;
  was_foreground : bool;
  resizing : bool;
  window_x : Z;
  window_y : Z;
  window_width : Z;
  window_height : Z;
  close_requested : bool;
  change_surface : InitAction;
  window : option Z;
  surface : option Z;
  background_surface : option Z
}.

(** What the operating system and the graphics stack answer during one
    call: the result code of [SDL_Init], the window [SDL_CreateWindow]
    returns (none for [nullptr]), whether each EGL request succeeds, the
    content-area position from [XTranslateCoordinates] and the size from
    [SDL_GetWindowSize]. *)
Record Env := mkEnv {
  SDL_Init : Z;
  SDL_CreateWindow : option Z;
  eglGetDisplay : bool;
  eglInitialize : bool;
  eglChooseConfig : bool;
  eglCreateContext : bool;
  XTranslateCoordinates : Z * Z;
  SDL_GetWindowSize : Z * Z;
  eglCreateWindowSurface : option Z;
  eglCreatePbufferSurface : option Z;
  SDL_CreateRGBSurface : option Z;
  eglMakeCurrent : bool;
  eglDestroySurface : bool
}.

(** Calls that acquire or release a resource, as recorded in the trace. *)
Inductive Call :=
| new_InputManager
| bcm_host_init
| call_SDL_Init
| SDL_Quit
| call_SDL_CreateWindow (width height : Z) (fullscreen : bool)
| SDL_DestroyWindow (id : Z)
| vc_dispmanx_display_open
| vc_dispmanx_display_close
| call_eglGetDisplay
| call_eglInitialize
| eglTerminate
| call_eglChooseConfig
| call_eglCreateContext
| vc_dispmanx_element_add
| vc_dispmanx_element_remove
| call_eglCreateWindowSurface
| call_eglCreatePbufferSurface
| call_SDL_CreateRGBSurface
| SDL_FreeSurface
| call_eglMakeCurrent
| eglMakeCurrent_none
| call_eglDestroySurface
| SDL_GL_CreateContext
| LOG (line : string).

(** The process-wide state: whether SDL is initialised, the SDL windows
    that exist, the static index [windows] keyed by SDL window id, and the
    trace of calls. *)
Record Sys := mkSys {
  sdl_initialised : bool;
  sdl_windows : gset Z;
  windows : gmap Z t;
  trace : list Call
}.

Record State := mkState { this : t; sys : Sys }.

(** A statement either completes or throws [InitException]. *)
Inductive Result (A : Type) :=
| Ok (a : A)
| InitException (what : string).

Arguments Ok {A} a.
Arguments InitException {A} what.

Definition W (A : Type) : Type := Config -> Env -> State -> Result A * State.

#[global] Instance W_ret : MRet W := fun A (a : A) _ _ st => (Ok a, st).

#[global] Instance W_bind : MBind W := fun A B (f : A -> W B) (m : W A) cfg env st =>
  let '(r, st1) := m cfg env st in
  match r with
  | Ok a => f a cfg env st1
  | InitException what => (InitException what, st1)
  end.

Definition throw {A} (what : string) : W A :=
  fun _ _ st => (InitException what, st).

(** [try { body } catch (InitException e) { handler(e) }]. *)
Definition try_catch {A} (body : W A) (handler : string -> W A) : W A :=
  fun cfg env st =>
    let '(r, st1) := body cfg env st in
    match r with
    | Ok a => (Ok a, st1)
    | InitException what => handler what cfg env st1
    end.

Definition config : W Config := fun cfg _ st => (Ok cfg, st).
Definition environment : W Env := fun _ env st => (Ok env, st).
Definition get_this : W t := fun _ _ st => (Ok (this st), st).
Definition get_sys : W Sys := fun _ _ st => (Ok (sys st), st).
Definition modify_this (f : t -> t) : W unit :=
  fun _ _ st => (Ok tt, mkState (f (this st)) (sys st)).
Definition modify_sys (f : Sys -> Sys) : W unit :=
  fun _ _ st => (Ok tt, mkState (this st) (f (sys st))).

Definition record (c : Call) : W unit :=
  modify_sys (fun s =>
    mkSys (sdl_initialised s) (sdl_windows s) (windows s) (trace s ++ [c])).

Definition when (b : bool) (body : W unit) : W unit :=
  if b then body else mret tt.

(** Field updates. *)
Definition set_visible (b : bool) (w : t) : t :=
  mk b (foreground w) (was_foreground w) (resizing w) (window_x w) (window_y w)
     (window_width w) (window_height w) (close_requested w) (change_surface w)
     (window w) (surface w) (background_surface w).

Definition set_was_foreground (b : bool) (w : t) : t :=
  mk (visible w) (foreground w) b (resizing w) (window_x w) (window_y w)
     (window_width w) (window_height w) (close_requested w) (change_surface w)
     (window w) (surface w) (background_surface w).

Definition set_change_surface (a : InitAction) (w : t) : t :=
  mk (visible w) (foreground w) (was_foreground w) (resizing w) (window_x w)
     (window_y w) (window_width w) (window_height w) (close_requested w) a
     (window w) (surface w) (background_surface w).

Definition set_window (id : option Z) (w : t) : t :=
  mk (visible w) (foreground w) (was_foreground w) (resizing w) (window_x w)
     (window_y w) (window_width w) (window_height w) (close_requested w)
     (change_surface w) id (surface w) (background_surface w).

Definition set_surface (s : option Z) (w : t) : t :=
  mk (visible w) (foreground w) (was_foreground w) (resizing w) (window_x w)
     (window_y w) (window_width w) (window_height w) (close_requested w)
     (change_surface w) (window w) s (background_surface w).

Definition set_background_surface (s : option Z) (w : t) : t :=
  mk (visible w) (foreground w) (was_foreground w) (resizing w) (window_x w)
     (window_y w) (window_width w) (window_height w) (close_requested w)
     (change_surface w) (window w) (surface w) s.

Definition set_geometry (x y w h : Z) (win : t) : t :=
  mk (visible win) (foreground win) (was_foreground win) (resizing win) x y w h
     (close_requested win) (change_surface win) (window win) (surface win)
     (background_surface win).

Definition set_sdl_initialised (b : bool) (s : Sys) : Sys :=
  mkSys b (sdl_windows s) (windows s) (trace s).

Definition set_sdl_windows (l : gset Z) (s : Sys) : Sys :=
  mkSys (sdl_initialised s) l (windows s) (trace s).

Definition set_windows (m : gmap Z t) (s : Sys) : Sys :=
  mkSys (sdl_initialised s) (sdl_windows s) m (trace s).

Definition init_sdl : W unit :=
  cfg ← config;
  env ← environment;
  when (USE_GLES cfg) (record bcm_host_init) ;;
  record (LOG "Initializing SDL...") ;;
  record call_SDL_Init ;;
  if negb (SDL_Init env =? 0) then
    throw "Failed to initialize SDL"
  else
    modify_sys (set_sdl_initialised true) ;;
    record (LOG "SDL initialized.").

(** [SDL_Quit] shuts the video subsystem down, and with it every SDL window
    that still exists. *)
Definition deinit_sdl : W unit :=
  record (LOG "Deinitializing SDL...") ;;
  record SDL_Quit ;;
  modify_sys (set_sdl_initialised false) ;;
  modify_sys (set_sdl_windows ∅) ;;
  record (LOG "SDL deinitialized.").

Definition deinit_surface : W unit :=
  cfg ← config;
  env ← environment;
  when (USE_GLES cfg) (
    w ← get_this;
    when (visible w) (
      (if was_foreground w then
         record vc_dispmanx_element_remove
       else
         when (bool_decide (background_surface w <> None)) (
           record SDL_FreeSurface ;;
           modify_this (set_background_surface None))) ;;
      record eglMakeCurrent_none ;;
      record call_eglDestroySurface ;;
      when (negb (eglDestroySurface env)) (throw "Error destroying EGL surface")) ;;
    modify_this (set_visible false) ;;
    modify_this (set_change_surface DO_NOTHING)).

(** [init_surface(int x, int y, int w, int h)]. The hexadecimal EGL error
    code appended to the two surface-creation messages is left out. *)
Definition init_surface_at (x y w h : Z) : W unit :=
  cfg ← config;
  env ← environment;
  deinit_surface ;;
  modify_this (set_change_surface DO_INIT) ;;
  when (USE_GLES cfg) (
    win ← get_this;
    new_surface ←
      (if foreground win then
         record (LOG "Initializing window surface.") ;;
         record vc_dispmanx_element_add ;;
         record call_eglCreateWindowSurface ;;
         match eglCreateWindowSurface env with
         | None => throw "Error creating window surface: "
         | Some s => mret s
         end
       else
         record call_eglCreatePbufferSurface ;;
         match eglCreatePbufferSurface env with
         | None => throw "Error creating pbuffer surface: "
         | Some s =>
             record call_SDL_CreateRGBSurface ;;
             modify_this (set_background_surface (SDL_CreateRGBSurface env)) ;;
             mret s
         end);
    modify_this (set_surface (Some new_surface)) ;;
    record call_eglMakeCurrent ;;
    when (negb (eglMakeCurrent env)) (throw "Error connecting context to surface")) ;;
  win ← get_this;
  modify_this (set_was_foreground (foreground win)) ;;
  modify_this (set_visible true) ;;
  modify_this (set_change_surface DO_NOTHING) ;;
  modify_this (set_geometry x y w h).

(** [init_surface()]: the position is queried from X11 under GLES and is
    [(0, 0)] under desktop GL; the size is queried from SDL. *)
Definition init_surface : W unit :=
  cfg ← config;
  env ← environment;
  let '(x, y) := if USE_GLES cfg then XTranslateCoordinates env else (0, 0) in
  let '(w, h) := SDL_GetWindowSize env in
  init_surface_at x y w h.

Definition init_gl : W unit :=
  cfg ← config;
  env ← environment;
  if USE_GLES cfg then
    record call_eglGetDisplay ;;
    when (negb (eglGetDisplay env)) (throw "Error getting display") ;;
    record call_eglInitialize ;;
    when (negb (eglInitialize env)) (
      record eglTerminate ;;
      throw "Error initializing display connection") ;;
    record call_eglChooseConfig ;;
    when (negb (eglChooseConfig env)) (
      record eglTerminate ;;
      throw "Error getting window frame buffer configuration") ;;
    record call_eglCreateContext ;;
    when (negb (eglCreateContext env)) (
      record eglTerminate ;;
      throw "Error creating rendering context") ;;
    init_surface
  else
    record SDL_GL_CreateContext.

(** The fields as the constructor assigns them before anything can fail;
    [change_surface], [window] and the surfaces are not yet assigned. *)
Definition fresh (cfg : Config) (width height : Z) : t :=
  {| visible := false;
     foreground := negb (GAME_WINDOW_DISABLE_DIRECT_RENDER cfg);
     was_foreground := negb (GAME_WINDOW_DISABLE_DIRECT_RENDER cfg);
     resizing := false;
     window_x := 0;
     window_y := 0;
     window_width := width;
     window_height := height;
     close_requested := false;
     change_surface := DO_NOTHING;
     window := None;
     surface := None;
     background_surface := None |}.

Definition windows_size : W nat := s ← get_sys; mret (size (windows s)).

(** The body of [GameWindow::GameWindow(int, int, bool)], run on the object
    under construction. *)
Definition constructor_body (width height : Z) (fullscreen : bool) : W unit :=
  cfg ← config;
  env ← environment;
  modify_this (fun _ => fresh cfg width height) ;;
  record new_InputManager ;;
  n ← windows_size;
  when (n =? 0)%nat init_sdl ;;
  record (call_SDL_CreateWindow width height fullscreen) ;;
  match SDL_CreateWindow env with
  | None =>
      record (LOG "Failed to create SDL window.") ;;
      deinit_sdl ;;
      throw "Failed to create SDL window"
  | Some id =>
      modify_sys (fun s => set_sdl_windows ({[id]} ∪ sdl_windows s) s) ;;
      modify_this (set_window (Some id)) ;;
      when (USE_GLES cfg) (record vc_dispmanx_display_open) ;;
      try_catch init_gl (fun e =>
        when (USE_GLES cfg) (record vc_dispmanx_display_close) ;;
        record (SDL_DestroyWindow id) ;;
        modify_sys (fun s => set_sdl_windows (sdl_windows s ∖ {[id]}) s) ;;
        n ← windows_size;
        when (n =? 0)%nat deinit_sdl ;;
        throw e) ;;
      w ← get_this;
      modify_sys (fun s => set_windows (<[id := w]> (windows s)) s)
  end.

(** Construction as the caller sees it: the new object, or the exception,
    and the process-wide state afterwards. *)
Definition construct (cfg : Config) (env : Env) (width height : Z) (fullscreen : bool)
    (s : Sys) : Result t * Sys :=
  let '(r, st) :=
    constructor_body width height fullscreen cfg env (mkState (fresh cfg width height) s) in
  match r with
  | Ok _ => (Ok (this st), sys st)
  | InitException what => (InitException what, sys st)
  end.

Definition get_size (w : t) : Z * Z := (window_width w, window_height w).

Definition geometry (w : t) : Z * Z * Z * Z :=
  (window_x w, window_y w, window_width w, window_height w).

(** What a caller can observe of the process after a construction attempt:
    whether the shared subsystem is up, which SDL windows exist, and the
    index. *)
Definition observable (s : Sys) : bool * gset Z * gmap Z t :=
  (sdl_initialised s, sdl_windows s, windows s).

(** The index and SDL agree: SDL is initialised exactly while some window
    is registered, and the SDL windows that exist are the registered ones.
    The constructor and the destructor keep it so. *)
Definition consistent (s : Sys) : Prop :=
  sdl_initialised s = negb (bool_decide (windows s = ∅)) /\
  sdl_windows s = dom (windows s).

(** The specification's atomicity of construction, as it is worded: a
    failed construction reports [InitException] and leaves nothing behind,
    so that what the caller can observe is what it was before the call. *)
Definition construction_atomic (cfg : Config) (env : Env) (width height : Z)
    (fullscreen : bool) (s : Sys) : Prop :=
  forall what s',
    construct cfg env width height fullscreen s = (InitException what, s') ->
    observable s' = observable s.

(** A Raspberry Pi build, an environment in which every request succeeds
    and the new window gets id 1, and the process before any window. *)
Definition pi : Config :=
  {| USE_GLES := true; GAME_WINDOW_DISABLE_DIRECT_RENDER := false;
     overscan_left := 0; overscan_top := 0 |}.

Definition all_succeed (id : Z) : Env :=
  {| SDL_Init := 0;
     SDL_CreateWindow := Some id;
     eglGetDisplay := true;
     eglInitialize := true;
     eglChooseConfig := true;
     eglCreateContext := true;
     XTranslateCoordinates := (10, 20);
     SDL_GetWindowSize := (640, 480);
     eglCreateWindowSurface := Some 100;
     eglCreatePbufferSurface := Some 101;
     SDL_CreateRGBSurface := Some 102;
     eglMakeCurrent := true;
     eglDestroySurface := true |}.

Definition no_window : Env :=
  {| SDL_Init := 0;
     SDL_CreateWindow := None;
     eglGetDisplay := true;
     eglInitialize := true;
     eglChooseConfig := true;
     eglCreateContext := true;
     XTranslateCoordinates := (10, 20);
     SDL_GetWindowSize := (640, 480);
     eglCreateWindowSurface := Some 100;
     eglCreatePbufferSurface := Some 101;
     SDL_CreateRGBSurface := Some 102;
     eglMakeCurrent := true;
     eglDestroySurface := true |}.

Definition no_surface : Env :=
  {| SDL_Init := 0;
     SDL_CreateWindow := Some 1;
     eglGetDisplay := true;
     eglInitialize := true;
     eglChooseConfig := true;
     eglCreateContext := true;
     XTranslateCoordinates := (30, 40);
     SDL_GetWindowSize := (800, 600);
     eglCreateWindowSurface := None;
     eglCreatePbufferSurface := None;
     SDL_CreateRGBSurface := Some 102;
     eglMakeCurrent := true;
     eglDestroySurface := true |}.

Definition before_any_window : Sys :=
  {| sdl_initialised := false; sdl_windows := ∅; windows := ∅; trace := [] |}.

(** The process once a first window has been constructed. *)
Definition one_window : Sys :=
  snd (construct pi (all_succeed 1) 640 480 false before_any_window).

(** The window object that construction handed back. *)
Definition first_window : t :=
  match fst (construct pi (all_succeed 1) 640 480 false before_any_window) with
  | Ok w => w
  | InitException _ => fresh pi 640 480
  end.

(** *** Outcomes of the initialisers *)

(** The answers under which [init_surface] completes on the window [w]: on
    a GLES build the surface that is shown can be destroyed, the surface
    for the present [foreground] can be created, and the context can be
    made current. A desktop GL build asks for nothing. *)
Definition surface_can_be_built (cfg : Config) (env : Env) (w : t) : bool :=
  negb (USE_GLES cfg) ||
  ((negb (visible w) || eglDestroySurface env) &&
   (if foreground w then bool_decide (is_Some (eglCreateWindowSurface env))
    else bool_decide (is_Some (eglCreatePbufferSurface env))) &&
   eglMakeCurrent env).

(** The answers under which [init_gl] completes. *)
Definition gl_can_be_initialised (cfg : Config) (env : Env) (w : t) : bool :=
  negb (USE_GLES cfg) ||
  (eglGetDisplay env && eglInitialize env && eglChooseConfig env &&
   eglCreateContext env && surface_can_be_built cfg env w).

(** The answers under which the constructor completes; [first] tells
    whether the index was empty. *)
Definition construction_succeeds (cfg : Config) (env : Env) (first : bool)
    (width height : Z) : bool :=
  (negb first || (SDL_Init env =? 0)) &&
  bool_decide (is_Some (SDL_CreateWindow env)) &&
  gl_can_be_initialised cfg env (fresh cfg width height).

(** The position and size [init_surface()] passes on. *)
Definition queried_geometry (cfg : Config) (env : Env) : Z * Z * Z * Z :=
  (if USE_GLES cfg then fst (XTranslateCoordinates env) else 0,
   if USE_GLES cfg then snd (XTranslateCoordinates env) else 0,
   fst (SDL_GetWindowSize env), snd (SDL_GetWindowSize env)).

#[global] Instance Call_eq_dec : EqDecision Call.
Proof. solve_decision. Defined.

(** Whether the call [c] is in the trace. *)
Definition called (c : Call) (s : Sys) : bool := bool_decide (c ∈ trace s).


(** The process-wide state with an empty trace. *)
Definition untraced (s : Sys) : Sys :=
  mkSys (sdl_initialised s) (sdl_windows s) (windows s) [].

(** *** Destruction *)

(** The answers under which [deinit_surface], and with it the destructor,
    completes on the window [w]. *)
Definition surface_can_be_released (cfg : Config) (env : Env) (w : t) : bool :=
  negb (USE_GLES cfg) || negb (visible w) || eglDestroySurface env.

(** [deinit_gl]. [eglDestroyContext] and [SDL_GL_DeleteContext] release the
    context, which the state does not hold: they leave no entry in the
    trace. *)
Definition deinit_gl : W unit :=
  cfg ← config;
  when (USE_GLES cfg) (
    deinit_surface ;;
    record eglTerminate).

(** [~GameWindow], for an object whose SDL window has the id [id], the
    value of [SDL_GetWindowID(window)]. The callback controller and the
    input manager, released last, are not part of the state. *)
Definition destructor (id : Z) : W unit :=
  cfg ← config;
  deinit_gl ;;
  when (USE_GLES cfg) (record vc_dispmanx_display_close) ;;
  modify_sys (fun s => set_windows (delete id (windows s)) s) ;;
  record (SDL_DestroyWindow id) ;;
  modify_sys (fun s => set_sdl_windows (sdl_windows s ∖ {[id]}) s) ;;
  n ← windows_size;
  when (n =? 0)%nat deinit_sdl.

(** Destruction as the caller sees it. *)
Definition destroy (cfg : Config) (env : Env) (id : Z) (w : t) (s : Sys) :
    Result unit * Sys :=
  let '(r, st) := destructor id cfg env (mkState w s) in (r, sys st).

(** *** [update]: window events and the surface step *)

Definition set_foreground (b : bool) (w : t) : t :=
  mk (visible w) b (was_foreground w) (resizing w) (window_x w) (window_y w)
     (window_width w) (window_height w) (close_requested w) (change_surface w)
     (window w) (surface w) (background_surface w).

Definition set_resizing (b : bool) (w : t) : t :=
  mk (visible w) (foreground w) (was_foreground w) b (window_x w) (window_y w)
     (window_width w) (window_height w) (close_requested w) (change_surface w)
     (window w) (surface w) (background_surface w).

Definition set_close_requested (b : bool) (w : t) : t :=
  mk (visible w) (foreground w) (was_foreground w) (resizing w) (window_x w)
     (window_y w) (window_width w) (window_height w) b (change_surface w)
     (window w) (surface w) (background_surface w).

Definition request_close (w : t) : t := set_close_requested true w.
Definition cancel_close (w : t) : t := set_close_requested false w.
Definition check_close (w : t) : bool := close_requested w.

(** The window events [update] tells apart; [UNHANDLED] stands for every
    other one. *)
Inductive WindowEvent :=
| SDL_WINDOWEVENT_CLOSE
| SDL_WINDOWEVENT_RESIZED
| SDL_WINDOWEVENT_MAXIMIZED
| SDL_WINDOWEVENT_RESTORED
| SDL_WINDOWEVENT_MOVED
| SDL_WINDOWEVENT_SHOWN
| SDL_WINDOWEVENT_FOCUS_GAINED
| SDL_WINDOWEVENT_FOCUS_LOST
| SDL_WINDOWEVENT_MINIMIZED
| SDL_WINDOWEVENT_HIDDEN
| UNHANDLED.

(** The inner [switch] of [update], on the window [w] the event is
    addressed to, registered under [id]. The static [focused_window] is
    held as the id of the window it points to. The log lines are left
    out. *)
Definition window_event (cfg : Config) (id : Z) (e : WindowEvent)
    (w : t) (focused_window : option Z) : t * option Z :=
  match e with
  | SDL_WINDOWEVENT_CLOSE => (request_close w, focused_window)
  | SDL_WINDOWEVENT_RESIZED | SDL_WINDOWEVENT_MAXIMIZED | SDL_WINDOWEVENT_RESTORED =>
      (set_change_surface DO_INIT (set_resizing true w), Some id)
  | SDL_WINDOWEVENT_MOVED =>
      (set_change_surface DO_INIT w, Some id)
  | SDL_WINDOWEVENT_SHOWN | SDL_WINDOWEVENT_FOCUS_GAINED =>
      (set_change_surface DO_INIT
         (if GAME_WINDOW_DISABLE_DIRECT_RENDER cfg then w else set_foreground true w),
       Some id)
  | SDL_WINDOWEVENT_FOCUS_LOST | SDL_WINDOWEVENT_MINIMIZED | SDL_WINDOWEVENT_HIDDEN =>
      (set_change_surface DO_INIT (set_foreground false w),
       if bool_decide (focused_window = Some id) then None else focused_window)
  | UNHANDLED => (w, focused_window)
  end.

(** The events of one poll that are addressed to the window, in order. *)
Fixpoint window_events (cfg : Config) (id : Z) (es : list WindowEvent)
    (w : t) (focused_window : option Z) : t * option Z :=
  match es with
  | [] => (w, focused_window)
  | e :: es' =>
      let '(w', focused_window') := window_event cfg id e w focused_window in
      window_events cfg id es' w' focused_window'
  end.

(** Whether the surface step of [update] has a rebuild to do on [w]: one
    is pending, or the GLES build finds the shown window away from the
    position it was built at. *)
Definition rebuild_requested (cfg : Config) (env : Env) (w : t) : bool :=
  match change_surface w with
  | DO_INIT => true
  | _ =>
      USE_GLES cfg &&
      ((negb (window_x w =? fst (XTranslateCoordinates env)) ||
        negb (window_y w =? snd (XTranslateCoordinates env))) && visible w)
  end.

(** The surface step of the second loop of [update], for one window: the
    position test of the GLES build, then the [switch] on
    [change_surface]. A failed rebuild is logged and goes no further. *)
Definition update_surface : W unit :=
  cfg ← config;
  env ← environment;
  when (USE_GLES cfg) (
    w ← get_this;
    let '(x, y) := XTranslateCoordinates env in
    when ((negb (window_x w =? x) || negb (window_y w =? y)) && visible w) (
      record (LOG "Need surface reinit (moved).") ;;
      modify_this (set_change_surface DO_INIT))) ;;
  w ← get_this;
  match change_surface w with
  | DO_INIT =>
      try_catch init_surface (fun e =>
        record (LOG (String.append "Surface reinit failed: " e)))
  | DO_DEINIT => deinit_surface
  | DO_NOTHING => mret tt
  end.

(** The state the surface step works on once the position has been
    tested. *)
Definition after_position_test (cfg : Config) (env : Env) (st : State) : State :=
  if USE_GLES cfg &&
     ((negb (window_x (this st) =? fst (XTranslateCoordinates env)) ||
       negb (window_y (this st) =? snd (XTranslateCoordinates env))) &&
      visible (this st))
  then mkState (set_change_surface DO_INIT (this st))
               (mkSys (sdl_initialised (sys st)) (sdl_windows (sys st)) (windows (sys st))
                      (trace (sys st) ++ [LOG "Need surface reinit (moved)."]))
  else st.

(** What the event loop of [update] leaves alone and what it may do. *)
Definition only_requests (cfg : Config) (w w' : t) : Prop :=
  visible w' = visible w /\
  was_foreground w' = was_foreground w /\
  geometry w' = geometry w /\
  window w' = window w /\
  surface w' = surface w /\
  background_surface w' = background_surface w /\
  (close_requested w = true -> close_requested w' = true) /\
  (change_surface w' = change_surface w \/ change_surface w' = DO_INIT) /\
  (GAME_WINDOW_DISABLE_DIRECT_RENDER cfg = true ->
   foreground w = false -> foreground w' = false).

End GameWindow.
(** ** [shader.cpp]: loading a shader program *)

Module Shader.

Inductive ShaderType := GL_VERTEX_SHADER | GL_FRAGMENT_SHADER.

(** What the file system and the GL answer while one [Shader] is built:
    the content of a file ([None] when it cannot be read in full), the name
    [glCreateShader] returns for each type and [glCreateProgram] returns
    ([0] on failure), the compile status of each shader and the link
    status, and the lengths of the two kinds of info log. *)
Record Env := mkEnv {
  file_content : string -> option string;
  glCreateShader : ShaderType -> Z;
  GL_COMPILE_STATUS : ShaderType -> bool;
  shader_info_log_length : ShaderType -> Z;
  glCreateProgram : Z;
  GL_LINK_STATUS : bool;
  program_info_log_length : Z
}.

(** What is held until it is released: a [char] array read from a file, a
    shader object, a program object. *)
Inductive Resource :=
| Buffer (filename : string)
| ShaderObject (name : Z)
| ProgramObject (name : Z).

#[global] Instance Resource_eq_dec : EqDecision Resource.
Proof. solve_decision. Defined.

Inductive Call :=
| call_glCreateShader (type : ShaderType)
| glShaderSource (shader : Z) (source : string)
| glCompileShader (shader : Z)
| glDeleteShader (shader : Z)
| call_glCreateProgram
| glAttachShader (program shader : Z)
| glBindAttribLocation (program index : Z) (variable : string)
| glLinkProgram (program : Z)
| glDeleteProgram (program : Z)
| LOG_ERROR (line : string).

(** The resources held, newest first, and the trace of calls. *)
Record State := mkState {
  held : list Resource;
  trace : list Call
}.

(** The fields of a [Shader] the constructor assigns. *)
Record t := mk {
  vertex_shader : Z;
  fragment_shader : Z;
  program_obj : Z;
  loaded : bool
}.

(** A statement either completes or throws [Shader::LoadException]. *)
Inductive Result (A : Type) :=
| Ok (a : A)
| LoadException (what : string).

Arguments Ok {A} a.
Arguments LoadException {A} what.

Definition L (A : Type) : Type := Env -> State -> Result A * State.

#[global] Instance L_ret : MRet L := fun A (a : A) _ st => (Ok a, st).

#[global] Instance L_bind : MBind L := fun A B (f : A -> L B) (m : L A) env st =>
  let '(r, st1) := m env st in
  match r with
  | Ok a => f a env st1
  | LoadException what => (LoadException what, st1)
  end.

Definition throw {A} (what : string) : L A :=
  fun _ st => (LoadException what, st).

Definition environment : L Env := fun env st => (Ok env, st).

Definition record (c : Call) : L unit :=
  fun _ st => (Ok tt, mkState (held st) (trace st ++ [c])).

Definition acquire (r : Resource) : L unit :=
  fun _ st => (Ok tt, mkState (r :: held st) (trace st)).

(** The first [r] held is given up; releasing what is not held changes
    nothing. *)
Fixpoint without (r : Resource) (l : list Resource) : list Resource :=
  match l with
  | [] => []
  | x :: rest => if decide (x = r) then rest else x :: without r rest
  end.

Definition release (r : Resource) : L unit :=
  fun _ st => (Ok tt, mkState (without r (held st)) (trace st)).

Definition when (b : bool) (body : L unit) : L unit :=
  if b then body else mret tt.

(** [glDeleteShader] and [glDeleteProgram]: the name [0] is ignored. *)
Definition delete_shader (shader : Z) : L unit :=
  record (glDeleteShader shader) ;;
  when (negb (shader =? 0)) (release (ShaderObject shader)).

Definition delete_program (program : Z) : L unit :=
  record (glDeleteProgram program) ;;
  when (negb (program =? 0)) (release (ProgramObject program)).

(** The character that encloses the file name in the log. *)
Definition quote : string :=
  String (Ascii.Ascii false true false false false true false false) EmptyString.

(** The shader objects a constructor holds once both sources have been
    through [load_shader]: that of each type whose creation and compilation
    succeeded, the fragment shader first. *)
Definition shader_loads (env : Env) (type : ShaderType) : bool :=
  negb (glCreateShader env type =? 0) && GL_COMPILE_STATUS env type.

Definition loaded_shader (env : Env) (type : ShaderType) : Z :=
  if shader_loads env type then glCreateShader env type else 0.

Definition loaded_shaders (env : Env) : list Resource :=
  (if shader_loads env GL_FRAGMENT_SHADER
   then [ShaderObject (glCreateShader env GL_FRAGMENT_SHADER)] else []) ++
  (if shader_loads env GL_VERTEX_SHADER
   then [ShaderObject (glCreateShader env GL_VERTEX_SHADER)] else []).

(** [load_file]: the array is allocated before the file is read, and the
    exception leaves it allocated. *)
Definition load_file (filename : string) : L string :=
  env ← environment;
  acquire (Buffer filename) ;;
  match file_content env filename with
  | None =>
      record (LOG_ERROR
        (String.append "Unable to load shader file "
           (String.append quote (String.append filename (String.append quote "."))))) ;;
      throw "Unable to load shader file"
  | Some content => mret content
  end.

(** [Shader::load_shader]: the name of the compiled shader, or [0]. The
    retrieval of the info log is left out but for the line it logs. *)
Definition load_shader (type : ShaderType) (src : string) : L Z :=
  env ← environment;
  record (call_glCreateShader type) ;;
  let shader := glCreateShader env type in
  if shader =? 0 then mret 0
  else
    acquire (ShaderObject shader) ;;
    record (glShaderSource shader src) ;;
    record (glCompileShader shader) ;;
    if negb (GL_COMPILE_STATUS env type) then
      when (1 <? shader_info_log_length env type)
           (record (LOG_ERROR "Shader loading failed:")) ;;
      delete_shader shader ;;
      mret 0
    else mret shader.

(** [Shader::Shader(vs, fs)]. *)
Definition constructor (vs fs : string) : L t :=
  env ← environment;
  vs_src ← load_file vs;
  fs_src ← load_file fs;
  vertex_shader ← load_shader GL_VERTEX_SHADER vs_src;
  fragment_shader ← load_shader GL_FRAGMENT_SHADER fs_src;
  release (Buffer vs) ;;
  release (Buffer fs) ;;
  record call_glCreateProgram ;;
  let program_obj := glCreateProgram env in
  if program_obj =? 0 then
    record (LOG_ERROR "Shader creation: Could not create program object.") ;;
    record (LOG_ERROR "Flag: ") ;;
    throw "Unable to create shader program"
  else
    acquire (ProgramObject program_obj) ;;
    record (glAttachShader program_obj vertex_shader) ;;
    record (glAttachShader program_obj fragment_shader) ;;
    record (glBindAttribLocation program_obj 0 "a_position") ;;
    record (glBindAttribLocation program_obj 1 "a_texCoord") ;;
    record (glLinkProgram program_obj) ;;
    if negb (GL_LINK_STATUS env) then
      when (1 <? program_info_log_length env) (record (LOG_ERROR "Program linking:")) ;;
      delete_shader fragment_shader ;;
      delete_shader vertex_shader ;;
      delete_program program_obj ;;
      throw "Unable to link shader program"
    else
      mret (mk vertex_shader fragment_shader program_obj true).

(** [Shader::Shader(program_name)]: the file names of the build. *)
Definition constructor_of_name (USE_GLES : bool) (program_name : string) : L t :=
  if USE_GLES then
    constructor (String.append program_name ".glesv") (String.append program_name ".glesf")
  else
    constructor (String.append program_name ".glv") (String.append program_name ".glf").

(** The GL part of [Shader::~Shader]; the call on the shader cache, which
    is not modelled, is left out. *)
Definition destructor (shader : t) : L unit :=
  delete_shader (fragment_shader shader) ;;
  delete_shader (vertex_shader shader) ;;
  delete_program (program_obj shader).

(** An environment in which everything succeeds, and a process that holds
    nothing. *)
Definition healthy : Env :=
  {| file_content := fun _ => Some "void main() {}"%string;
     glCreateShader := fun type =>
       match type with GL_VERTEX_SHADER => 1 | GL_FRAGMENT_SHADER => 2 end;
     GL_COMPILE_STATUS := fun _ => true;
     shader_info_log_length := fun _ => 0;
     glCreateProgram := 3;
     GL_LINK_STATUS := true;
     program_info_log_length := 0 |}.

Definition nothing_held : State := {| held := []; trace := [] |}.

End Shader.
(** * Properties *)

(** ** Single-precision arithmetic and the clamping of the viewport *)

Section Float32Facts.

Import Float32.

Implicit Types (x y a b : float) (s : bool) (m : positive) (e z : Z).

(** *** The order of the machine *)

Lemma SFcompare_antisym x y :
  SFcompare y x = option_map CompOpp (SFcompare x y).
Proof.
  destruct x as [sx | sx | | sx mx ex], y as [sy | sy | | sy my ey]; cbn;
    try reflexivity;
    try (destruct sx; reflexivity); try (destruct sy; reflexivity);
    try (destruct sx, sy; reflexivity).
  pose proof (Pos.compare_cont_antisym mx my Eq) as Hm. cbn [CompOpp] in Hm.
  destruct sx, sy; cbn; try reflexivity.
  - rewrite (Z.compare_antisym ex ey).
    destruct (ex ?= ey); cbn; try reflexivity.
    rewrite <- Hm. destruct (Pos.compare_cont Eq mx my); reflexivity.
  - rewrite (Z.compare_antisym ex ey).
    destruct (ex ?= ey); cbn; try reflexivity.
    rewrite <- Hm. reflexivity.
Qed.

Lemma SFcompare_refl x : is_nan x = false -> SFcompare x x = Some Eq.
Proof.
  destruct x as [sx | sx | | sx mx ex]; cbn; try discriminate; intros _.
  - reflexivity.
  - destruct sx; reflexivity.
  - rewrite Z.compare_refl.
    change (Pos.compare_cont Eq mx mx) with (mx ?= mx)%positive.
    rewrite Pos.compare_refl. destruct sx; reflexivity.
Qed.

Lemma SFcompare_defined x y :
  is_nan x = false -> is_nan y = false -> exists c, SFcompare x y = Some c.
Proof.
  destruct x, y; cbn; try discriminate; intros _ _; eexists; reflexivity.
Qed.

Lemma le_refl x : is_nan x = false -> le x x = true.
Proof. intros H. unfold le, SFleb. rewrite (SFcompare_refl x H). reflexivity. Qed.

(** Of two numbers, the one that is not smaller is at least as large. *)
Lemma not_lt_le x y :
  is_nan x = false -> is_nan y = false -> lt x y = false -> le y x = true.
Proof.
  intros Hx Hy. unfold lt, le, SFltb, SFleb.
  rewrite (SFcompare_antisym x y).
  destruct (SFcompare_defined x y Hx Hy) as [c ->].
  destruct c; cbn; congruence.
Qed.

Lemma lt_le x y : lt x y = true -> le x y = true.
Proof. unfold lt, le, SFltb, SFleb. destruct (SFcompare x y) as [[] |]; congruence. Qed.

Lemma le_not_nan x y : le x y = true -> is_nan x = false /\ is_nan y = false.
Proof. destruct x, y; cbn; try discriminate; auto. Qed.

(** *** [std::max] and [std::min] on numbers *)

Lemma std_max_not_nan a b :
  is_nan a = false -> is_nan b = false -> is_nan (std_max a b) = false.
Proof. intros Ha Hb. unfold std_max. destruct (lt a b); assumption. Qed.

Lemma std_min_not_nan a b :
  is_nan a = false -> is_nan b = false -> is_nan (std_min a b) = false.
Proof. intros Ha Hb. unfold std_min. destruct (lt b a); assumption. Qed.

Lemma std_max_lower a b :
  is_nan a = false -> is_nan b = false -> le b (std_max a b) = true.
Proof.
  intros Ha Hb. unfold std_max. destruct (lt a b) eqn:E.
  - apply le_refl, Hb.
  - apply not_lt_le; assumption.
Qed.

Lemma std_min_upper a b :
  is_nan a = false -> is_nan b = false -> le (std_min a b) b = true.
Proof.
  intros Ha Hb. unfold std_min. destruct (lt b a) eqn:E.
  - apply le_refl, Hb.
  - apply not_lt_le; assumption.
Qed.

(** [std::min(std::max(x, lo), hi)] lies in [[lo, hi]] when [lo <= hi]. *)
Lemma clamp_up_in_range x lo hi :
  is_nan x = false -> le lo hi = true ->
  in_range lo hi (std_min (std_max x lo) hi) = true.
Proof.
  intros Hx Hlh. destruct (le_not_nan _ _ Hlh) as [Hlo Hhi].
  pose proof (std_max_lower x lo Hx Hlo) as Hmax.
  pose proof (std_max_not_nan x lo Hx Hlo) as Hm.
  unfold in_range. apply andb_true_intro. split.
  - unfold std_min. destruct (lt hi (std_max x lo)); assumption.
  - apply std_min_upper; assumption.
Qed.

(** [std::max(std::min(x, hi), lo)] lies in [[lo, hi]] when [lo <= hi]. *)
Lemma clamp_down_in_range x lo hi :
  is_nan x = false -> le lo hi = true ->
  in_range lo hi (std_max (std_min x hi) lo) = true.
Proof.
  intros Hx Hlh. destruct (le_not_nan _ _ Hlh) as [Hlo Hhi].
  pose proof (std_min_upper x hi Hx Hhi) as Hmin.
  pose proof (std_min_not_nan x hi Hx Hhi) as Hm.
  unfold in_range. apply andb_true_intro. split.
  - apply std_max_lower; assumption.
  - unfold std_max. destruct (lt (std_min x hi) lo); assumption.
Qed.

(** A number already in [[lo, hi]] is left alone by either clamp. *)
Lemma clamp_up_fixed x lo hi :
  in_range lo hi x = true -> std_min (std_max x lo) hi = x.
Proof.
  unfold in_range. intros H. apply andb_prop in H. destruct H as [Hlo Hhi].
  unfold std_min, std_max, lt, le, SFltb, SFleb in *.
  rewrite (SFcompare_antisym lo x).
  destruct (SFcompare lo x) as [[] |]; try discriminate; cbn;
    rewrite (SFcompare_antisym x hi);
    destruct (SFcompare x hi) as [[] |]; try discriminate; reflexivity.
Qed.

Lemma clamp_down_fixed x lo hi :
  in_range lo hi x = true -> std_max (std_min x hi) lo = x.
Proof.
  unfold in_range. intros H. apply andb_prop in H. destruct H as [Hlo Hhi].
  unfold std_min, std_max, lt, le, SFltb, SFleb in *.
  rewrite (SFcompare_antisym x hi).
  destruct (SFcompare x hi) as [[] |]; try discriminate; cbn;
    rewrite (SFcompare_antisym lo x);
    destruct (SFcompare lo x) as [[] |]; try discriminate; reflexivity.
Qed.

(** *** Rounding keeps the sign *)

Lemma iter_pos_invariant {A} (f : A -> A) (P : A -> Prop) :
  (forall r, P r -> P (f r)) -> forall p r, P r -> P (SpecFloat.iter_pos f p r).
Proof.
  intros Hf. induction p as [p IH | p IH |]; intros r Hr; cbn; auto.
Qed.

Lemma shr_1_nonneg mrs : 0 <= shr_m mrs -> 0 <= shr_m (shr_1 mrs).
Proof.
  destruct mrs as [mz r s]. cbn.
  destruct mz as [| [p | p |] | p]; cbn; lia.
Qed.

Lemma shr_nonneg mrs e n : 0 <= shr_m mrs -> 0 <= shr_m (fst (shr mrs e n)).
Proof.
  intros H. unfold shr. destruct n as [| p | p]; cbn; try exact H.
  apply (iter_pos_invariant shr_1 (fun r => 0 <= shr_m r)); [apply shr_1_nonneg | exact H].
Qed.

Lemma shr_fexp_nonneg mz e l :
  0 <= mz -> 0 <= shr_m (fst (shr_fexp prec emax mz e l)).
Proof.
  intros H. unfold shr_fexp. apply shr_nonneg.
  destruct l as [| []]; exact H.
Qed.

Lemma round_nearest_even_nonneg mz l : 0 <= mz -> 0 <= round_nearest_even mz l.
Proof.
  intros H. unfold round_nearest_even.
  destruct l as [| []]; try lia. destruct (Z.even mz); lia.
Qed.

Lemma binary_round_aux_signed s mz e l :
  0 <= mz -> signed s (binary_round_aux prec emax s mz e l).
Proof.
  intros H. unfold binary_round_aux.
  pose proof (shr_fexp_nonneg mz e l H) as H1.
  destruct (shr_fexp prec emax mz e l) as [mrs' e'].
  cbn [fst] in H1.
  pose proof (shr_fexp_nonneg _ e' loc_Exact
                (round_nearest_even_nonneg _ (loc_of_shr_record mrs') H1)) as H2.
  destruct (shr_fexp prec emax (round_nearest_even (shr_m mrs') (loc_of_shr_record mrs'))
              e' loc_Exact) as [mrs'' e''].
  cbn [fst] in H2.
  destruct (shr_m mrs'') as [| p | p]; cbn.
  - reflexivity.
  - destruct (e'' <=? emax - prec); reflexivity.
  - lia.
Qed.

Lemma binary_round_signed s m e : signed s (binary_round prec emax s m e).
Proof.
  unfold binary_round.
  destruct (shl_align m e (fexp prec emax (Z.pos (digits2_pos m) + e))) as [mz ez].
  apply binary_round_aux_signed. lia.
Qed.

(** The sign of a normalised integer is the sign of the integer. *)
Lemma binary_normalize_signed (z : Z) e :
  signed (z <? 0) (binary_normalize prec emax z e false).
Proof.
  destruct z as [| p | p]; cbn [binary_normalize].
  - reflexivity.
  - apply binary_round_signed.
  - apply binary_round_signed.
Qed.

Lemma signed_not_nan s x : signed s x -> is_nan x = false.
Proof. destruct x; cbn; tauto. Qed.

Lemma signed_false_nonneg x : signed false x -> le zero x = true.
Proof. destruct x as [sx | sx | | sx mx ex]; cbn; try tauto; intros ->; reflexivity. Qed.

Lemma signed_true_nonpos x : signed true x -> le x zero = true.
Proof. destruct x as [sx | sx | | sx mx ex]; cbn; try tauto; intros ->; reflexivity. Qed.

(** *** Binary digits *)

Lemma digits2_pos_bounds m :
  2 ^ (Z.pos (digits2_pos m) - 1) <= Z.pos m < 2 ^ Z.pos (digits2_pos m).
Proof.
  induction m as [p IH | p IH |]; cbn [digits2_pos].
  - rewrite Pos2Z.inj_succ, Z.pow_succ_r by lia.
    replace (Z.succ (Z.pos (digits2_pos p)) - 1) with (Z.succ (Z.pos (digits2_pos p) - 1)) by lia.
    rewrite Z.pow_succ_r by lia. lia.
  - rewrite Pos2Z.inj_succ, Z.pow_succ_r by lia.
    replace (Z.succ (Z.pos (digits2_pos p)) - 1) with (Z.succ (Z.pos (digits2_pos p) - 1)) by lia.
    rewrite Z.pow_succ_r by lia. lia.
  - cbn. lia.
Qed.

Lemma Zdigits2_nonneg z : 0 <= Zdigits2 z.
Proof. destruct z; cbn; lia. Qed.

(** A non-negative integer below [2 ^ k] has at most [k] digits. *)
Lemma Zdigits2_le z k : 0 <= z < 2 ^ k -> 0 <= k -> Zdigits2 z <= k.
Proof.
  intros [Hz Hlt] Hk. destruct z as [| p | p]; cbn; [lia | | lia].
  pose proof (digits2_pos_bounds p) as [Hlo _].
  apply Z.nlt_ge. intros Hgt.
  assert (2 ^ k <= 2 ^ (Z.pos (digits2_pos p) - 1)) as Hpow
    by (apply Z.pow_le_mono_r; lia).
  lia.
Qed.

Lemma Zdigits2_upper z : 0 <= z -> z < 2 ^ Zdigits2 z.
Proof.
  intros Hz. destruct z as [| p | p]; cbn [Zdigits2]; [cbn; lia | | lia].
  apply digits2_pos_bounds.
Qed.

Lemma Zdigits2_succ z : 0 <= z -> Zdigits2 (z + 1) <= Zdigits2 z + 1.
Proof.
  intros Hz. pose proof (Zdigits2_upper z Hz) as Hup.
  pose proof (Zdigits2_nonneg z) as Hd.
  apply Zdigits2_le; [| lia].
  rewrite Z.pow_add_r by lia. change (2 ^ 1) with 2. lia.
Qed.

(** *** Shifting right *)

Lemma shr_1_digits mrs :
  0 <= shr_m mrs ->
  0 <= shr_m (shr_1 mrs) /\
  Zdigits2 (shr_m (shr_1 mrs)) = Z.max 0 (Zdigits2 (shr_m mrs) - 1).
Proof.
  destruct mrs as [mz r s]. cbn [shr_m].
  destruct mz as [| [p | p |] | p]; cbn; intros H; try lia.
Qed.

Lemma iter_shr_1_digits p : forall mrs,
  0 <= shr_m mrs ->
  0 <= shr_m (SpecFloat.iter_pos shr_1 p mrs) /\
  Zdigits2 (shr_m (SpecFloat.iter_pos shr_1 p mrs)) = Z.max 0 (Zdigits2 (shr_m mrs) - Z.pos p).
Proof.
  induction p as [p IH | p IH |]; intros mrs H; cbn [SpecFloat.iter_pos].
  - destruct (shr_1_digits mrs H) as [H1 E1].
    destruct (IH _ H1) as [H2 E2]. destruct (IH _ H2) as [H3 E3].
    split; [exact H3 |]. rewrite E3, E2, E1. lia.
  - destruct (IH _ H) as [H2 E2]. destruct (IH _ H2) as [H3 E3].
    split; [exact H3 |]. rewrite E3, E2. lia.
  - destruct (shr_1_digits mrs H) as [H1 E1]. split; [exact H1 |]. rewrite E1. lia.
Qed.

(** [shr_fexp] brings the exponent up to [fexp] of the magnitude, and the
    magnitude does not grow. *)
Lemma shr_fexp_spec mz e l :
  0 <= mz ->
  let '(mrs, e') := shr_fexp prec emax mz e l in
  0 <= shr_m mrs /\
  e' = Z.max e (fexp prec emax (Zdigits2 mz + e)) /\
  Zdigits2 (shr_m mrs) + e' <= Z.max e' (Zdigits2 mz + e).
Proof.
  intros H. unfold shr_fexp, shr.
  assert (shr_m (shr_record_of_loc mz l) = mz) as Hrec by (destruct l as [| []]; reflexivity).
  destruct (fexp prec emax (Zdigits2 mz + e) - e) as [| p | p] eqn:En.
  - rewrite Hrec. repeat split; lia.
  - destruct (iter_shr_1_digits p (shr_record_of_loc mz l)) as [H1 E1]; [rewrite Hrec; exact H |].
    rewrite Hrec in E1. repeat split; [exact H1 | lia | rewrite E1; lia].
  - rewrite Hrec. repeat split; lia.
Qed.

Lemma round_nearest_even_digits mz l :
  0 <= mz ->
  0 <= round_nearest_even mz l /\
  Zdigits2 (round_nearest_even mz l) <= Zdigits2 mz + 1.
Proof.
  intros H. pose proof (Zdigits2_succ mz H) as Hs.
  unfold round_nearest_even.
  destruct l as [| []]; try (split; lia). destruct (Z.even mz); split; lia.
Qed.

(** *** Rounding without overflow *)

(** A non-negative integer [mz] scaled by [2 ^ e] rounds to a finite number
    or to zero when its magnitude [Zdigits2 mz + e] stays below [emax]. *)
Lemma binary_round_aux_finite s mz e l :
  0 <= mz -> e <= emax - prec -> Zdigits2 mz + e <= emax - 1 ->
  is_finite (binary_round_aux prec emax s mz e l) = true.
Proof.
  intros H He Hmag. unfold binary_round_aux.
  pose proof (shr_fexp_spec mz e l H) as H1.
  destruct (shr_fexp prec emax mz e l) as [mrs' e'].
  destruct H1 as (Hm1 & He1 & Hd1).
  destruct (round_nearest_even_digits _ (loc_of_shr_record mrs') Hm1) as [Hm2 Hd2].
  pose proof (shr_fexp_spec _ e' loc_Exact Hm2) as H2.
  destruct (shr_fexp prec emax (round_nearest_even (shr_m mrs') (loc_of_shr_record mrs'))
              e' loc_Exact) as [mrs'' e''].
  destruct H2 as (Hm3 & He3 & _).
  destruct (shr_m mrs'') as [| p | p]; [reflexivity | | lia].
  assert (e'' <= emax - prec) as Hfit.
  { unfold fexp, SpecFloat.emin, prec, emax in *. lia. }
  apply Z.leb_le in Hfit. rewrite Hfit. reflexivity.
Qed.

(** *** Halving *)

Lemma bounded_inv m e :
  bounded prec emax m e = true ->
  Z.pos (digits2_pos m) <= prec /\ SpecFloat.emin prec emax <= e <= emax - prec /\
  (SpecFloat.emin prec emax < e -> Z.pos (digits2_pos m) = prec).
Proof.
  unfold bounded, canonical_mantissa, fexp. intros H.
  apply andb_prop in H. destruct H as [H1 H2].
  apply Z.eqb_eq in H1. apply Z.leb_le in H2.
  unfold SpecFloat.emin, prec, emax in *. lia.
Qed.

(** Half of a finite non-negative number is finite: [bound / 2.0f] neither
    overflows nor is NaN. *)
Lemma div_two_finite m e :
  bounded prec emax m e = true ->
  is_finite (div (S754_finite false m e) two) = true.
Proof.
  intros Hb. destruct (bounded_inv m e Hb) as (Hd & He & _).
  pose proof (digits2_pos_bounds m) as [_ Hup].
  unfold div, two, SFdiv, SFdiv_core_binary.
  change (Zdigits2 (Z.pos m)) with (Z.pos (digits2_pos m)).
  change (Zdigits2 8388608) with 24.
  set (d := Z.pos (digits2_pos m)) in *.
  set (e' := Z.min (fexp prec emax (d + e - (24 + -22))) (e - -22)).
  assert (e' <= e /\ e' <= e + 22) as [He1 He2].
  { unfold e', fexp, SpecFloat.emin, prec, emax in *. lia. }
  set (sh := e - -22 - e').
  assert (0 <= sh) as Hsh by (unfold sh; lia).
  set (m' := match sh with
             | 0 => Z.pos m
             | Z.pos _ => Z.shiftl (Z.pos m) sh
             | Z.neg _ => 0
             end).
  assert (m' = Z.pos m * 2 ^ sh) as Hm'.
  { unfold m'. destruct sh as [| p | p] eqn:Esh.
    - cbn. lia.
    - apply Z.shiftl_mul_pow2. lia.
    - lia. }
  pose proof (Z_div_mod m' 8388608 eq_refl) as Hdiv.
  destruct (Z.div_eucl m' 8388608) as [q r]. destruct Hdiv as [Hq Hr].
  assert (0 < 2 ^ sh) as Hpow by (apply Z.pow_pos_nonneg; lia).
  assert (0 <= q) as Hq0 by nia.
  apply binary_round_aux_finite; [exact Hq0 | unfold prec, emax in *; lia |].
  assert (Zdigits2 q + e' <= Z.max e' (d + e - 1)) as Hmag.
  { destruct (Z_lt_le_dec (d + sh) 23) as [Hsmall | Hbig].
    - assert (q = 0) as ->.
      { assert (m' < 2 ^ (d + sh)) as Hlt.
        { rewrite Hm', Z.pow_add_r by lia. nia. }
        assert (2 ^ (d + sh) <= 2 ^ 22) as Hle by (apply Z.pow_le_mono_r; lia).
        change (2 ^ 22) with 4194304 in Hle. nia. }
      cbn. lia.
    - assert (Zdigits2 q <= d + sh - 23) as Hdq.
      { apply Zdigits2_le; [| lia]. split; [exact Hq0 |].
        assert (m' < 2 ^ (d + sh - 23) * 8388608) as Hlt.
        { change 8388608 with (2 ^ 23). rewrite <- Z.pow_add_r by lia.
          replace (d + sh - 23 + 23) with (d + sh) by lia.
          rewrite Hm', Z.pow_add_r by lia. nia. }
        nia. }
      unfold sh in Hdq. lia. }
  unfold prec, emax in *. lia.
Qed.

(** *** Subtraction of non-negative numbers *)

Lemma shl_align_fst m e e' :
  e' <= e -> Z.pos (fst (shl_align m e e')) = Z.pos m * 2 ^ (e - e').
Proof.
  intros H. unfold shl_align.
  destruct (e' - e) as [| p | p] eqn:E.
  - replace (e - e') with 0 by lia. cbn. lia.
  - lia.
  - cbn [fst]. replace (e - e') with (Z.pos p) by lia.
    change (Pos.iter xO m p) with (shift_pos p m).
    rewrite shift_pos_correct. rewrite Z.mul_comm. reflexivity.
Qed.

(** On canonical non-negative finite numbers the comparison of the machine
    is the comparison of the mantissas brought to the smaller exponent. *)
Lemma SFcompare_aligned mx ex my ey :
  bounded prec emax mx ex = true -> bounded prec emax my ey = true ->
  SFcompare (S754_finite false mx ex) (S754_finite false my ey) =
    Some (Z.pos (fst (shl_align mx ex (Z.min ex ey)))
          ?= Z.pos (fst (shl_align my ey (Z.min ex ey)))).
Proof.
  intros Hx Hy.
  destruct (bounded_inv mx ex Hx) as (Hdx & Hex & Hnx).
  destruct (bounded_inv my ey Hy) as (Hdy & Hey & Hny).
  pose proof (digits2_pos_bounds mx) as [Hlx Hux].
  pose proof (digits2_pos_bounds my) as [Hly Huy].
  rewrite !shl_align_fst by lia.
  cbn [SFcompare]. f_equal.
  destruct (Z.compare_spec ex ey) as [Heq | Hlt | Hgt].
  - subst ey. rewrite Z.min_id, Z.sub_diag, !Z.mul_1_r. reflexivity.
  - rewrite Z.min_l, Z.sub_diag, Z.mul_1_r by lia.
    symmetry. apply Z.compare_lt_iff.
    rewrite (Hny ltac:(lia)) in Hly.
    assert (2 ^ Z.pos (digits2_pos mx) <= 2 ^ prec) as Hp by (apply Z.pow_le_mono_r; lia).
    assert (2 ^ 1 <= 2 ^ (ey - ex)) as Hs by (apply Z.pow_le_mono_r; lia).
    change (2 ^ 1) with 2 in Hs.
    change (2 ^ (prec - 1)) with 8388608 in Hly. change (2 ^ prec) with 16777216 in Hp.
    nia.
  - rewrite Z.min_r, Z.sub_diag, Z.mul_1_r by lia.
    symmetry. apply Z.compare_gt_iff.
    rewrite (Hnx ltac:(lia)) in Hlx.
    assert (2 ^ Z.pos (digits2_pos my) <= 2 ^ prec) as Hp by (apply Z.pow_le_mono_r; lia).
    assert (2 ^ 1 <= 2 ^ (ex - ey)) as Hs by (apply Z.pow_le_mono_r; lia).
    change (2 ^ 1) with 2 in Hs.
    change (2 ^ (prec - 1)) with 8388608 in Hlx. change (2 ^ prec) with 16777216 in Hp.
    nia.
Qed.

(** The difference of two canonical non-negative numbers is a number whose
    sign is settled by the comparison of the operands. *)
Lemma sub_nonneg_le x y :
  valid x = true -> valid y = true ->
  finite_nonneg x = true -> finite_nonneg y = true ->
  le y x = true -> le zero (sub x y) = true.
Proof.
  intros Vx Vy Fx Fy Hle.
  destruct x as [sx | sx | | sx mx ex], y as [sy | sy | | sy my ey];
    try discriminate Fx; try discriminate Fy.
  - destruct sx, sy; reflexivity.
  - destruct sy; discriminate.
  - destruct sx; [discriminate | reflexivity].
  - destruct sx; [discriminate |]. destruct sy; [discriminate |].
    cbn in Vx, Vy. unfold le, SFleb in Hle.
    rewrite (SFcompare_aligned my ey mx ex Vy Vx), (Z.min_comm ey ex) in Hle.
    apply signed_false_nonneg. unfold sub, SFsub. cbn [cond_Zopp].
    set (ax := Z.pos (fst (shl_align mx ex (Z.min ex ey)))) in *.
    set (ay := Z.pos (fst (shl_align my ey (Z.min ex ey)))) in *.
    pose proof (binary_normalize_signed (ax - ay) (Z.min ex ey)) as Hs.
    destruct (Z.compare_spec ay ax) as [E | E | E]; try discriminate Hle.
    + replace (ax - ay <? 0) with false in Hs by (symmetry; apply Z.ltb_ge; lia). exact Hs.
    + replace (ax - ay <? 0) with false in Hs by (symmetry; apply Z.ltb_ge; lia). exact Hs.
Qed.

Lemma sub_nonneg_lt x y :
  valid x = true -> valid y = true ->
  finite_nonneg x = true -> finite_nonneg y = true ->
  lt x y = true -> le (sub x y) zero = true.
Proof.
  intros Vx Vy Fx Fy Hlt.
  destruct x as [sx | sx | | sx mx ex], y as [sy | sy | | sy my ey];
    try discriminate Fx; try discriminate Fy.
  - discriminate Hlt.
  - destruct sy; [discriminate | reflexivity].
  - destruct sx; discriminate.
  - destruct sx; [discriminate |]. destruct sy; [discriminate |].
    cbn in Vx, Vy. unfold lt, SFltb in Hlt.
    rewrite (SFcompare_aligned mx ex my ey Vx Vy) in Hlt.
    apply signed_true_nonpos. unfold sub, SFsub. cbn [cond_Zopp].
    set (ax := Z.pos (fst (shl_align mx ex (Z.min ex ey)))) in *.
    set (ay := Z.pos (fst (shl_align my ey (Z.min ex ey)))) in *.
    pose proof (binary_normalize_signed (ax - ay) (Z.min ex ey)) as Hs.
    destruct (Z.compare_spec ax ay) as [E | E | E]; try discriminate Hlt.
    replace (ax - ay <? 0) with true in Hs by (symmetry; apply Z.ltb_lt; lia). exact Hs.
Qed.

(** Equal operands give a zero. *)
Lemma sub_nonneg_eq x y :
  valid x = true -> valid y = true ->
  finite_nonneg x = true -> finite_nonneg y = true ->
  le y x = true -> le x y = true -> exists s, sub x y = S754_zero s.
Proof.
  intros Vx Vy Fx Fy Hyx Hxy.
  destruct x as [sx | sx | | sx mx ex], y as [sy | sy | | sy my ey];
    try discriminate Fx; try discriminate Fy.
  - destruct sx, sy; eexists; reflexivity.
  - destruct sy; discriminate.
  - destruct sx; discriminate.
  - destruct sx; [discriminate |]. destruct sy; [discriminate |].
    cbn in Vx, Vy. unfold le, SFleb in Hyx, Hxy.
    rewrite (SFcompare_aligned mx ex my ey Vx Vy) in Hxy.
    rewrite (SFcompare_aligned my ey mx ex Vy Vx), (Z.min_comm ey ex) in Hyx.
    unfold sub, SFsub. cbn [cond_Zopp].
    set (ax := Z.pos (fst (shl_align mx ex (Z.min ex ey)))) in *.
    set (ay := Z.pos (fst (shl_align my ey (Z.min ex ey)))) in *.
    assert (ax - ay = 0) as ->.
    { destruct (Z.compare_spec ax ay); destruct (Z.compare_spec ay ax);
        try discriminate; lia. }
    exists false. reflexivity.
Qed.

(** A number minus a finite number is a number. *)
Lemma sub_finite_not_nan x y :
  is_nan x = false -> is_finite y = true -> is_nan (sub x y) = false.
Proof.
  intros Hx Hy.
  destruct x as [sx | sx | | sx mx ex], y as [sy | sy | | sy my ey];
    try discriminate Hx; try discriminate Hy; try reflexivity.
  - destruct sx, sy; reflexivity.
  - unfold sub, SFsub.
    eapply signed_not_nan, binary_normalize_signed.
Qed.

End Float32Facts.

Section Clamping.

Import Float32.

Implicit Types (point length bound : float).

Lemma centre_point_in_range_crop point length bound :
  centre_point_in_range point length bound
    = crop (sub point (div bound two)) length bound.
Proof. reflexivity. Qed.

Lemma half_bound_finite bound :
  valid bound = true -> finite_nonneg bound = true ->
  is_finite (div bound two) = true.
Proof.
  intros V F. destruct bound as [s | s | | s m e]; try discriminate F.
  - reflexivity.
  - destruct s; [discriminate F |]. apply div_two_finite. exact V.
Qed.

Lemma strictly_below length bound :
  le bound length = false -> le length bound = true -> lt length bound = true.
Proof.
  unfold le, lt, SFleb, SFltb. rewrite (SFcompare_antisym length bound).
  destruct (SFcompare length bound) as [[] |]; cbn; congruence.
Qed.

(** A number between [0] and a zero is a zero, so it also lies between that
    zero and [0]. *)
Lemma in_range_zero_swap s x :
  in_range zero (S754_zero s) x = true -> in_range (S754_zero s) zero x = true.
Proof.
  destruct x as [sx | sx | | sx mx ex]; cbn; try discriminate.
  - reflexivity.
  - destruct sx; discriminate.
  - destruct sx; discriminate.
Qed.

(** The crop puts every number in the interval; it leaves NaN alone. *)
Lemma crop_in_range x length bound :
  is_nan x = false ->
  valid length = true -> valid bound = true ->
  finite_nonneg length = true -> finite_nonneg bound = true ->
  (le bound length = true ->
   in_range zero (sub length bound) (crop x length bound) = true) /\
  (le length bound = true ->
   in_range (sub length bound) zero (crop x length bound) = true).
Proof.
  intros Hx Vl Vb Fl Fb. unfold crop, ge, le.
  destruct (SFleb bound length) eqn:Hbl.
  - assert (in_range zero (sub length bound)
              (std_min (std_max x zero) (sub length bound)) = true) as Hin.
    { apply clamp_up_in_range; [exact Hx |].
      apply sub_nonneg_le; assumption. }
    split; [intros _; exact Hin |].
    intros Hlb. destruct (sub_nonneg_eq length bound Vl Vb Fl Fb Hbl Hlb) as [s Hs].
    rewrite Hs in *. apply in_range_zero_swap, Hin.
  - split; [discriminate |].
    intros Hlb. rewrite Hlb.
    apply clamp_down_in_range; [exact Hx |].
    apply sub_nonneg_lt; try assumption. apply strictly_below; assumption.
Qed.

Lemma lt_nan_r x : lt x nan = false.
Proof. destruct x; reflexivity. Qed.

Lemma crop_nan length bound : crop nan length bound = nan.
Proof.
  unfold crop. destruct (ge length bound).
  - change (std_max nan zero) with nan. unfold std_min. rewrite lt_nan_r. reflexivity.
  - destruct (ge bound length); [| reflexivity].
    change (std_min nan zero) with nan. unfold std_max.
    change (lt nan (sub length bound)) with false. reflexivity.
Qed.

(** Cropping twice is cropping once. *)
Lemma crop_idempotent x length bound :
  valid length = true -> valid bound = true ->
  finite_nonneg length = true -> finite_nonneg bound = true ->
  crop (crop x length bound) length bound = crop x length bound.
Proof.
  intros Vl Vb Fl Fb.
  destruct (is_nan x) eqn:Hx.
  { destruct x; try discriminate Hx. change S754_nan with nan. rewrite !crop_nan. reflexivity. }
  destruct (crop_in_range x length bound Hx Vl Vb Fl Fb) as [Hup Hdown].
  unfold crop at 1. unfold ge, le in *.
  destruct (SFleb bound length) eqn:Hbl.
  - apply clamp_up_fixed, Hup. reflexivity.
  - destruct (SFleb length bound) eqn:Hlb; [| reflexivity].
    apply clamp_down_fixed, Hdown. reflexivity.
Qed.

(** C1, the claim as worded fails: for length 10, bound 4 and a point that
    is NaN the result is NaN, which lies in no interval. *)
Lemma centre_point_in_range_of_nan :
  ~ clamping_law nan f10 f4.
Proof.
  intros H. destruct (H eq_refl eq_refl eq_refl eq_refl) as [Hup _].
  specialize (Hup eq_refl). vm_compute in Hup. discriminate Hup.
Qed.

(** C1, amended: for finite non-negative [length] and [bound] and every
    [point] other than NaN, the result lies in [[0, length - bound]] when
    [bound <= length] and in [[length - bound, 0]] when [bound >= length],
    the difference and the comparisons being those of single precision. *)
Theorem centre_point_in_range_clamped point length bound :
  is_nan point = false -> clamping_law point length bound.
Proof.
  intros Hp Vl Vb Fl Fb. rewrite centre_point_in_range_crop.
  apply crop_in_range; try assumption.
  apply sub_finite_not_nan; [exact Hp |].
  apply half_bound_finite; assumption.
Qed.

Lemma centre_point_in_range_clamped_witness :
  is_nan centre_of_tile_63 = false /\
  in_range zero (sub map_64_tiles width_642_px)
    (centre_point_in_range centre_of_tile_63 map_64_tiles width_642_px) = true.
Proof.
  assert (is_nan centre_of_tile_63 = false) as Hp by reflexivity.
  split; [exact Hp |].
  exact (proj1 (centre_point_in_range_clamped centre_of_tile_63 map_64_tiles width_642_px
                  Hp eq_refl eq_refl eq_refl eq_refl) eq_refl).
Defined.

(** C6, the claim as worded fails: with a window 642 pixels wide, 40-pixel
    tiles, a map 64 tiles wide and the focus on tile 63, the offset is
    the upper end of the interval, [12569805 * 2^-18]; adding half the bound
    and subtracting it again each round to even, and the second application
    returns [12569804 * 2^-18]. *)
Lemma centre_point_in_range_not_idempotent :
  ~ idempotent_at centre_of_tile_63 map_64_tiles width_642_px.
Proof.
  intros H. specialize (H eq_refl eq_refl eq_refl eq_refl).
  vm_compute in H. discriminate H.
Qed.

(** C6, amended: for finite non-negative [length] and [bound], whenever
    subtracting half the bound from the re-centred point gives the offset
    back, that is when [(r + bound/2) - bound/2] is [r] in single precision,
    the second application returns the same offset [r]. *)
Theorem centre_point_in_range_idempotent_when_exact point length bound :
  sub (recentred point length bound) (div bound two)
    = centre_point_in_range point length bound ->
  idempotent_at point length bound.
Proof.
  intros Hexact Vl Vb Fl Fb.
  rewrite (centre_point_in_range_crop (recentred point length bound)), Hexact.
  rewrite centre_point_in_range_crop. apply crop_idempotent; assumption.
Qed.

Lemma centre_point_in_range_idempotent_when_exact_witness :
  sub (recentred (of_int 8) f10 f4) (div f4 two) = centre_point_in_range (of_int 8) f10 f4 /\
  centre_point_in_range (recentred (of_int 8) f10 f4) f10 f4 = of_int 6.
Proof.
  assert (sub (recentred (of_int 8) f10 f4) (div f4 two)
          = centre_point_in_range (of_int 8) f10 f4) as Hexact by reflexivity.
  split; [exact Hexact |].
  exact (centre_point_in_range_idempotent_when_exact (of_int 8) f10 f4 Hexact
           eq_refl eq_refl eq_refl eq_refl).
Defined.

(** The worked examples of the specification: length 10 and bound 4 give
    offset 0 for point 1, 6 for point 8 and 3 for point 5; length 4 and
    bound 10 give offset -3 for point 2. *)
Example centre_point_in_range_examples :
  centre_point_in_range (of_int 1) f10 f4 = zero /\
  centre_point_in_range (of_int 8) f10 f4 = of_int 6 /\
  centre_point_in_range (of_int 5) f10 f4 = of_int 3 /\
  centre_point_in_range (of_int 2) f4 f10 = of_int (-3).
Proof. repeat split; reflexivity. Qed.

End Clamping.
(** ** Single-precision arithmetic: canonical results *)

Section Float32Canonical.
Import Float32.

Lemma Zdigits2_unique z k :
  0 < k -> 2 ^ (k - 1) <= z < 2 ^ k -> Zdigits2 z = k.
Proof.
  intros Hk [Hlo Hhi].
  assert (0 < 2 ^ (k - 1)) as Hpos by (apply Z.pow_pos_nonneg; lia).
  destruct z as [| p | p]; [lia | | lia]. cbn [Zdigits2].
  pose proof (digits2_pos_bounds p) as [Hl Hu].
  set (d := Z.pos (digits2_pos p)) in *.
  destruct (Z.lt_trichotomy d k) as [Hlt | [Heq | Hgt]]; [| exact Heq |].
  - assert (2 ^ d <= 2 ^ (k - 1)) by (apply Z.pow_le_mono_r; lia). lia.
  - assert (2 ^ k <= 2 ^ (d - 1)) by (apply Z.pow_le_mono_r; lia). lia.
Qed.

Lemma Zdigits2_lower z : 0 < z -> 2 ^ (Zdigits2 z - 1) <= z.
Proof.
  destruct z as [| p | p]; intros H; [lia | | lia]. apply digits2_pos_bounds.
Qed.

Lemma Zdigits2_succ_cases z :
  0 <= z ->
  Zdigits2 (z + 1) = Zdigits2 z \/
  (z + 1 = 2 ^ Zdigits2 z /\ Zdigits2 (z + 1) = Zdigits2 z + 1).
Proof.
  intros Hz. pose proof (Zdigits2_upper z Hz) as Hup.
  pose proof (Zdigits2_nonneg z) as Hd.
  destruct (Z.eq_dec (z + 1) (2 ^ Zdigits2 z)) as [E | NE].
  - right. split; [exact E |]. apply Zdigits2_unique; [lia |].
    replace (Zdigits2 z + 1 - 1) with (Zdigits2 z) by lia.
    rewrite Z.pow_add_r by lia. change (2 ^ 1) with 2. lia.
  - left. destruct (Z.eq_dec z 0) as [-> | Hnz]; [contradiction NE; reflexivity |].
    pose proof (Zdigits2_lower z ltac:(lia)) as Hlo.
    assert (0 < Zdigits2 z) as Hpos.
    { destruct z as [| p | p]; cbn; lia. }
    apply Zdigits2_unique; [exact Hpos | lia].
Qed.

Lemma shr_fexp_digits mz e l :
  0 <= mz ->
  let '(mrs, e') := shr_fexp prec emax mz e l in
  0 <= shr_m mrs /\
  e' = Z.max e (fexp prec emax (Zdigits2 mz + e)) /\
  Zdigits2 (shr_m mrs) = Z.max 0 (Zdigits2 mz - (e' - e)).
Proof.
  intros H. unfold shr_fexp, shr.
  pose proof (Zdigits2_nonneg mz) as Hd.
  assert (shr_m (shr_record_of_loc mz l) = mz) as Hrec by (destruct l as [| []]; reflexivity).
  destruct (fexp prec emax (Zdigits2 mz + e) - e) as [| p | p] eqn:En.
  - rewrite Hrec. repeat split; lia.
  - destruct (iter_shr_1_digits p (shr_record_of_loc mz l)) as [H1 E1]; [rewrite Hrec; exact H |].
    rewrite Hrec in E1. repeat split; [exact H1 | lia | rewrite E1; lia].
  - rewrite Hrec. repeat split; lia.
Qed.

Lemma round_nearest_even_cases mz l :
  round_nearest_even mz l = mz \/ round_nearest_even mz l = mz + 1.
Proof.
  unfold round_nearest_even. destruct l as [| []]; auto. destruct (Z.even mz); auto.
Qed.

(** Rounding an integer whose exponent is not above the canonical one gives
    a number in canonical form. *)
Lemma binary_round_aux_valid s mz e l :
  0 <= mz -> e <= fexp prec emax (Zdigits2 mz + e) ->
  valid (binary_round_aux prec emax s mz e l) = true.
Proof.
  intros H He. unfold binary_round_aux.
  pose proof (shr_fexp_digits mz e l H) as H1.
  destruct (shr_fexp prec emax mz e l) as [mrs' e'].
  destruct H1 as (Hm1 & He1 & Hd1).
  set (m2 := round_nearest_even (shr_m mrs') (loc_of_shr_record mrs')).
  assert (0 <= m2) as Hm2 by (apply round_nearest_even_nonneg; exact Hm1).
  assert (Zdigits2 m2 = Zdigits2 (shr_m mrs') \/
          Zdigits2 m2 = Zdigits2 (shr_m mrs') + 1) as Hd2.
  { unfold m2. destruct (round_nearest_even_cases (shr_m mrs') (loc_of_shr_record mrs'))
      as [-> | ->]; [left; reflexivity |].
    destruct (Zdigits2_succ_cases (shr_m mrs') Hm1) as [E | [_ E]]; auto. }
  pose proof (shr_fexp_digits m2 e' loc_Exact Hm2) as H2.
  destruct (shr_fexp prec emax m2 e' loc_Exact) as [mrs'' e''].
  destruct H2 as (Hm3 & He3 & Hd3).
  pose proof (Zdigits2_nonneg mz) as Hdz.
  destruct (shr_m mrs'') as [| p | p] eqn:Em; [reflexivity | | lia].
  destruct (e'' <=? emax - prec) eqn:Hfit; [| reflexivity].
  unfold valid. cbn [valid_binary]. unfold bounded, canonical_mantissa.
  rewrite Hfit, andb_true_r. apply Z.eqb_eq.
  change (Z.pos (digits2_pos p)) with (Zdigits2 (Z.pos p)).
  unfold fexp, SpecFloat.emin, prec, emax in *.
  lia.
Qed.


Lemma shl_align_spec m e e' :
  let '(mz, ez) := shl_align m e e' in
  ez = Z.min e e' /\ Zdigits2 (Z.pos mz) + ez = Zdigits2 (Z.pos m) + e.
Proof.
  unfold shl_align. destruct (e' - e) as [| p | p] eqn:E.
  - split; lia.
  - split; lia.
  - split; [lia |].
    pose proof (digits2_pos_bounds m) as [Hl Hu].
    cbn [fst snd]. change (Pos.iter xO m p) with (shift_pos p m).
    change (Zdigits2 (Z.pos m)) with (Z.pos (digits2_pos m)).
    set (d := Z.pos (digits2_pos m)) in *.
    assert (0 < d) as Hd by (unfold d; lia).
    rewrite (Zdigits2_unique (Z.pos (shift_pos p m)) (d + Z.pos p)); [lia | lia |].
    rewrite shift_pos_correct. change (Zpower_pos 2 p) with (2 ^ Z.pos p).
    assert (0 < 2 ^ Z.pos p) as Hpow by (apply Z.pow_pos_nonneg; lia).
    replace (d + Z.pos p - 1) with (d - 1 + Z.pos p) by lia.
    rewrite !Z.pow_add_r by lia. nia.
Qed.

Lemma binary_round_valid s m e : valid (binary_round prec emax s m e) = true.
Proof.
  unfold binary_round.
  pose proof (shl_align_spec m e (fexp prec emax (Z.pos (digits2_pos m) + e))) as H.
  destruct (shl_align m e (fexp prec emax (Z.pos (digits2_pos m) + e))) as [mz ez].
  destruct H as [Hez Hd]. apply binary_round_aux_valid; [lia |].
  rewrite Hd. cbn [Zdigits2]. lia.
Qed.

Lemma binary_normalize_valid z e : valid (binary_normalize prec emax z e false) = true.
Proof. destruct z; [reflexivity | apply binary_round_valid ..]. Qed.

(** The float made from an [int] is in canonical form, and it is finite
    and not negative when the integer is not negative. *)
Lemma of_int_valid n : valid (of_int n) = true.
Proof. apply binary_normalize_valid. Qed.

Lemma of_int_finite_nonneg n :
  0 <= n <= INT_MAX -> finite_nonneg (of_int n) = true.
Proof.
  intros [H0 Hmax].
  pose proof (binary_normalize_signed n 0) as Hs.
  replace (n <? 0) with false in Hs by (symmetry; apply Z.ltb_ge; lia).
  assert (is_finite (of_int n) = true) as Hf.
  { unfold of_int. destruct n as [| p | p]; [reflexivity | | lia].
    cbn [binary_normalize]. unfold binary_round.
    pose proof (shl_align_spec p 0 (fexp prec emax (Z.pos (digits2_pos p) + 0))) as H.
    destruct (shl_align p 0 (fexp prec emax (Z.pos (digits2_pos p) + 0))) as [mz ez].
    destruct H as [Hez Hd].
    assert (Zdigits2 (Z.pos p) <= 31) as Hd31.
    { apply Zdigits2_le; [| lia]. unfold INT_MAX in Hmax. change (2 ^ 31) with 2147483648. lia. }
    apply binary_round_aux_finite; unfold prec, emax in *; lia. }
  fold (of_int n) in Hs. destruct (of_int n) as [sx | sx | | sx mx ex]; cbn in *;
    try discriminate; try contradiction; subst; reflexivity.
Qed.

Lemma add_not_nan x y :
  is_nan x = false -> is_finite y = true -> is_nan (add x y) = false.
Proof.
  intros Hx Hy.
  destruct x as [sx | sx | | sx mx ex], y as [sy | sy | | sy my ey];
    try discriminate Hx; try discriminate Hy; try reflexivity.
  - destruct sx, sy; reflexivity.
  - unfold add, SFadd.
    eapply signed_not_nan, binary_normalize_signed.
Qed.

End Float32Canonical.

Section Centring.
Import Float32.

(** When the display centred on the point already lies in the range, the
    function returns the centred offset [point - bound / 2] itself: the
    crop moves nothing. *)
Theorem centre_point_in_range_centred point length bound :
  origin_in_range length bound (sub point (div bound two)) ->
  centre_point_in_range point length bound = sub point (div bound two).
Proof.
  intros [Hup Hdown]. unfold centre_point_in_range, ge. unfold le in Hup, Hdown.
  destruct (SFleb bound length) eqn:Hbl.
  - apply clamp_up_fixed, Hup. reflexivity.
  - destruct (SFleb length bound) eqn:Hlb; [| reflexivity].
    apply clamp_down_fixed, Hdown. reflexivity.
Qed.

Lemma centre_point_in_range_centred_witness :
  centre_point_in_range (of_int 5) f10 f4 = of_int 3.
Proof.
  apply (centre_point_in_range_centred (of_int 5) f10 f4).
  split.
  - intros _. vm_compute. reflexivity.
  - intros H. vm_compute in H. discriminate H.
Defined.

End Centring.
(** ** The object registry *)

Section Registry.

Import ObjectManager.

Implicit Types (om : t) (o e : Object) (id k j : Z) (kind : ObjectKind).

Lemma is_valid_object_id_spec om id :
  is_valid_object_id om id = true <-> 0 < id < next_object_id om.
Proof. unfold is_valid_object_id. rewrite andb_true_iff, !Z.ltb_lt. tauto. Qed.

Lemma is_valid_object_id_spec' om id :
  is_valid_object_id om id = bool_decide (0 < id < next_object_id om).
Proof.
  unfold is_valid_object_id.
  destruct (Z.ltb_spec 0 id), (Z.ltb_spec id (next_object_id om)); simpl;
    symmetry; first [apply bool_decide_eq_true_2 | apply bool_decide_eq_false_2]; lia.
Qed.

Lemma get_next_id_Some om e :
  next_object_id om < INT_MAX ->
  get_next_id om e =
    Some (next_object_id om, set_id e (next_object_id om),
          mk (next_object_id om + 1) (objects om) (error_log om)).
Proof.
  intros H. unfold get_next_id.
  destruct (Z.ltb_spec (next_object_id om) INT_MAX); [reflexivity | lia].
Qed.

Lemma get_next_id_inv om e id e' om' :
  get_next_id om e = Some (id, e', om') ->
  next_object_id om < INT_MAX /\ id = next_object_id om /\
  e' = set_id e id /\ get_id e' = id /\
  next_object_id om' = next_object_id om + 1 /\ objects om' = objects om.
Proof.
  unfold get_next_id.
  destruct (Z.ltb_spec (next_object_id om) INT_MAX); [| discriminate].
  intros [= <- <- <-]. simpl. repeat split; auto.
Qed.

Lemma add_object_next om new_object :
  next_object_id (snd (add_object om new_object)) = next_object_id om.
Proof.
  unfold add_object. destruct new_object as [o|]; [| reflexivity].
  destruct (is_valid_object_id om (get_id o)); reflexivity.
Qed.

Lemma remove_object_next om id :
  next_object_id (remove_object om id) = next_object_id om.
Proof. unfold remove_object. destruct (objects om !! id); reflexivity. Qed.

Lemma remove_object_objects om id :
  objects (remove_object om id) = delete id (objects om).
Proof.
  unfold remove_object. destruct (objects om !! id) eqn:E; simpl; [reflexivity |].
  symmetry. apply delete_id. exact E.
Qed.

Lemma add_object_objects om new_object :
  objects (snd (add_object om new_object)) =
    match new_object with
    | Some o =>
        if is_valid_object_id om (get_id o)
        then <[get_id o := o]> (objects om) else objects om
    | None => objects om
    end.
Proof.
  unfold add_object. destruct new_object as [o|]; [| reflexivity].
  destruct (is_valid_object_id om (get_id o)); reflexivity.
Qed.

Lemma is_valid_object_id_mono om om' id :
  next_object_id om <= next_object_id om' ->
  is_valid_object_id om id = true -> is_valid_object_id om' id = true.
Proof. rewrite !is_valid_object_id_spec. lia. Qed.

(** *** Removal *)

Lemma with_one_sprite_eq :
  next_object_id with_one_sprite = 2 /\
  objects with_one_sprite !! 1 = Some (set_id john 1).
Proof. split; reflexivity. Qed.

(** C2, the claim as worded fails: id 1 is allocated, stored and removed, and
    [is_valid_object_id] still answers true for it, because validity only
    compares the id with the counter. *)
Lemma remove_object_keeps_id_valid :
  ~ removal_invalidates with_one_sprite 1.
Proof.
  intros H. destruct (H eq_refl) as [Hvalid _].
  rewrite is_valid_object_id_spec' in Hvalid. discriminate Hvalid.
Qed.

(** C2, amended: removing [k] empties [get(k)] and leaves every other id
    resolving to the same entity; the validity of every id, [k] included, is
    what it was before the removal. *)
Theorem remove_object_spec om k :
  let om' := remove_object om k in
  (forall kind, get_object kind om' k = None) /\
  (forall kind j, j <> k -> get_object kind om' j = get_object kind om j) /\
  (forall j, is_valid_object_id om' j = is_valid_object_id om j).
Proof.
  cbn zeta. split; [| split].
  - intros kind. unfold get_object.
    rewrite remove_object_objects, lookup_delete_eq. reflexivity.
  - intros kind j Hj. unfold get_object.
    rewrite remove_object_objects, lookup_delete_ne by congruence. reflexivity.
  - intros j. unfold is_valid_object_id. rewrite remove_object_next. reflexivity.
Qed.

(** *** Adding *)

(** C5, the claim as worded fails: the registry holds John under id 1; adding
    another entity whose id is 1 succeeds and replaces John. *)
Lemma add_object_overwrites_duplicate :
  ~ add_rejects_duplicates with_one_sprite (Some impostor).
Proof.
  unfold add_rejects_duplicates.
  destruct (add_object with_one_sprite (Some impostor)) as [ok om'] eqn:E.
  intros [Hrej _].
  assert (add_rejected_case with_one_sprite (Some impostor)) as Hcase.
  { right. exists (set_id john 1). reflexivity. }
  destruct (Hrej Hcase) as [Hok _].
  apply (f_equal fst) in E. simpl in E. congruence.
Qed.

(** C5, amended: [add_object] fails exactly for a null entity or an id outside
    [(0, next_object_id)], and then the map is unchanged; in every other case,
    an id already stored included, it succeeds and the map holds the entity
    under its id, whatever was stored there before. *)
Theorem add_object_spec om new_object :
  let '(ok, om') := add_object om new_object in
  (ok = false <->
     new_object = None \/
     exists o, new_object = Some o /\ ~ (0 < get_id o < next_object_id om)) /\
  (ok = false -> objects om' = objects om) /\
  (ok = true ->
     exists o, new_object = Some o /\
               objects om' = <[get_id o := o]> (objects om) /\
               objects om' !! get_id o = Some o) /\
  next_object_id om' = next_object_id om.
Proof.
  unfold add_object. destruct new_object as [o|]; simpl.
  - destruct (is_valid_object_id om (get_id o)) eqn:V; simpl.
    + apply is_valid_object_id_spec in V.
      repeat split; try discriminate.
      * intros [H | (o' & [= <-] & H)]; [discriminate | contradiction].
      * intros _. exists o. rewrite lookup_insert_eq. auto.
    + assert (~ (0 < get_id o < next_object_id om)) as V'.
      { rewrite <- is_valid_object_id_spec, V. discriminate. }
      repeat split; try discriminate; eauto.
  - repeat split; try discriminate; auto.
Qed.

(** *** Allocation *)




(** *** The counter *)








End Registry.
(** ** The object registry: further properties *)

Section RegistryLifeCycle.

Import ObjectManager.

Implicit Types (om : t) (o e : Object) (id k j : Z) (ops : list Op).

(** Removing an id that is not stored changes neither the map nor the
    counter and writes exactly one line to the error log; so does a second
    removal of an id just removed. *)
Theorem remove_object_absent om id :
  objects om !! id = None ->
  objects (remove_object om id) = objects om /\
  next_object_id (remove_object om id) = next_object_id om /\
  error_log (remove_object om id) =
    error_log om ++
    ["trying to remove object that either doesn't exist or there are multiple"%string] /\
  objects (remove_object (remove_object om id) id) = objects om /\
  length (error_log (remove_object (remove_object om id) id))
    = S (S (length (error_log om))).
Proof.
  intros Habsent.
  assert (remove_object om id =
          log_error om "trying to remove object that either doesn't exist or there are multiple")
    as E by (unfold remove_object; rewrite Habsent; reflexivity).
  rewrite E. cbn [log_error objects next_object_id error_log].
  split; [reflexivity |]. split; [reflexivity |]. split; [reflexivity |].
  unfold remove_object at 1 2. cbn [log_error objects]. rewrite Habsent.
  cbn [log_error objects error_log]. split; [reflexivity |].
  rewrite !length_app. cbn. lia.
Qed.

Lemma remove_object_absent_witness :
  objects with_one_sprite !! 5 = None /\
  objects (remove_object with_one_sprite 5) = objects with_one_sprite.
Proof.
  assert (objects with_one_sprite !! 5 = None) as H by reflexivity.
  split; [exact H |]. exact (proj1 (remove_object_absent with_one_sprite 5 H)).
Defined.

(** Adding an entity under a free valid id and removing that id again gives
    back the map as it was, and neither call logs an error. *)
Theorem add_then_remove_restores om o :
  is_valid_object_id om (get_id o) = true ->
  objects om !! get_id o = None ->
  let '(ok, om1) := add_object om (Some o) in
  ok = true /\
  objects (remove_object om1 (get_id o)) = objects om /\
  error_log (remove_object om1 (get_id o)) = error_log om /\
  next_object_id (remove_object om1 (get_id o)) = next_object_id om.
Proof.
  intros Hvalid Hfree. unfold add_object. rewrite Hvalid. cbn [negb].
  split; [reflexivity |].
  unfold remove_object. cbn [set_objects objects].
  rewrite lookup_insert_eq. cbn [set_objects objects error_log next_object_id].
  rewrite delete_insert_eq. rewrite (delete_id (objects om) (get_id o) Hfree).
  auto.
Qed.

Lemma add_then_remove_restores_witness :
  is_valid_object_id with_one_sprite (get_id impostor) = true /\
  objects (remove_object with_one_sprite 1) !! get_id impostor = None /\
  objects (remove_object
             (snd (add_object (remove_object with_one_sprite 1) (Some impostor))) 1)
    = objects (remove_object with_one_sprite 1).
Proof.
  assert (is_valid_object_id (remove_object with_one_sprite 1) (get_id impostor) = true)
    as Hvalid by reflexivity.
  assert (objects (remove_object with_one_sprite 1) !! get_id impostor = None)
    as Hfree by reflexivity.
  split; [reflexivity |]. split; [exact Hfree |].
  pose proof (add_then_remove_restores (remove_object with_one_sprite 1) impostor
                Hvalid Hfree) as H.
  destruct (add_object (remove_object with_one_sprite 1) (Some impostor)) as [ok om1].
  exact (proj1 (proj2 H)).
Defined.

(** *** What every reachable registry satisfies *)

Lemma step_invariant om op om' :
  step om op = Some om' ->
  1 <= next_object_id om ->
  (forall id o, objects om !! id = Some o -> is_valid_object_id om id = true) ->
  1 <= next_object_id om' /\
  (forall id o, objects om' !! id = Some o -> is_valid_object_id om' id = true).
Proof.
  intros Hstep Hnext Hkeys. destruct op as [e | e | k]; cbn [step] in Hstep.
  - destruct (get_next_id om e) as [[[i e'] om1] |] eqn:E; [| discriminate].
    injection Hstep as <-. apply get_next_id_inv in E.
    destruct E as (_ & _ & _ & _ & Hn & Hobjs). split; [lia |].
    intros id o Hid. rewrite Hobjs in Hid.
    apply (is_valid_object_id_mono om); [lia | eauto].
  - injection Hstep as <-. split; [rewrite add_object_next; exact Hnext |].
    intros id o Hid. rewrite add_object_objects in Hid.
    apply (is_valid_object_id_mono om); [rewrite add_object_next; lia |].
    destruct e as [o' |]; [| eauto].
    destruct (is_valid_object_id om (get_id o')) eqn:V; [| eauto].
    destruct (decide (get_id o' = id)) as [<- | Hne]; [exact V |].
    rewrite lookup_insert_ne in Hid by exact Hne. eauto.
  - injection Hstep as <-. split; [rewrite remove_object_next; exact Hnext |].
    intros id o Hid. rewrite remove_object_objects in Hid.
    apply (is_valid_object_id_mono om); [rewrite remove_object_next; lia |].
    destruct (decide (k = id)) as [<- | Hne].
    + rewrite lookup_delete_eq in Hid. discriminate.
    + rewrite lookup_delete_ne in Hid by exact Hne. eauto.
Qed.

Lemma run_invariant ops : forall om om',
  run om ops = Some om' ->
  1 <= next_object_id om ->
  (forall id o, objects om !! id = Some o -> is_valid_object_id om id = true) ->
  1 <= next_object_id om' /\
  (forall id o, objects om' !! id = Some o -> is_valid_object_id om' id = true).
Proof.
  induction ops as [| op ops IH]; intros om om' Hrun Hnext Hkeys.
  - injection Hrun as <-. auto.
  - cbn [run] in Hrun. destruct (step om op) as [om1 |] eqn:E; [| discriminate].
    destruct (step_invariant _ _ _ E Hnext Hkeys) as [H1 H2].
    exact (IH _ _ Hrun H1 H2).
Qed.

(** In every registry reached from the initial one by allocations, additions
    and removals, the counter is at least 1, every key of the map is a valid
    id, and 0 is not a key. *)
Theorem reachable_keys_are_valid ops om :
  run initial ops = Some om ->
  1 <= next_object_id om /\
  (forall id o, objects om !! id = Some o ->
                is_valid_object_id om id = true /\ 0 < id < next_object_id om) /\
  objects om !! 0 = None.
Proof.
  intros Hrun.
  destruct (run_invariant ops initial om Hrun) as [Hnext Hkeys].
  - cbn. lia.
  - intros id o H. cbn in H. rewrite lookup_empty in H. discriminate.
  - split; [exact Hnext |]. split.
    + intros id o H. pose proof (Hkeys id o H) as V. split; [exact V |].
      apply is_valid_object_id_spec, V.
    + destruct (objects om !! 0) as [o |] eqn:E; [| reflexivity].
      apply Hkeys, is_valid_object_id_spec in E. lia.
Qed.

Lemma reachable_keys_are_valid_witness :
  run initial [OpAllocate john; OpAdd (Some (set_id john 1)); OpAllocate impostor;
               OpAdd (Some impostor); OpRemove 7]
    = Some (remove_object (snd (add_object (mk 3 (objects with_one_sprite) []) (Some impostor))) 7) /\
  objects (remove_object (snd (add_object (mk 3 (objects with_one_sprite) []) (Some impostor))) 7)
    !! 0 = None.
Proof.
  assert (run initial [OpAllocate john; OpAdd (Some (set_id john 1)); OpAllocate impostor;
                       OpAdd (Some impostor); OpRemove 7]
          = Some (remove_object
                    (snd (add_object (mk 3 (objects with_one_sprite) []) (Some impostor))) 7))
    as Hrun by reflexivity.
  split; [exact Hrun |].
  exact (proj2 (proj2 (reachable_keys_are_valid _ _ Hrun))).
Defined.

(** An allocation in a reachable registry hands out an id that was not
    valid before and is not a key of the map, whatever has been removed in
    the meantime; adding the entity that received it succeeds and stores the
    entity under that id. This is the sequence of [Challenge::make_sprite]. *)
Theorem allocated_id_is_fresh_and_accepted ops om e :
  run initial ops = Some om ->
  next_object_id om < INT_MAX ->
  exists id e' om1 om2,
    get_next_id om e = Some (id, e', om1) /\
    is_valid_object_id om id = false /\
    objects om !! id = None /\
    add_object om1 (Some e') = (true, om2) /\
    objects om2 !! id = Some e' /\
    get_id e' = id /\
    is_valid_object_id om2 id = true.
Proof.
  intros Hrun Hrange.
  destruct (run_invariant ops initial om Hrun) as [Hnext Hkeys].
  { cbn. lia. }
  { intros id o H. cbn in H. rewrite lookup_empty in H. discriminate. }
  set (id := next_object_id om).
  set (om1 := mk (id + 1) (objects om) (error_log om)).
  assert (is_valid_object_id om id = false) as Hfresh.
  { apply not_true_is_false. rewrite is_valid_object_id_spec. unfold id. lia. }
  assert (is_valid_object_id om1 id = true) as Hvalid.
  { apply is_valid_object_id_spec. cbn. unfold id. lia. }
  exists id, (set_id e id), om1, (set_objects om1 (<[id := set_id e id]> (objects om1))).
  split; [apply get_next_id_Some, Hrange |].
  split; [exact Hfresh |]. split.
  { destruct (objects om !! id) as [o |] eqn:E; [| reflexivity].
    apply Hkeys in E. congruence. }
  split.
  { unfold add_object. cbn [get_id set_id]. rewrite Hvalid. reflexivity. }
  split; [cbn; apply lookup_insert_eq |].
  split; [reflexivity | exact Hvalid].
Qed.

Lemma allocated_id_is_fresh_and_accepted_witness :
  exists e' om2,
    add_object (mk 3 (objects (remove_object with_one_sprite 1))
                     (error_log (remove_object with_one_sprite 1))) (Some e')
      = (true, om2) /\
    objects om2 !! 2 = Some e' /\ objects om2 !! 1 = None.
Proof.
  assert (run initial [OpAllocate john; OpAdd (Some (set_id john 1)); OpRemove 1]
          = Some (remove_object with_one_sprite 1)) as Hrun by reflexivity.
  assert (next_object_id (remove_object with_one_sprite 1) < INT_MAX) as Hrange
    by reflexivity.
  destruct (allocated_id_is_fresh_and_accepted _ _ impostor Hrun Hrange)
    as (id & e' & om1 & om2 & Hget & _ & _ & Hadd & Hlook & _ & _).
  assert (Some (id, e', om1) =
          Some (2, set_id impostor 2,
                mk 3 (objects (remove_object with_one_sprite 1))
                     (error_log (remove_object with_one_sprite 1)))) as E
    by (rewrite <- Hget; reflexivity).
  injection E as -> -> ->.
  exists (set_id impostor 2), om2. split; [exact Hadd |]. split; [exact Hlook |].
  assert (objects om2 = <[2 := set_id impostor 2]> (objects (remove_object with_one_sprite 1)))
    as -> by (unfold add_object in Hadd; cbn in Hadd; injection Hadd as <-; reflexivity).
  reflexivity.
Defined.

End RegistryLifeCycle.
(** ** The render passes *)

Section Rendering.

Import MapViewer.

Implicit Types (om : ObjectManager.t) (v : t) (kind : ObjectKind) (line : string)
  (id j : Z) (ids pre post : list Z).

Lemma bind_run {A B} (m : M A) (f : A -> M B) om v :
  (m ≫= f) om v =
    match m om v with
    | (ev1, Normal a, v1) =>
        let '(ev2, flow2, v2) := f a om v1 in (ev1 ++ ev2, flow2, v2)
    | (ev1, Returned, v1) => (ev1, Returned, v1)
    | (ev1, NullDereference, v1) => (ev1, NullDereference, v1)
    | (ev1, CheckFailed, v1) => (ev1, CheckFailed, v1)
    end.
Proof.
  unfold mbind, M_bind. destruct (m om v) as [[ev1 []] v1]; reflexivity.
Qed.

Lemma render_entity_cases kind line id om v :
  render_entity kind line id om v =
    if id =? 0 then ([], Normal tt, v)
    else match ObjectManager.get_object kind om id with
         | None => ([], NullDereference, v)
         | Some entity =>
             match get_shader (get_renderable_component entity) with
             | None => (prepare id ++ [LOG_ERROR line], Returned, v)
             | Some program =>
                 (drawn id program
                    (get_num_vertices_render (get_renderable_component entity)),
                  Normal tt, v)
             end
         end.
Proof.
  unfold render_entity. destruct (id =? 0); [reflexivity |].
  unfold mbind, M_bind, registry, deref, emits, emit, return_, draw.
  destruct (ObjectManager.get_object kind om id) as [entity |]; [| reflexivity].
  destruct (get_shader (get_renderable_component entity)); reflexivity.
Qed.

Lemma render_pass_cons kind line id ids om v :
  render_pass kind line (id :: ids) om v =
    match render_entity kind line id om v with
    | (ev1, Normal _, v1) =>
        let '(ev2, flow2, v2) := render_pass kind line ids om v1 in
        (ev1 ++ ev2, flow2, v2)
    | (ev1, Returned, v1) => (ev1, Returned, v1)
    | (ev1, NullDereference, v1) => (ev1, NullDereference, v1)
    | (ev1, CheckFailed, v1) => (ev1, CheckFailed, v1)
    end.
Proof. unfold render_pass. cbn [for_each]. apply bind_run. Qed.

(** A pass leaves the viewer as it found it. *)
Lemma render_pass_viewer kind line ids om v :
  snd (render_pass kind line ids om v) = v.
Proof.
  induction ids as [| id ids IH]; [reflexivity |].
  rewrite render_pass_cons, render_entity_cases.
  destruct (id =? 0).
  - destruct (render_pass kind line ids om v) as [[ev fl] v'] eqn:E.
    simpl in *. exact IH.
  - destruct (ObjectManager.get_object kind om id) as [entity |]; [| reflexivity].
    destruct (get_shader (get_renderable_component entity)); [| reflexivity].
    destruct (render_pass kind line ids om v) as [[ev fl] v'] eqn:E.
    simpl in *. exact IH.
Qed.

(** A pass draws only entities of its list. *)
Lemma render_pass_draws kind line ids om v j n :
  In (glDrawArrays (OfEntity j) n) (events (render_pass kind line ids) om v) ->
  In j ids.
Proof.
  unfold events. induction ids as [| id ids IH]; [intros [] |].
  rewrite render_pass_cons, render_entity_cases.
  destruct (Z.eqb_spec id 0) as [-> | Hid].
  - destruct (render_pass kind line ids om v) as [[ev fl] v'] eqn:E.
    simpl in *. auto.
  - destruct (ObjectManager.get_object kind om id) as [entity |]; [| intros []].
    destruct (get_shader (get_renderable_component entity)).
    + destruct (render_pass kind line ids om v) as [[ev fl] v'] eqn:E.
      cbn [fst snd] in *. intros H. apply in_app_or in H. destruct H as [H | H].
      * left. unfold drawn, prepare in H. cbn in H.
        repeat (destruct H as [H | H]; [congruence || (injection H; auto) |]).
        destruct H.
      * right. auto.
    + cbn. intros H. repeat (destruct H as [H | H]; [discriminate H |]). destruct H.
Qed.

(** Entities handled in full, followed by the rest of the list. *)
Lemma render_pass_app kind line pre rest om v :
  flow (render_pass kind line pre) om v = Normal tt ->
  render_pass kind line (pre ++ rest) om v =
    let '(ev2, flow2, v2) := render_pass kind line rest om v in
    (events (render_pass kind line pre) om v ++ ev2, flow2, v2).
Proof.
  unfold flow, events. induction pre as [| id pre IH].
  - intros _. cbn [app]. destruct (render_pass kind line rest om v) as [[ev fl] v'].
    reflexivity.
  - cbn [app]. rewrite !render_pass_cons, render_entity_cases.
    destruct (id =? 0).
    + destruct (render_pass kind line pre om v) as [[ev fl] v'] eqn:E.
      cbn [fst snd] in *. intros ->. rewrite (IH eq_refl).
      destruct (render_pass kind line rest om v) as [[ev2 fl2] v2]. reflexivity.
    + destruct (ObjectManager.get_object kind om id) as [entity |]; [| discriminate].
      destruct (get_shader (get_renderable_component entity)); [| discriminate].
      destruct (render_pass kind line pre om v) as [[ev fl] v'] eqn:E.
      cbn [fst snd] in *. intros ->. rewrite (IH eq_refl).
      destruct (render_pass kind line rest om v) as [[ev2 fl2] v2].
      rewrite app_assoc. reflexivity.
Qed.

Lemma render_sprites_eq om v m :
  map v = Some m ->
  render_sprites om v = render_pass KSprite sprite_shader_null (get_sprites m) om v.
Proof.
  intros Hm. unfold render_sprites, mbind, M_bind, get, deref. rewrite Hm. cbn.
  destruct (render_pass KSprite sprite_shader_null (get_sprites m) om v) as [[ev fl] v'].
  reflexivity.
Qed.

Lemma render_objects_eq om v m :
  map v = Some m ->
  render_objects om v = render_pass KMapObject object_shader_null (get_map_objects m) om v.
Proof.
  intros Hm. unfold render_objects, mbind, M_bind, get, deref. rewrite Hm. cbn.
  destruct (render_pass KMapObject object_shader_null (get_map_objects m) om v)
    as [[ev fl] v'].
  reflexivity.
Qed.

Lemma render_pass_null_shader kind line pre id post entity om v :
  flow (render_pass kind line pre) om v = Normal tt ->
  id <> 0 ->
  ObjectManager.get_object kind om id = Some entity ->
  get_shader (get_renderable_component entity) = None ->
  ends_pass_at (render_pass kind line (pre ++ id :: post)) kind line om v pre id post.
Proof.
  intros Hpre Hid Hget Hshader.
  assert (render_pass kind line (pre ++ id :: post) om v =
            (events (render_pass kind line pre) om v ++ prepare id ++ [LOG_ERROR line],
             Returned, v)) as Hrun.
  { rewrite (render_pass_app _ _ _ _ _ _ Hpre), render_pass_cons, render_entity_cases.
    destruct (Z.eqb_spec id 0); [contradiction |].
    rewrite Hget, Hshader. reflexivity. }
  split; [exact Hrun |]. split.
  - intros j n Hpost Hnpre Hne. unfold events at 1. rewrite Hrun. cbn [fst].
    intros H. apply in_app_or in H. destruct H as [H | H].
    + apply Hnpre. eapply render_pass_draws, H.
    + cbn in H. repeat (destruct H as [H | H]; [discriminate H |]). destruct H.
  - intros k. unfold events. rewrite bind_run. unfold call. rewrite Hrun. cbn [fst].
    destruct (k om v) as [[ev2 fl2] v2]. reflexivity.
Qed.

Lemma ends_pass_at_ext (pass1 pass2 : M unit) kind line om v pre id post :
  pass1 om v = pass2 om v ->
  ends_pass_at pass2 kind line om v pre id post ->
  ends_pass_at pass1 kind line om v pre id post.
Proof.
  unfold ends_pass_at, events. intros E (H1 & H2 & H3). rewrite E.
  split; [exact H1 |]. split; [exact H2 |].
  intros k. specialize (H3 k). rewrite bind_run in *. unfold call in *.
  rewrite E. exact H3.
Qed.

(** C3, the claim as worded fails: the sprite list is [1; 2], sprite 1 has no
    shader and sprite 2 has one, and the frame holds no draw call for
    sprite 2. *)
Lemma null_shader_skips_later_entities :
  ~ null_shader_skips_entity_only ghost_then_john (viewer_of [1; 2]).
Proof.
  intros H.
  specialize (H _ [] 1 [2] (set_id ghost 1) eq_refl eq_refl).
  specialize (H ltac:(discriminate) eq_refl eq_refl).
  specialize (H 2 (set_id ObjectManager.john 2) 1).
  specialize (H ltac:(left; reflexivity) ltac:(discriminate) eq_refl eq_refl).
  vm_compute in H.
  repeat (destruct H as [H | H]; [discriminate H |]). destruct H.
Qed.

(** C3, amended: when an entity of the sprite list, or of the map-object
    list, resolves to a renderable component without shader, the entities
    before it have been drawn, the error is logged, and the pass returns
    there: no later entity of that list is drawn. The caller of the pass goes
    on, so the passes that follow in the frame are run. *)
Theorem null_shader_ends_the_pass om v m pre id post entity :
  map v = Some m ->
  id <> 0 ->
  get_shader (get_renderable_component entity) = None ->
  (get_sprites m = pre ++ id :: post ->
   ObjectManager.get_object KSprite om id = Some entity ->
   flow (render_pass KSprite sprite_shader_null pre) om v = Normal tt ->
   ends_pass_at render_sprites KSprite sprite_shader_null om v pre id post) /\
  (get_map_objects m = pre ++ id :: post ->
   ObjectManager.get_object KMapObject om id = Some entity ->
   flow (render_pass KMapObject object_shader_null pre) om v = Normal tt ->
   ends_pass_at render_objects KMapObject object_shader_null om v pre id post).
Proof.
  intros Hm Hid Hshader. split; intros Hlist Hget Hpre.
  - apply (ends_pass_at_ext _ (render_pass KSprite sprite_shader_null (pre ++ id :: post))).
    + rewrite (render_sprites_eq _ _ _ Hm), Hlist. reflexivity.
    + exact (render_pass_null_shader _ _ _ _ post _ _ _ Hpre Hid Hget Hshader).
  - apply (ends_pass_at_ext _ (render_pass KMapObject object_shader_null (pre ++ id :: post))).
    + rewrite (render_objects_eq _ _ _ Hm), Hlist. reflexivity.
    + exact (render_pass_null_shader _ _ _ _ post _ _ _ Hpre Hid Hget Hshader).
Qed.

Lemma null_shader_ends_the_pass_witness :
  ends_pass_at render_sprites KSprite sprite_shader_null
               ghost_then_john (viewer_of [2; 1; 2]) [2] 1 [2].
Proof.
  refine (proj1 (null_shader_ends_the_pass ghost_then_john (viewer_of [2; 1; 2])
                   _ [2] 1 [2] (set_id ghost 1) eq_refl _ eq_refl) eq_refl _ _).
  - discriminate.
  - vm_compute. reflexivity.
  - vm_compute. reflexivity.
Defined.

(** An id the registry does not resolve makes the loop body dereference an
    empty pointer. *)
Lemma render_entity_not_found kind line id om v :
  id <> 0 ->
  ObjectManager.get_object kind om id = None ->
  render_entity kind line id om v = ([], NullDereference, v).
Proof.
  intros Hid Hget. rewrite render_entity_cases, Hget.
  destruct (Z.eqb_spec id 0); [contradiction | reflexivity].
Qed.

(** C4, where the code departs from the claim: sprite 1 has been removed
    from the registry and is still in the map's sprite list. The sprite pass
    calls [get_renderable_component] on the empty pointer the registry
    returns, and the frame ends there. [refocus_map] tests the pointer it
    gets for the same id and carries on. *)
Theorem render_sprites_dereferences_removed_sprite :
  let om := ObjectManager.remove_object ObjectManager.with_one_sprite 1 in
  let v := viewer_of [1] in
  ObjectManager.get_object KSprite om 1 = None /\
  flow render_sprites om v = NullDereference /\
  flow render om v = NullDereference /\
  ~ tolerates_not_found om v /\
  flow refocus_map om (set_map_focus v 1) = Normal tt.
Proof.
  cbn zeta. split; [vm_compute; reflexivity |].
  split; [vm_compute; reflexivity |].
  split; [vm_compute; reflexivity |].
  split; [| vm_compute; reflexivity].
  intros [H _]. apply H. vm_compute. reflexivity.
Qed.

End Rendering.
(** ** The viewer and the frame: further properties *)

Section Frame.

Import MapViewer.

Implicit Types (om : ObjectManager.t) (v : t) (kind : ObjectKind) (line : string)
  (id j : Z) (ids pre post : list Z).

(** *** The focus *)

Lemma refocus_map_cases om v :
  refocus_map om v =
    if map_focus_object v =? 0 then
      ([LOG_INFO "MapViewer::refocus_map: No focus."], Returned, v)
    else
      match ObjectManager.get_object KSprite om (map_focus_object v) with
      | None =>
          ([LOG_INFO "MapViewer::refocus_map: No sprites have focus."; text_updater],
           Normal tt, v)
      | Some sprite =>
          match map v with
          | None => ([], NullDereference, v)
          | Some m =>
              ([text_updater], Normal tt,
               set_display_y
                 (set_display_x v
                    (centre_point_in_range
                       (Float32.add (fst (get_position sprite)) Float32.half)
                       (Float32.of_int (get_width m)) (display_width v)))
                 (centre_point_in_range
                    (Float32.add (snd (get_position sprite)) Float32.half)
                    (Float32.of_int (get_height m)) (display_height v)))
          end
      end.
Proof.
  unfold refocus_map, mbind, M_bind, get, registry, emit, return_, put, deref.
  destruct (map_focus_object v =? 0); [reflexivity |].
  destruct (ObjectManager.get_object KSprite om (map_focus_object v)); [| reflexivity].
  destruct (map v); reflexivity.
Qed.

(** With no focus, [refocus_map] logs and returns before the status text
    is updated; with a focus whose entity has been removed from the registry
    it logs and updates the status text. In both cases the viewer, and so
    the display origin, is left as it was. *)
Theorem refocus_map_without_sprite om v :
  (map_focus_object v = 0 ->
   refocus_map om v =
     ([LOG_INFO "MapViewer::refocus_map: No focus."], Returned, v)) /\
  (map_focus_object v <> 0 ->
   refocus_map (ObjectManager.remove_object om (map_focus_object v)) v =
     ([LOG_INFO "MapViewer::refocus_map: No sprites have focus."; text_updater],
      Normal tt, v)).
Proof.
  split; intros Hfocus; rewrite refocus_map_cases.
  - rewrite Hfocus. reflexivity.
  - destruct (Z.eqb_spec (map_focus_object v) 0); [contradiction |].
    unfold ObjectManager.get_object.
    rewrite remove_object_objects, lookup_delete_eq. reflexivity.
Qed.

Lemma call_run (body : M unit) om v :
  call body om v =
    match body om v with
    | (ev, Returned, v') => (ev, Normal tt, v')
    | other => other
    end.
Proof.
  unfold call. destruct (body om v) as [[ev []] v']; reflexivity.
Qed.

(** [set_map_focus_object] rejects an id outside [(0, next_object_id)] with
    an error line and leaves the viewer alone. It accepts every id inside,
    also one under which no sprite is stored (the entity was removed, or is
    of another class): the id becomes the focus, the display origin stays,
    and the status text is updated. *)
Theorem set_map_focus_object_spec om v id :
  (ObjectManager.is_valid_object_id om id = false ->
   set_map_focus_object id om v =
     ([LOG_ERROR "MapViewer::set_map_focus_object: Invalid focus object"],
      Normal tt, v)) /\
  (ObjectManager.is_valid_object_id om id = true ->
   ObjectManager.get_object KSprite om id = None ->
   set_map_focus_object id om v =
     ([LOG_INFO "MapViewer::refocus_map: No sprites have focus."; text_updater],
      Normal tt, set_map_focus v id)) /\
  (ObjectManager.is_valid_object_id om id = true ->
   map_focus_object (viewer_after (set_map_focus_object id) om v) = id).
Proof.
  unfold viewer_after, set_map_focus_object, mbind, M_bind, registry, get, put, emit.
  split; [| split].
  - intros ->. reflexivity.
  - intros Hvalid Hget. rewrite Hvalid. cbn.
    rewrite call_run, refocus_map_cases. cbn [map_focus_object set_map_focus].
    apply is_valid_object_id_spec in Hvalid.
    destruct (Z.eqb_spec id 0); [lia |]. rewrite Hget. reflexivity.
  - intros Hvalid. rewrite Hvalid. cbn.
    rewrite call_run, refocus_map_cases. cbn [map_focus_object set_map_focus].
    apply is_valid_object_id_spec in Hvalid.
    destruct (Z.eqb_spec id 0); [lia |].
    destruct (ObjectManager.get_object KSprite om id); [| reflexivity].
    cbn [map set_map_focus]. destruct (map v); reflexivity.
Qed.

(** *** The layers *)

Lemma for_each_indexed_cons {A} (i : nat) (x : A) rest (body : nat -> A -> M unit) om v :
  for_each_indexed i (x :: rest) body om v =
    match body i x om v with
    | (ev1, Normal _, v1) =>
        let '(ev2, flow2, v2) := for_each_indexed (S i) rest body om v1 in
        (ev1 ++ ev2, flow2, v2)
    | (ev1, Returned, v1) => (ev1, Returned, v1)
    | (ev1, NullDereference, v1) => (ev1, NullDereference, v1)
    | (ev1, CheckFailed, v1) => (ev1, CheckFailed, v1)
    end.
Proof. cbn [for_each_indexed]. apply bind_run. Qed.

Lemma render_layer_cases n layer om v :
  render_layer n layer om v =
    match get_shader (layer_renderable_component layer) with
    | Some program =>
        (layer_drawn n program
           (get_num_vertices_render (layer_renderable_component layer)),
         Normal tt, v)
    | None =>
        ([set_projection_matrix (OfLayer n); set_modelview_matrix (OfLayer n);
          bind_shader (OfLayer n)], NullDereference, v)
    end.
Proof.
  unfold render_layer, mbind, M_bind, emits, deref, draw.
  destruct (get_shader (layer_renderable_component layer)); reflexivity.
Qed.

Lemma render_layers_all_shaders layers : forall n om v,
  Forall (fun layer => get_shader (layer_renderable_component layer) <> None) layers ->
  for_each_indexed n layers render_layer om v = (layers_drawn n layers, Normal tt, v).
Proof.
  induction layers as [| layer rest IH]; intros n om v Hall; [reflexivity |].
  apply Forall_cons in Hall. destruct Hall as [Hlayer Hrest].
  rewrite for_each_indexed_cons, render_layer_cases. cbn [layers_drawn].
  destruct (get_shader (layer_renderable_component layer)); [| contradiction].
  rewrite (IH _ _ _ Hrest). reflexivity.
Qed.

Lemma render_layers_null_shader (below : list Layer) layer (above : list Layer) : forall n om v,
  Forall (fun layer => get_shader (layer_renderable_component layer) <> None) below ->
  get_shader (layer_renderable_component layer) = None ->
  for_each_indexed n (below ++ layer :: above) render_layer om v =
    (layers_drawn n below ++
     [set_projection_matrix (OfLayer (n + length below));
      set_modelview_matrix (OfLayer (n + length below));
      bind_shader (OfLayer (n + length below))],
     NullDereference, v).
Proof.
  induction below as [| l below IH]; intros n om v Hall Hnull.
  - cbn [app length layers_drawn]. rewrite Nat.add_0_r.
    rewrite for_each_indexed_cons, render_layer_cases, Hnull. reflexivity.
  - apply Forall_cons in Hall. destruct Hall as [Hl Hbelow].
    cbn [app]. rewrite for_each_indexed_cons, render_layer_cases. cbn [layers_drawn length].
    destruct (get_shader (layer_renderable_component l)); [| contradiction].
    rewrite (IH (S n) om v Hbelow Hnull). rewrite <- app_assoc.
    replace (S n + length below)%nat with (n + S (length below))%nat by lia. reflexivity.
Qed.

Lemma refocus_map_keeps_map om v :
  map (viewer_after refocus_map om v) = map v /\
  flow refocus_map om v <> CheckFailed.
Proof.
  unfold viewer_after, flow. rewrite refocus_map_cases.
  destruct (map_focus_object v =? 0); [split; [reflexivity | discriminate] |].
  destruct (ObjectManager.get_object KSprite om (map_focus_object v));
    [| split; [reflexivity | discriminate]].
  destruct (map v) eqn:E; cbn; split; try discriminate; try reflexivity; exact E.
Qed.

Lemma render_map_run om v m :
  map v = Some m ->
  completes refocus_map om v ->
  render_map om v =
    let '(ev, fl, v') :=
      for_each_indexed 0%nat (get_layers m) render_layer om (viewer_after refocus_map om v) in
    (events refocus_map om v ++ ev, fl, v').
Proof.
  intros Hm Hdone.
  destruct (refocus_map_keeps_map om v) as [Hmap _]. rewrite Hm in Hmap.
  unfold completes, flow, events, viewer_after in *.
  unfold render_map. rewrite bind_run, call_run.
  destruct (refocus_map om v) as [[ev0 fl0] v0]. cbn [fst snd] in *.
  destruct fl0 as [[] | | |]; try contradiction;
    rewrite bind_run; cbn [get]; rewrite bind_run; unfold deref at 1; rewrite Hmap;
    change (for_each_indexed 0 (get_layers m) _) with
      (for_each_indexed 0%nat (get_layers m) render_layer);
    destruct (for_each_indexed 0%nat (get_layers m) render_layer om v0) as [[ev fl] v'];
    reflexivity.
Qed.

(** [render_map] draws the layers of the bound map in the order of the list,
    bottom first, with one draw call per layer covering its vertex count, once
    the focus has been handled. A layer whose renderable component has no
    shader is not skipped: its shader pointer is dereferenced, after the
    layers below it have been drawn. *)
Theorem render_map_draws_layers_in_order om v m :
  map v = Some m ->
  completes refocus_map om v ->
  (Forall (fun layer => get_shader (layer_renderable_component layer) <> None)
          (get_layers m) ->
   render_map om v =
     (events refocus_map om v ++ layers_drawn 0 (get_layers m),
      Normal tt, viewer_after refocus_map om v)) /\
  (forall below layer above,
     get_layers m = below ++ layer :: above ->
     Forall (fun layer => get_shader (layer_renderable_component layer) <> None) below ->
     get_shader (layer_renderable_component layer) = None ->
     render_map om v =
       (events refocus_map om v ++ layers_drawn 0 below ++
        [set_projection_matrix (OfLayer (length below));
         set_modelview_matrix (OfLayer (length below));
         bind_shader (OfLayer (length below))],
        NullDereference, viewer_after refocus_map om v)).
Proof.
  intros Hm Hdone. split.
  - intros Hall. rewrite (render_map_run om v m Hm Hdone).
    rewrite (render_layers_all_shaders _ _ _ _ Hall). reflexivity.
  - intros below layer above Hlayers Hbelow Hnull.
    rewrite (render_map_run om v m Hm Hdone), Hlayers.
    rewrite (render_layers_null_shader below layer above 0%nat _ _ Hbelow Hnull).
    reflexivity.
Qed.

(** *** The frame *)

Lemma render_objects_viewer om v : viewer_after render_objects om v = v.
Proof.
  unfold viewer_after, render_objects. rewrite bind_run. cbn [get].
  rewrite bind_run. unfold deref. destruct (map v) as [m |]; [| reflexivity].
  pose proof (render_pass_viewer KMapObject object_shader_null (get_map_objects m) om v) as H.
  destruct (render_pass KMapObject object_shader_null (get_map_objects m) om v) as [[ev fl] v'].
  exact H.
Qed.

Lemma render_sprites_viewer om v : viewer_after render_sprites om v = v.
Proof.
  unfold viewer_after, render_sprites. rewrite bind_run. cbn [get].
  rewrite bind_run. unfold deref. destruct (map v) as [m |]; [| reflexivity].
  pose proof (render_pass_viewer KSprite sprite_shader_null (get_sprites m) om v) as H.
  destruct (render_pass KSprite sprite_shader_null (get_sprites m) om v) as [[ev fl] v'].
  exact H.
Qed.

Lemma render_gui_cases om v :
  render_gui om v =
    match get_shader (gui_renderable_component v) with
    | None =>
        ([set_modelview_matrix OfGui; set_projection_matrix OfGui; bind_shader OfGui;
          LOG_ERROR "ERROR: Shader is NULL in MapViewer::render_map"],
         Returned, v)
    | Some program =>
        ([set_modelview_matrix OfGui; set_projection_matrix OfGui; bind_shader OfGui;
          glUniformMatrix4fv program "mat_projection";
          glUniformMatrix4fv program "mat_modelview";
          bind_vbos OfGui; bind_textures OfGui;
          glDrawArrays OfGui (get_num_vertices_render (gui_renderable_component v));
          release_textures OfGui; release_vbos OfGui; release_shader OfGui],
         Normal tt, v)
    end.
Proof.
  unfold render_gui, mbind, M_bind, get, emits, emit, return_, draw.
  destruct (get_shader (gui_renderable_component v)); reflexivity.
Qed.

Lemma call_completes (body : M unit) om v :
  completes body om v ->
  call body om v = (events body om v, Normal tt, viewer_after body om v).
Proof.
  unfold completes, flow, events, viewer_after. rewrite call_run.
  destruct (body om v) as [[ev [[] | | |]] v']; cbn; intros H; try contradiction; reflexivity.
Qed.

(** A frame is: clear, the layers, the map objects, the sprites, the GUI, in
    that order. A pass that returns early (a missing shader) does not stop
    the passes after it, and a missing GUI shader leaves the frame complete.
    Only the layer pass, through [refocus_map], changes the viewer. *)
Theorem render_frame_order om v m :
  map v = Some m ->
  completes render_map om v ->
  completes render_objects om (viewer_after render_map om v) ->
  completes render_sprites om (viewer_after render_map om v) ->
  render om v =
    (glClear :: events render_map om v
       ++ events render_objects om (viewer_after render_map om v)
       ++ events render_sprites om (viewer_after render_map om v)
       ++ events render_gui om (viewer_after render_map om v),
     Normal tt, viewer_after render_map om v).
Proof.
  intros Hm Hmap Hobjects Hsprites.
  unfold render. rewrite bind_run. cbn [get]. rewrite bind_run.
  unfold CHECK_NOTNULL at 1. rewrite Hm. rewrite bind_run. cbn [emit].
  rewrite bind_run, (call_completes _ _ _ Hmap).
  set (v1 := viewer_after render_map om v) in *.
  rewrite bind_run, (call_completes _ _ _ Hobjects), render_objects_viewer.
  rewrite bind_run, (call_completes _ _ _ Hsprites), render_sprites_viewer.
  rewrite call_run. unfold events. rewrite render_gui_cases.
  destruct (get_shader (gui_renderable_component v1)); reflexivity.
Qed.

Lemma render_frame_order_witness :
  render ghost_then_john village_viewer =
    (glClear :: events render_map ghost_then_john village_viewer
       ++ events render_objects ghost_then_john
            (viewer_after render_map ghost_then_john village_viewer)
       ++ events render_sprites ghost_then_john
            (viewer_after render_map ghost_then_john village_viewer)
       ++ events render_gui ghost_then_john
            (viewer_after render_map ghost_then_john village_viewer),
     Normal tt, viewer_after render_map ghost_then_john village_viewer).
Proof.
  apply (render_frame_order ghost_then_john village_viewer village eq_refl).
  - vm_compute. exact I.
  - vm_compute. exact I.
  - vm_compute. exact I.
Defined.

Lemma render_map_draws_layers_in_order_witness :
  render_map ghost_then_john village_viewer =
    (events refocus_map ghost_then_john village_viewer
       ++ layer_drawn 0 3 600 ++ layer_drawn 1 3 24,
     Normal tt, viewer_after refocus_map ghost_then_john village_viewer).
Proof.
  assert (completes refocus_map ghost_then_john village_viewer) as Hdone
    by (vm_compute; exact I).
  rewrite (proj1 (render_map_draws_layers_in_order ghost_then_john village_viewer village
                    eq_refl Hdone)).
  - cbn [layers_drawn village get_layers ground roofs layer_renderable_component
           get_shader get_num_vertices_render]. rewrite app_nil_r. reflexivity.
  - repeat constructor; discriminate.
Defined.

(** *** The end of a challenge *)

Lemma remove_all_lookup ids : forall om id,
  ObjectManager.objects (remove_all om ids) !! id =
    if bool_decide (id ∈ ids) then None else ObjectManager.objects om !! id.
Proof.
  unfold remove_all. induction ids as [| k ids IH]; intros om id; cbn [fold_left].
  - rewrite bool_decide_eq_false_2 by apply not_elem_of_nil. reflexivity.
  - rewrite IH, remove_object_objects.
    destruct (decide (id ∈ ids)) as [Hin | Hnin].
    + rewrite !bool_decide_eq_true_2; [reflexivity | apply elem_of_cons; auto | exact Hin].
    + rewrite (bool_decide_eq_false_2 _ Hnin).
      destruct (decide (k = id)) as [-> | Hne].
      * rewrite lookup_delete_eq, bool_decide_eq_true_2 by (apply elem_of_cons; auto).
        reflexivity.
      * rewrite lookup_delete_ne by exact Hne.
        rewrite bool_decide_eq_false_2; [reflexivity |].
        rewrite elem_of_cons. intros [? | ?]; [congruence | contradiction].
Qed.

Lemma remove_all_next ids : forall om,
  ObjectManager.next_object_id (remove_all om ids) = ObjectManager.next_object_id om.
Proof.
  unfold remove_all. induction ids as [| k ids IH]; intros om; cbn [fold_left];
    [reflexivity |].
  rewrite IH. apply remove_object_next.
Qed.

(** When a challenge is destroyed, exactly its sprite ids and map-object
    ids stop resolving in the registry, every other entry stays, the id
    counter is not taken back (the ids are not reused), and the viewer is
    left without a map: the next [render] fails its check before any GL
    call. *)
Theorem destroy_challenge_spec c om v :
  let '(om', v') := destroy_challenge c om v in
  (forall id, id ∈ sprite_ids c ++ map_object_ids c ->
              ObjectManager.objects om' !! id = None) /\
  (forall id, id ∉ sprite_ids c ++ map_object_ids c ->
              ObjectManager.objects om' !! id = ObjectManager.objects om !! id) /\
  ObjectManager.next_object_id om' = ObjectManager.next_object_id om /\
  map v' = None /\
  render om' v' = ([], CheckFailed, v').
Proof.
  unfold destroy_challenge. cbn zeta.
  assert (forall id,
            ObjectManager.objects
              (remove_all (remove_all om (sprite_ids c)) (map_object_ids c)) !! id =
            if bool_decide (id ∈ sprite_ids c ++ map_object_ids c) then None
            else ObjectManager.objects om !! id) as Hlookup.
  { intros id. rewrite !remove_all_lookup.
    destruct (decide (id ∈ map_object_ids c)) as [H2 | H2].
    - rewrite !bool_decide_eq_true_2; [reflexivity | apply elem_of_app; auto | exact H2].
    - rewrite (bool_decide_eq_false_2 _ H2).
      destruct (decide (id ∈ sprite_ids c)) as [H1 | H1].
      + rewrite !bool_decide_eq_true_2; [reflexivity | apply elem_of_app; auto | exact H1].
      + rewrite !bool_decide_eq_false_2; [reflexivity | | exact H1].
        rewrite elem_of_app. tauto. }
  split; [| split; [| split; [| split]]].
  - intros id Hin. rewrite Hlookup, bool_decide_eq_true_2 by exact Hin. reflexivity.
  - intros id Hnin. rewrite Hlookup, bool_decide_eq_false_2 by exact Hnin. reflexivity.
  - rewrite !remove_all_next. reflexivity.
  - reflexivity.
  - reflexivity.
Qed.

End Frame.
(** ** The focus: where the display origin ends up *)

Section Focus.
Import Float32 MapViewer.

(** With the focus on a sprite that is stored and whose position is a
    number, and a bound map whose width and height are those of an [int]
    that is not negative, [refocus_map] leaves both coordinates of the
    display origin in the range the map and the display size allow; it
    changes nothing else of the viewer and updates the status text. *)
Theorem refocus_map_clamps_display om v m sprite :
  map v = Some m ->
  map_focus_object v <> 0 ->
  ObjectManager.get_object KSprite om (map_focus_object v) = Some sprite ->
  is_nan (fst (get_position sprite)) = false ->
  is_nan (snd (get_position sprite)) = false ->
  0 <= get_width m <= INT_MAX ->
  0 <= get_height m <= INT_MAX ->
  valid (display_width v) = true -> finite_nonneg (display_width v) = true ->
  valid (display_height v) = true -> finite_nonneg (display_height v) = true ->
  exists v',
    refocus_map om v = ([text_updater], Normal tt, v') /\
    origin_in_range (of_int (get_width m)) (display_width v) (display_x v') /\
    origin_in_range (of_int (get_height m)) (display_height v) (display_y v') /\
    map v' = map v /\
    display_width v' = display_width v /\
    display_height v' = display_height v /\
    map_focus_object v' = map_focus_object v.
Proof.
  intros Hmap Hfocus Hsprite Hx Hy Hw Hh Vw Fw Vh Fh.
  rewrite refocus_map_cases.
  destruct (Z.eqb_spec (map_focus_object v) 0) as [E | _]; [contradiction |].
  rewrite Hsprite, Hmap. eexists. split; [reflexivity |].
  cbn [set_display_x set_display_y display_x display_y map display_width display_height
       map_focus_object].
  split; [| split; [| auto]].
  - rewrite centre_point_in_range_crop.
    apply crop_in_range;
      [| apply of_int_valid | exact Vw | apply of_int_finite_nonneg, Hw | exact Fw].
    apply sub_finite_not_nan; [| apply half_bound_finite; assumption].
    apply add_not_nan; [exact Hx | reflexivity].
  - rewrite centre_point_in_range_crop.
    apply crop_in_range;
      [| apply of_int_valid | exact Vh | apply of_int_finite_nonneg, Hh | exact Fh].
    apply sub_finite_not_nan; [| apply half_bound_finite; assumption].
    apply add_not_nan; [exact Hy | reflexivity].
Qed.

Lemma refocus_map_clamps_display_witness :
  exists v',
    refocus_map ghost_then_john village_viewer = ([text_updater], Normal tt, v') /\
    origin_in_range (of_int 20) (of_int 20) (display_x v') /\
    origin_in_range (of_int 20) (of_int 15) (display_y v') /\
    map v' = Some village /\
    display_width v' = of_int 20 /\
    display_height v' = of_int 15 /\
    map_focus_object v' = 2.
Proof.
  apply (refocus_map_clamps_display ghost_then_john village_viewer village
           (set_id ObjectManager.john 2)).
  - reflexivity.
  - discriminate.
  - vm_compute. reflexivity.
  - reflexivity.
  - reflexivity.
  - vm_compute. split; discriminate.
  - vm_compute. split; discriminate.
  - reflexivity.
  - reflexivity.
  - reflexivity.
  - reflexivity.
Defined.

End Focus.

(** ** A pass in which nothing is missing *)

Section HealthyPass.
Import MapViewer.

Lemma render_pass_renderable kind line ids om v :
  Forall (renderable kind om) ids ->
  render_pass kind line ids om v = (flat_map (entity_drawn kind om) ids, Normal tt, v).
Proof.
  induction 1 as [| id ids Hid _ IH]; [reflexivity |].
  rewrite render_pass_cons, render_entity_cases. cbn [flat_map].
  unfold entity_drawn at 1.
  destruct Hid as [-> | (entity & program & Hget & Hshader)].
  - cbn. rewrite IH. reflexivity.
  - destruct (id =? 0); [rewrite IH; reflexivity |].
    rewrite Hget, Hshader, IH. reflexivity.
Qed.

(** When every entry of the map's sprite list and of its map-object list is
    empty or resolves to an entity of the right class with a shader, the
    two passes complete, skip the empty entries, and draw every other
    entry once per occurrence, in the order of the list, leaving the viewer
    as it was. *)
Theorem render_passes_draw_every_entry om v m :
  map v = Some m ->
  Forall (renderable KMapObject om) (get_map_objects m) ->
  Forall (renderable KSprite om) (get_sprites m) ->
  render_objects om v =
    (flat_map (entity_drawn KMapObject om) (get_map_objects m), Normal tt, v) /\
  render_sprites om v =
    (flat_map (entity_drawn KSprite om) (get_sprites m), Normal tt, v).
Proof.
  intros Hmap Hobjects Hsprites.
  rewrite (render_objects_eq om v m Hmap), (render_sprites_eq om v m Hmap).
  split; apply render_pass_renderable; assumption.
Qed.

Lemma render_passes_draw_every_entry_witness :
  render_objects ghost_then_john village_viewer = ([], Normal tt, village_viewer) /\
  render_sprites ghost_then_john village_viewer =
    (drawn 2 1 6, Normal tt, village_viewer).
Proof.
  apply (render_passes_draw_every_entry ghost_then_john village_viewer village).
  - reflexivity.
  - constructor.
  - constructor; [| constructor]. right.
    exists (set_id ObjectManager.john 2), 1. split; vm_compute; reflexivity.
Defined.

End HealthyPass.

(** ** The focus with no map bound *)

Section FocusWithoutMap.
Import MapViewer.

(** [refocus_map] reads the size of the map without asking whether a map
    is bound: with no map (as after the end of a challenge) and a focus
    id under which a sprite is stored, [set_map_focus_object] stores the id
    and then dereferences the null map pointer, and so does every later
    [refocus_map]. [resize] asks [get_map()] first; this path does not. *)
Theorem focus_on_sprite_without_map om v id sprite :
  ObjectManager.is_valid_object_id om id = true ->
  ObjectManager.get_object KSprite om id = Some sprite ->
  map v = None ->
  set_map_focus_object id om v = ([], NullDereference, set_map_focus v id) /\
  refocus_map om (set_map_focus v id) = ([], NullDereference, set_map_focus v id).
Proof.
  intros Hvalid Hget Hmap.
  assert (refocus_map om (set_map_focus v id) = ([], NullDereference, set_map_focus v id))
    as Hrefocus.
  { rewrite refocus_map_cases. cbn [map_focus_object set_map_focus map].
    apply is_valid_object_id_spec in Hvalid.
    destruct (Z.eqb_spec id 0); [lia |]. rewrite Hget, Hmap. reflexivity. }
  split; [| exact Hrefocus].
  unfold set_map_focus_object, mbind, M_bind, registry, get, put. rewrite Hvalid. cbn.
  rewrite call_run, Hrefocus. reflexivity.
Qed.

Lemma focus_on_sprite_without_map_witness :
  set_map_focus_object 2 ghost_then_john
    (viewer_after (set_map None) ghost_then_john village_viewer)
  = ([], NullDereference,
     set_map_focus (viewer_after (set_map None) ghost_then_john village_viewer) 2).
Proof.
  apply (focus_on_sprite_without_map ghost_then_john
           (viewer_after (set_map None) ghost_then_john village_viewer) 2
           (set_id ObjectManager.john 2)).
  - reflexivity.
  - vm_compute. reflexivity.
  - reflexivity.
Defined.

End FocusWithoutMap.
(** ** Window construction and the surface life cycle *)

Section WindowLogic.

Import GameWindow.

Context (cfg : Config) (env : Env).

(** Under the build [cfg] and the answers [env], a statement run from a
    state satisfying [P] ends normally in a state satisfying [Q], or throws
    in a state satisfying [E]. *)
Definition triple {A} (P : State -> Prop) (m : W A)
    (Q : A -> State -> Prop) (E : string -> State -> Prop) : Prop :=
  forall st, P st ->
    match m cfg env st with
    | (Ok a, st') => Q a st'
    | (InitException what, st') => E what st'
    end.

Lemma triple_ret {A} (a : A) (P : State -> Prop) Q E :
  (forall st, P st -> Q a st) -> triple P (mret a) Q E.
Proof. intros H st HP. cbn. auto. Qed.

Lemma triple_bind {A B} (m : W A) (f : A -> W B) P R Q E :
  triple P m R E -> (forall a, triple (R a) (f a) Q E) ->
  triple P (m ≫= f) Q E.
Proof.
  intros Hm Hf st HP. specialize (Hm st HP).
  unfold mbind, W_bind. destruct (m cfg env st) as [[a | what] st1]; [| exact Hm].
  apply Hf. exact Hm.
Qed.

Lemma triple_seq {A B} (m : W A) (f : A -> W B) (I : State -> Prop) Q E :
  triple I m (fun _ => I) E -> (forall a, triple I (f a) Q E) ->
  triple I (m ≫= f) Q E.
Proof. intros Hm Hf. eapply triple_bind; [exact Hm | exact Hf]. Qed.

Lemma triple_throw {A} what (P : State -> Prop) (Q : A -> State -> Prop) E :
  (forall st, P st -> E what st) -> triple P (throw what) Q E.
Proof. intros H st HP. cbn. auto. Qed.

Lemma triple_config P (Q : Config -> State -> Prop) E :
  (forall st, P st -> Q cfg st) -> triple P config Q E.
Proof. intros H st HP. cbn. auto. Qed.

Lemma triple_environment P (Q : Env -> State -> Prop) E :
  (forall st, P st -> Q env st) -> triple P environment Q E.
Proof. intros H st HP. cbn. auto. Qed.

Lemma triple_get_this P (Q : t -> State -> Prop) E :
  (forall st, P st -> Q (this st) st) -> triple P get_this Q E.
Proof. intros H st HP. cbn. auto. Qed.

Lemma triple_get_sys P (Q : Sys -> State -> Prop) E :
  (forall st, P st -> Q (sys st) st) -> triple P get_sys Q E.
Proof. intros H st HP. cbn. auto. Qed.

Lemma triple_modify_this f (P : State -> Prop) (Q : unit -> State -> Prop) E :
  (forall st, P st -> Q tt (mkState (f (this st)) (sys st))) ->
  triple P (modify_this f) Q E.
Proof. intros H st HP. cbn. auto. Qed.

Lemma triple_modify_sys f (P : State -> Prop) (Q : unit -> State -> Prop) E :
  (forall st, P st -> Q tt (mkState (this st) (f (sys st)))) ->
  triple P (modify_sys f) Q E.
Proof. intros H st HP. cbn. auto. Qed.

Lemma triple_when (b : bool) body P (Q : unit -> State -> Prop) E :
  (b = true -> triple P body Q E) -> (b = false -> forall st, P st -> Q tt st) ->
  triple P (when b body) Q E.
Proof.
  intros Ht Hf. destruct b; cbn.
  - auto.
  - apply triple_ret. auto.
Qed.

Lemma triple_try_catch {A} (body : W A) handler P Q E R :
  triple P body Q R -> (forall what, triple (R what) (handler what) Q E) ->
  triple P (try_catch body handler) Q E.
Proof.
  intros Hb Hh st HP. specialize (Hb st HP).
  unfold try_catch. destruct (body cfg env st) as [[a | what] st1]; [exact Hb |].
  apply Hh. exact Hb.
Qed.

Lemma triple_config_bind {B} (f : Config -> W B) P Q E :
  triple P (f cfg) Q E -> triple P (config ≫= f) Q E.
Proof. intros H st HP. exact (H st HP). Qed.

Lemma triple_environment_bind {B} (f : Env -> W B) P Q E :
  triple P (f env) Q E -> triple P (environment ≫= f) Q E.
Proof. intros H st HP. exact (H st HP). Qed.

Lemma triple_weaken {A} (m : W A) (P P' : State -> Prop) (Q Q' : A -> State -> Prop)
    (E E' : string -> State -> Prop) :
  triple P' m Q' E' ->
  (forall st, P st -> P' st) -> (forall a st, Q' a st -> Q a st) ->
  (forall what st, E' what st -> E what st) ->
  triple P m Q E.
Proof.
  intros H HP HQ HE st Hst. specialize (H st (HP st Hst)).
  destruct (m cfg env st) as [[a | what] st1]; auto.
Qed.

(** A statement that keeps an invariant of the state on both exits. *)
Definition keeps {A} (I : State -> Prop) (m : W A) : Prop :=
  triple I m (fun _ => I) (fun _ => I).

End WindowLogic.

Ltac triple_side := intros; cbn in *; auto.

Ltac triple_step :=
  lazymatch goal with
  | |- keeps _ _ _ _ => unfold keeps
  | |- triple _ _ _ (GameWindow.config ≫= _) _ _ => apply triple_config_bind
  | |- triple _ _ _ (GameWindow.environment ≫= _) _ _ => apply triple_environment_bind
  | |- triple _ _ _ (_ ≫= _) _ _ => apply triple_seq; [| intros ?]
  | |- triple _ _ _ (mret _) _ _ => apply triple_ret; triple_side
  | |- triple _ _ _ (GameWindow.throw _) _ _ => apply triple_throw; triple_side
  | |- triple _ _ _ GameWindow.config _ _ => apply triple_config; triple_side
  | |- triple _ _ _ GameWindow.environment _ _ => apply triple_environment; triple_side
  | |- triple _ _ _ GameWindow.get_this _ _ => apply triple_get_this; triple_side
  | |- triple _ _ _ GameWindow.get_sys _ _ => apply triple_get_sys; triple_side
  | |- triple _ _ _ GameWindow.windows_size _ _ => unfold GameWindow.windows_size
  | |- triple _ _ _ (GameWindow.record _) _ _ => apply triple_modify_sys; triple_side
  | |- triple _ _ _ (GameWindow.modify_sys _) _ _ => apply triple_modify_sys; triple_side
  | |- triple _ _ _ (GameWindow.modify_this _) _ _ => apply triple_modify_this; triple_side
  | |- triple _ _ _ (GameWindow.when _ _) _ _ => apply triple_when; [intros ? | triple_side]
  | |- triple _ _ _ (if ?b then _ else _) _ _ => destruct b eqn:?
  | |- triple _ _ _ (match ?o with Some _ => _ | None => _ end) _ _ => destruct o eqn:?
  | |- triple _ _ _ (let '(_, _) := ?p in _) _ _ => destruct p eqn:?
  end.

Section Surface.

Import GameWindow.

Context (cfg : Config) (env : Env).

Definition geometry_is (g : Z * Z * Z * Z) (st : State) : Prop :=
  geometry (this st) = g.

Lemma deinit_surface_keeps_geometry g : keeps cfg env (geometry_is g) deinit_surface.
Proof. unfold deinit_surface, geometry_is. repeat triple_step. Qed.

Lemma init_surface_at_triple g x y w h :
  triple cfg env (geometry_is g) (init_surface_at x y w h)
         (fun _ => geometry_is (x, y, w, h)) (fun _ => geometry_is g).
Proof.
  unfold init_surface_at.
  do 3 triple_step.
  { apply deinit_surface_keeps_geometry. }
  unfold geometry_is. repeat triple_step.
Qed.

(** C10: [init_surface(x, y, w, h)] writes the four geometry fields only
    when it completes, and then they are exactly [(x, y, w, h)]; when it
    throws, at whichever step, the geometry and so [get_size()] are what they
    were before the call. *)
Theorem init_surface_keeps_geometry_on_failure x y w h st :
  match init_surface_at x y w h cfg env st with
  | (Ok _, st') => geometry (this st') = (x, y, w, h)
  | (InitException _, st') =>
      geometry (this st') = geometry (this st) /\
      get_size (this st') = get_size (this st)
  end.
Proof.
  pose proof (init_surface_at_triple (geometry (this st)) x y w h st eq_refl) as H.
  destruct (init_surface_at x y w h cfg env st) as [[[] | what] st']; [exact H |].
  split; [exact H |].
  unfold geometry_is, geometry, get_size in *. congruence.
Qed.

(** *** Construction *)

(** Nothing run by [init_gl] touches the flag, the SDL windows or the
    index. *)
Lemma init_surface_at_keeps_sys (K : bool * gset Z * gmap Z t -> Prop) x y w h :
  keeps cfg env (fun st => K (observable (sys st))) (init_surface_at x y w h).
Proof. unfold init_surface_at, deinit_surface. repeat triple_step. Qed.

Lemma init_gl_keeps_sys (K : bool * gset Z * gmap Z t -> Prop) :
  keeps cfg env (fun st => K (observable (sys st))) init_gl.
Proof.
  unfold init_gl, init_surface. repeat triple_step.
  all: try apply (init_surface_at_keeps_sys K).
Qed.

Lemma init_sdl_spec (K : bool * gset Z * gmap Z t -> Prop) ws ix :
  triple cfg env
         (fun st => sdl_windows (sys st) = ws /\ windows (sys st) = ix /\ K (observable (sys st)))
         init_sdl
         (fun _ st => observable (sys st) = (true, ws, ix))
         (fun _ st => K (observable (sys st))).
Proof.
  unfold init_sdl.
  do 2 triple_step.
  apply triple_seq.
  { apply triple_when; [intros _; apply triple_modify_sys |]; triple_side. }
  intros _.
  apply triple_seq; [apply triple_modify_sys; triple_side | intros _].
  apply triple_seq; [apply triple_modify_sys; triple_side | intros _].
  destruct (negb (SDL_Init env =? 0)).
  - apply triple_throw. intros st (_ & _ & H). exact H.
  - eapply triple_bind.
    + apply (triple_modify_sys _ _ _ _ (fun _ st => observable (sys st) = (true, ws, ix))).
      intros st (H1 & H2 & _). cbn. unfold observable. cbn. congruence.
    + intros ?. apply triple_modify_sys. intros st H. exact H.
Qed.

Lemma deinit_sdl_spec_index ix (E : string -> State -> Prop) :
  triple cfg env (fun st => windows (sys st) = ix) deinit_sdl
         (fun _ st => observable (sys st) = (false, ∅, ix)) E.
Proof.
  unfold deinit_sdl.
  apply triple_seq; [apply triple_modify_sys; triple_side | intros ?].
  apply triple_seq; [apply triple_modify_sys; triple_side | intros ?].
  eapply triple_bind.
  { apply (triple_modify_sys _ _ _ _ (fun _ st => windows (sys st) = ix /\ sdl_initialised (sys st) = false)).
    intros st H. cbn. auto. }
  intros ?. eapply triple_bind.
  { apply (triple_modify_sys _ _ _ _ (fun _ st => observable (sys st) = (false, ∅, ix))).
    intros st [H1 H2]. unfold observable. cbn in *. congruence. }
  intros ?. apply triple_modify_sys. intros st H. exact H.
Qed.


(** The process-wide part of the state while the constructor runs, relative
    to the state [s0] it started from: the index is untouched, the SDL
    windows are those of [s0] and [extra], and the flag is that of [s0] unless
    this is the first window. *)
Definition during (s0 : Sys) (extra : gset Z) (o : bool * gset Z * gmap Z t) : Prop :=
  o.2 = windows s0 /\ o.1.2 = extra ∪ sdl_windows s0 /\
  (windows s0 <> ∅ -> o.1.1 = sdl_initialised s0).

Lemma observable_inv s b ws ix :
  observable s = (b, ws, ix) ->
  sdl_initialised s = b /\ sdl_windows s = ws /\ windows s = ix.
Proof. unfold observable. intros [= -> -> ->]. auto. Qed.

Lemma consistent_empty s0 :
  consistent s0 -> windows s0 = ∅ -> observable s0 = (false, ∅, ∅).
Proof.
  intros [Hflag Hdom] Hix. unfold observable.
  rewrite Hflag, Hdom, Hix, dom_empty_L, bool_decide_eq_true_2 by reflexivity.
  reflexivity.
Qed.

Lemma deinit_sdl_spec ix (P : State -> Prop) (E : string -> State -> Prop) :
  (forall st, P st -> windows (sys st) = ix) ->
  triple cfg env P deinit_sdl (fun _ st => observable (sys st) = (false, ∅, ix)) E.
Proof. intros H st HP. apply deinit_sdl_spec_index. auto. Qed.

Lemma triple_windows_size_bind {B} (f : nat -> W B) ix (P : State -> Prop) Q E :
  (forall st, P st -> windows (sys st) = ix) ->
  triple cfg env P (f (size ix)) Q E ->
  triple cfg env P (windows_size ≫= f) Q E.
Proof.
  intros Hix H st HP. specialize (H st HP).
  unfold windows_size, mbind, W_bind, get_sys, mret, W_ret. rewrite (Hix st HP).
  exact H.
Qed.

Lemma size_windows_eqb (ix : gmap Z t) :
  (size ix =? 0)%nat = bool_decide (ix = ∅).
Proof.
  destruct (decide (ix = ∅)) as [-> | Hne].
  - rewrite map_size_empty. reflexivity.
  - rewrite bool_decide_eq_false_2 by exact Hne.
    apply Nat.eqb_neq. intros H. apply Hne, map_size_empty_iff, H.
Qed.

Lemma constructor_body_failure width height fullscreen s0 :
  consistent s0 ->
  (forall id, SDL_CreateWindow env = Some id -> id ∉ sdl_windows s0) ->
  triple cfg env
    (fun st => sys st = s0)
    (constructor_body width height fullscreen)
    (fun _ st => True)
    (fun _ st =>
       windows (sys st) = windows s0 /\
       (windows s0 = ∅ \/ SDL_CreateWindow env <> None ->
        observable (sys st) = observable s0)).
Proof.
  intros Hcons Hfresh. unfold constructor_body.
  do 2 triple_step.
  eapply triple_bind with (R := fun _ st => observable (sys st) = observable s0).
  { apply triple_modify_this. intros st ->. reflexivity. }
  intros _. apply triple_seq; [apply triple_modify_sys; triple_side | intros _].
  apply (triple_windows_size_bind _ (windows s0)).
  { intros st H. unfold observable in H. congruence. }
  rewrite size_windows_eqb.
  eapply triple_bind with (R := fun _ st => during s0 ∅ (observable (sys st))).
  { apply triple_when.
    - intros Hix. apply bool_decide_eq_true_1 in Hix.
      eapply triple_weaken.
      + apply (init_sdl_spec (fun o => o = observable s0) (sdl_windows s0) (windows s0)).
      + intros st H. unfold observable in *. repeat split; congruence.
      + intros ? st H. rewrite H. unfold during. cbn.
        split; [reflexivity | split; [symmetry; apply union_empty_l_L | intros Hne; contradiction]].
      + intros what st H. cbn in H. split; [| auto].
        unfold observable in H. congruence.
    - intros _ st H. rewrite H. unfold during, observable. cbn.
      split; [reflexivity | split; [symmetry; apply union_empty_l_L | reflexivity]]. }
  intros _.
  apply triple_seq; [apply triple_modify_sys; triple_side | intros _].
  destruct (SDL_CreateWindow env) as [id |] eqn:Hcw.
  - (* the window exists *)
    specialize (Hfresh id eq_refl).
    eapply triple_bind with (R := fun _ st => during s0 {[id]} (observable (sys st))).
    { apply triple_modify_sys. intros st (H1 & H2 & H3). unfold during in *. cbn in *.
      split; [exact H1 | split; [rewrite H2, union_empty_l_L; reflexivity | exact H3]]. }
    intros _.
    apply triple_seq; [apply triple_modify_this; triple_side | intros _].
    apply triple_seq.
    { apply triple_when; [intros _; apply triple_modify_sys |]; triple_side. }
    intros _.
    eapply triple_bind with (R := fun _ _ => True).
    2:{ intros _. eapply triple_bind with (R := fun _ _ => True).
        - apply triple_get_this. auto.
        - intros w. apply triple_modify_sys. auto. }
    eapply triple_try_catch with
      (R := fun _ st => during s0 {[id]} (observable (sys st))).
    { eapply triple_weaken; [apply (init_gl_keeps_sys (during s0 {[id]})) | auto ..]. }
    intros what.
    apply triple_seq.
    { apply triple_when; [intros _; apply triple_modify_sys |]; triple_side. }
    intros _.
    apply triple_seq; [apply triple_modify_sys; triple_side | intros _].
    eapply triple_bind with (R := fun _ st => during s0 ∅ (observable (sys st))).
    { apply triple_modify_sys. intros st (H1 & H2 & H3). unfold during in *. cbn in *.
      split; [exact H1 | split; [| exact H3]].
      rewrite H2, union_empty_l_L, difference_union_distr_l_L, difference_diag_L,
        union_empty_l_L.
      apply difference_disjoint_L, disjoint_singleton_r, Hfresh. }
    intros _.
    apply (triple_windows_size_bind _ (windows s0)).
    { intros st (H & _). exact H. }
    rewrite size_windows_eqb.
    destruct (decide (windows s0 = ∅)) as [Hix | Hix].
    + rewrite bool_decide_eq_true_2 by exact Hix. cbn [when].
      eapply triple_bind.
      { apply (deinit_sdl_spec (windows s0)). intros st (H & _). exact H. }
      intros ?. apply triple_throw. intros st H.
      rewrite H, (consistent_empty s0 Hcons Hix), Hix.
      apply observable_inv in H. destruct H as (_ & _ & H). split; [congruence | auto].
    + rewrite bool_decide_eq_false_2 by exact Hix. cbn [when].
      apply triple_seq; [apply triple_ret; auto |].
      intros ?. apply triple_throw. intros st (H1 & H2 & H3).
      split; [exact H1 |]. intros _.
      specialize (H3 Hix). unfold observable in *. cbn in *.
      rewrite H1, H3, H2, union_empty_l_L. reflexivity.
  - (* [SDL_CreateWindow] returned [nullptr] *)
    apply triple_seq; [apply triple_modify_sys; triple_side | intros _].
    eapply triple_bind.
    { apply (deinit_sdl_spec (windows s0)). intros st (H & _). exact H. }
    intros ?. apply triple_throw. intros st H.
    rewrite H. apply observable_inv in H. destruct H as (_ & _ & H).
    split; [exact H |].
    intros [Hix | Hne]; [| congruence].
    rewrite (consistent_empty s0 Hcons Hix), Hix. reflexivity.
Qed.

Lemma construct_failure width height fullscreen s0 what s' :
  consistent s0 ->
  (forall id, SDL_CreateWindow env = Some id -> id ∉ sdl_windows s0) ->
  construct cfg env width height fullscreen s0 = (InitException what, s') ->
  windows s' = windows s0 /\
  (windows s0 = ∅ \/ SDL_CreateWindow env <> None -> observable s' = observable s0).
Proof.
  intros Hcons Hfresh. unfold construct.
  pose proof (constructor_body_failure width height fullscreen s0 Hcons Hfresh
                (mkState (fresh cfg width height) s0) eq_refl) as H.
  destruct (constructor_body width height fullscreen cfg env _) as [[[] | e] st].
  - discriminate.
  - intros [= <- <-]. exact H.
Qed.

End Surface.

Section WindowExamples.

Import GameWindow.

(** A surface initialisation that fails after earlier fields have been
    written: the live surface is torn down, the new window surface is
    refused, and the size reported stays that of the last successful
    initialisation while [visible] and [change_surface] have changed. *)
Example reinit_failure_keeps_size :
  exists w0 st',
    windows one_window !! 1 = Some w0 /\
    init_surface_at 30 40 800 600 pi no_surface (mkState w0 one_window)
      = (InitException "Error creating window surface: ", st') /\
    get_size w0 = (640, 480) /\
    get_size (this st') = (640, 480) /\
    visible (this st') = false /\
    change_surface (this st') = DO_INIT.
Proof.
  eexists. eexists.
  split; [vm_compute; reflexivity |].
  split; [vm_compute; reflexivity |].
  split; [reflexivity |].
  split; [reflexivity |].
  split; reflexivity.
Qed.

Lemma one_window_observable :
  sdl_initialised one_window = true /\ sdl_windows one_window = {[1]} /\
  exists w, windows one_window = {[1 := w]}.
Proof.
  split; [reflexivity |]. split.
  - vm_compute. reflexivity.
  - eexists. vm_compute. reflexivity.
Qed.

Lemma one_window_consistent : consistent one_window.
Proof.
  destruct one_window_observable as (Hflag & Hws & w & Hix).
  split.
  - rewrite Hflag, Hix. symmetry. apply negb_true_iff, bool_decide_eq_false_2.
    apply insert_non_empty.
  - rewrite Hws, Hix. symmetry. apply dom_singleton_L.
Qed.

(** C7, where the code departs from the claim: with one window registered
    and SDL up, a second construction in which [SDL_CreateWindow] returns
    [nullptr] throws [InitException] and leaves the index as it was, but it
    has called [deinit_sdl] without asking whether other windows exist: SDL
    is shut down under the registered window, so the failure is visible to
    the caller and construction is not atomic. The other failure path asks
    [windows.size() == 0] first. *)
Theorem construct_failure_quits_sdl_under_registered_window :
  consistent one_window /\
  sdl_initialised one_window = true /\
  is_Some (windows one_window !! 1) /\
  (exists s',
     construct pi no_window 640 480 false one_window
       = (InitException "Failed to create SDL window", s') /\
     windows s' = windows one_window /\
     sdl_initialised s' = false /\
     sdl_windows s' = ∅) /\
  ~ construction_atomic pi no_window 640 480 false one_window.
Proof.
  split; [exact one_window_consistent |].
  split; [reflexivity |].
  split; [eexists; vm_compute; reflexivity |].
  split.
  - eexists. split; [vm_compute; reflexivity |].
    split; [reflexivity |]. split; reflexivity.
  - intros H.
    set (p := construct pi no_window 640 480 false one_window).
    assert (fst p = InitException "Failed to create SDL window") as Hr
      by (vm_compute; reflexivity).
    assert (sdl_initialised (snd p) = false) as Hdown by (vm_compute; reflexivity).
    specialize (H "Failed to create SDL window"%string (snd p)).
    rewrite <- Hr in H. specialize (H (surjective_pairing p)).
    assert (sdl_initialised (snd p) = sdl_initialised one_window) as Hsame
      by (unfold observable in H; congruence).
    assert (sdl_initialised one_window = true) as Hup by (vm_compute; reflexivity).
    congruence.
Qed.

End WindowExamples.
(** ** The window life cycle beyond construction failures *)

Section WindowOutcomes.
Import GameWindow.

Lemma init_surface_at_cases x y w h cfg env st :
  match init_surface_at x y w h cfg env st with
  | (Ok _, st') =>
      surface_can_be_built cfg env (this st) = true /\
      observable (sys st') = observable (sys st) /\
      visible (this st') = true /\
      change_surface (this st') = DO_NOTHING /\
      foreground (this st') = foreground (this st) /\
      was_foreground (this st') = foreground (this st) /\
      geometry (this st') = (x, y, w, h) /\
      window (this st') = window (this st) /\
      close_requested (this st') = close_requested (this st) /\
      resizing (this st') = resizing (this st)
  | (InitException _, st') =>
      surface_can_be_built cfg env (this st) = false /\
      observable (sys st') = observable (sys st) /\
      visible (this st') = visible (this st) && negb (eglDestroySurface env) /\
      (change_surface (this st) = DO_INIT -> change_surface (this st') = DO_INIT) /\
      foreground (this st') = foreground (this st) /\
      geometry (this st') = geometry (this st) /\
      window (this st') = window (this st) /\
      close_requested (this st') = close_requested (this st) /\
      resizing (this st') = resizing (this st)
  end.
Proof.
  destruct cfg as [gles ddr ol ot].
  destruct env as [i cw gd ei cc ctx xt gs cws cps rgb mc ds].
  destruct st as [[vis fg wfg rs wx wy ww wh cr chs win sf bg] s].
  destruct gles; [| vm_compute; repeat split; reflexivity].
  destruct vis; [destruct wfg; [| destruct bg]; (destruct ds; [| vm_compute; auto 10]) |];
    (destruct fg; [destruct cws | destruct cps]); try destruct mc;
    vm_compute; repeat split; auto; discriminate.
Qed.

Lemma init_surface_eq cfg env st :
  init_surface cfg env st =
  init_surface_at (if USE_GLES cfg then fst (XTranslateCoordinates env) else 0)
                  (if USE_GLES cfg then snd (XTranslateCoordinates env) else 0)
                  (fst (SDL_GetWindowSize env)) (snd (SDL_GetWindowSize env))
                  cfg env st.
Proof.
  unfold init_surface, mbind, W_bind, config, environment.
  destruct (USE_GLES cfg), (XTranslateCoordinates env), (SDL_GetWindowSize env);
    reflexivity.
Qed.

Lemma init_surface_cases cfg env st :
  match init_surface cfg env st with
  | (Ok _, st') =>
      surface_can_be_built cfg env (this st) = true /\
      change_surface (this st') = DO_NOTHING /\
      geometry (this st') = queried_geometry cfg env
  | (InitException _, st') =>
      surface_can_be_built cfg env (this st) = false /\
      (change_surface (this st) = DO_INIT -> change_surface (this st') = DO_INIT) /\
      geometry (this st') = geometry (this st)
  end /\
  observable (sys (snd (init_surface cfg env st))) = observable (sys st) /\
  foreground (this (snd (init_surface cfg env st))) = foreground (this st) /\
  close_requested (this (snd (init_surface cfg env st))) = close_requested (this st).
Proof.
  rewrite init_surface_eq.
  pose proof (init_surface_at_cases
                (if USE_GLES cfg then fst (XTranslateCoordinates env) else 0)
                (if USE_GLES cfg then snd (XTranslateCoordinates env) else 0)
                (fst (SDL_GetWindowSize env)) (snd (SDL_GetWindowSize env))
                cfg env st) as H.
  destruct (init_surface_at _ _ _ _ cfg env st) as [[[] | what] st']; cbn [snd].
  - destruct H as (Hb & Ho & _ & Hcs & Hf & _ & Hg & _ & Hc & _). tauto.
  - destruct H as (Hb & Ho & _ & Hcs & Hf & Hg & _ & Hc & _). tauto.
Qed.

(** [init_surface()] completes exactly when the surface can be built. The
    window is then shown, no rebuild is pending, and the stored position
    and size are the queried ones. When it throws, the window keeps its
    stored position and size, a pending request stays pending, and the
    window is no longer shown unless its old surface could not be
    destroyed. Either way [foreground], the close request, the index and
    SDL are untouched. *)
Theorem init_surface_outcome cfg env st :
  match init_surface cfg env st with
  | (Ok _, st') =>
      surface_can_be_built cfg env (this st) = true /\
      observable (sys st') = observable (sys st) /\
      visible (this st') = true /\
      change_surface (this st') = DO_NOTHING /\
      foreground (this st') = foreground (this st) /\
      was_foreground (this st') = foreground (this st) /\
      geometry (this st') = queried_geometry cfg env /\
      window (this st') = window (this st) /\
      close_requested (this st') = close_requested (this st) /\
      resizing (this st') = resizing (this st)
  | (InitException _, st') =>
      surface_can_be_built cfg env (this st) = false /\
      observable (sys st') = observable (sys st) /\
      visible (this st') = visible (this st) && negb (eglDestroySurface env) /\
      (change_surface (this st) = DO_INIT -> change_surface (this st') = DO_INIT) /\
      foreground (this st') = foreground (this st) /\
      geometry (this st') = geometry (this st) /\
      window (this st') = window (this st) /\
      close_requested (this st') = close_requested (this st) /\
      resizing (this st') = resizing (this st)
  end.
Proof.
  rewrite init_surface_eq.
  exact (init_surface_at_cases
           (if USE_GLES cfg then fst (XTranslateCoordinates env) else 0)
           (if USE_GLES cfg then snd (XTranslateCoordinates env) else 0)
           (fst (SDL_GetWindowSize env)) (snd (SDL_GetWindowSize env))
           cfg env st).
Qed.

Lemma init_gl_cases cfg env st :
  visible (this st) = false ->
  match init_gl cfg env st with
  | (Ok _, st') =>
      gl_can_be_initialised cfg env (this st) = true /\
      observable (sys st') = observable (sys st) /\
      window (this st') = window (this st) /\
      close_requested (this st') = close_requested (this st) /\
      foreground (this st') = foreground (this st) /\
      visible (this st') = USE_GLES cfg /\
      geometry (this st') =
        (if USE_GLES cfg then queried_geometry cfg env else geometry (this st))
  | (InitException _, st') =>
      gl_can_be_initialised cfg env (this st) = false /\
      observable (sys st') = observable (sys st)
  end.
Proof.
  destruct cfg as [gles ddr ol ot].
  destruct env as [i cw gd ei cc ctx [x y] [w h] cws cps rgb mc ds].
  destruct st as [[vis fg wfg rs wx wy ww wh cr chs win sf bg] s].
  cbn [this visible]. intros ->.
  destruct gles; [| vm_compute; repeat split; reflexivity].
  destruct gd; [| vm_compute; split; reflexivity].
  destruct ei; [| vm_compute; split; reflexivity].
  destruct cc; [| vm_compute; split; reflexivity].
  destruct ctx; [| vm_compute; split; reflexivity].
  destruct fg, cws, cps, mc; vm_compute; repeat split; reflexivity.
Qed.

Lemma init_sdl_cases cfg env st :
  match init_sdl cfg env st with
  | (Ok _, st') =>
      (SDL_Init env =? 0) = true /\ this st' = this st /\
      observable (sys st') = (true, sdl_windows (sys st), windows (sys st))
  | (InitException _, st') =>
      (SDL_Init env =? 0) = false /\ observable (sys st') = observable (sys st)
  end.
Proof.
  destruct cfg as [gles ddr ol ot].
  destruct env as [i cw gd ei cc ctx [x y] [w h] cws cps rgb mc ds].
  destruct st as [w0 [up ws ix tr]].
  unfold init_sdl, mbind, W_bind, config, environment, when, record, modify_sys, throw,
    mret, W_ret. cbn [USE_GLES SDL_Init].
  destruct gles; cbn; destruct (i =? 0); cbn; auto.
Qed.



(** When [init_gl] throws, it has called [eglTerminate] exactly when the
    display was obtained and the failure is that of [eglInitialize],
    [eglChooseConfig] or [eglCreateContext]. A failure of [init_surface],
    the last step, leaves the display initialised. *)
Theorem init_gl_terminates_display cfg env w s :
  match init_gl cfg env (mkState w (untraced s)) with
  | (Ok _, st') => called eglTerminate (sys st') = false
  | (InitException _, st') =>
      USE_GLES cfg = true /\
      called eglTerminate (sys st') =
        eglGetDisplay env &&
        negb (eglInitialize env && eglChooseConfig env && eglCreateContext env)
  end.
Proof.
  destruct cfg as [gles ddr ol ot].
  destruct env as [i cw gd ei cc ctx [x y] [w0 h0] cws cps rgb mc ds].
  destruct w as [vis fg wfg rs wx wy ww wh cr chs win sf bg].
  destruct s as [up ws ix tr].
  destruct gles; [| vm_compute; reflexivity].
  destruct gd; [| vm_compute; split; reflexivity].
  destruct ei; [| vm_compute; split; reflexivity].
  destruct cc; [| vm_compute; split; reflexivity].
  destruct ctx; [| vm_compute; split; reflexivity].
  destruct vis; [destruct wfg; [| destruct bg]; (destruct ds; [| vm_compute; split; reflexivity]) |];
    (destruct fg; [destruct cws | destruct cps]); try destruct mc;
    vm_compute; try split; reflexivity.
Qed.

End WindowOutcomes.

Section Construction.
Import GameWindow.
Context (cfg : Config) (env : Env).

Lemma constructor_body_outcome width height fullscreen s :
  let first := bool_decide (windows s = ∅) in
  triple cfg env
    (fun st => sys st = s)
    (constructor_body width height fullscreen)
    (fun _ st =>
       construction_succeeds cfg env first width height = true /\
       exists id,
         SDL_CreateWindow env = Some id /\
         window (this st) = Some id /\
         windows (sys st) = <[id := this st]> (windows s) /\
         sdl_windows (sys st) = {[id]} ∪ sdl_windows s /\
         sdl_initialised (sys st) = (if first then true else sdl_initialised s) /\
         close_requested (this st) = false /\
         visible (this st) = USE_GLES cfg /\
         geometry (this st) =
           (if USE_GLES cfg then queried_geometry cfg env else (0, 0, width, height)))
    (fun _ st =>
       construction_succeeds cfg env first width height = false /\
       windows (sys st) = windows s).
Proof.
  intros first. unfold constructor_body.
  apply triple_config_bind, triple_environment_bind.
  set (flag := if first then true else sdl_initialised s).
  set (w0 := fresh cfg width height).
  (* the fields are assigned, the input manager is allocated *)
  eapply triple_bind with
    (R := fun _ st => observable (sys st) = observable s /\ this st = w0).
  { apply triple_modify_this. intros st ->. split; reflexivity. }
  intros _. apply triple_seq; [apply triple_modify_sys; triple_side | intros _].
  apply (triple_windows_size_bind _ _ _ (windows s)).
  { intros st [H _]. apply observable_inv in H. tauto. }
  rewrite size_windows_eqb. fold first.
  (* SDL is initialised for a first window *)
  eapply triple_bind with
    (R := fun _ st =>
            observable (sys st) = (flag, sdl_windows s, windows s) /\ this st = w0 /\
            (negb first || (SDL_Init env =? 0)) = true).
  { apply triple_when.
    - intros Hfirst st [Hobs Hthis].
      pose proof (init_sdl_cases cfg env st) as H.
      apply observable_inv in Hobs. destruct Hobs as (H1 & H2 & H3).
      destruct (init_sdl cfg env st) as [[[] | what] st'].
      + destruct H as (Hinit & Hsame & Hobs').
        unfold flag. rewrite Hfirst, Hinit, Hobs', H2, H3, Hsame. auto.
      + destruct H as (Hinit & Hobs'). unfold construction_succeeds.
        rewrite Hfirst, Hinit. cbn. split; [reflexivity |].
        apply observable_inv in Hobs'. destruct Hobs' as (_ & _ & ->). exact H3.
    - intros Hfirst st [Hobs Hthis]. unfold flag. rewrite Hfirst.
      split; [exact Hobs | auto]. }
  intros _.
  apply triple_seq.
  { apply triple_modify_sys. intros st H. exact H. }
  intros _.
  destruct (SDL_CreateWindow env) as [id |] eqn:Hcw.
  - (* the window exists *)
    eapply triple_bind with
      (R := fun _ st =>
              observable (sys st) = (flag, {[id]} ∪ sdl_windows s, windows s) /\
              this st = w0 /\ (negb first || (SDL_Init env =? 0)) = true).
    { apply triple_modify_sys. intros st (Hobs & Hthis & Hsdl).
      apply observable_inv in Hobs. destruct Hobs as (H1 & H2 & H3).
      cbn. unfold observable. cbn. rewrite H1, H2, H3. auto. }
    intros _.
    eapply triple_bind with
      (R := fun _ st =>
              observable (sys st) = (flag, {[id]} ∪ sdl_windows s, windows s) /\
              this st = set_window (Some id) w0 /\
              (negb first || (SDL_Init env =? 0)) = true).
    { apply triple_modify_this. intros st (Hobs & Hthis & Hsdl). cbn.
      rewrite Hthis. auto. }
    intros _.
    apply triple_seq.
    { apply triple_when; [intros _; apply triple_modify_sys |]; triple_side. }
    intros _.
    eapply triple_bind with
      (R := fun _ st =>
              observable (sys st) = (flag, {[id]} ∪ sdl_windows s, windows s) /\
              (negb first || (SDL_Init env =? 0)) = true /\
              gl_can_be_initialised cfg env w0 = true /\
              window (this st) = Some id /\
              close_requested (this st) = false /\
              visible (this st) = USE_GLES cfg /\
              geometry (this st) =
                (if USE_GLES cfg then queried_geometry cfg env else (0, 0, width, height))).
    + eapply triple_try_catch with
        (R := fun _ st =>
                windows (sys st) = windows s /\
                gl_can_be_initialised cfg env w0 = false).
      * intros st (Hobs & Hthis & Hsdl).
        pose proof (init_gl_cases cfg env st) as H. rewrite Hthis in H.
        specialize (H eq_refl).
        destruct (init_gl cfg env st) as [[[] | what] st'].
        -- destruct H as (Hgl & Hobs' & Hwin & Hclose & _ & Hvis & Hgeo).
           rewrite Hobs', Hobs, Hwin, Hclose, Hvis, Hgeo.
           repeat split; auto.
        -- destruct H as (Hgl & Hobs'). split; [| exact Hgl].
           rewrite Hobs in Hobs'. apply observable_inv in Hobs'. tauto.
      * intros what.
        apply triple_seq.
        { apply triple_when; [intros _; apply triple_modify_sys |]; triple_side. }
        intros _.
        apply triple_seq; [apply triple_modify_sys; triple_side | intros _].
        apply triple_seq; [apply triple_modify_sys; triple_side | intros _].
        apply (triple_windows_size_bind _ _ _ (windows s)).
        { intros st [H _]. exact H. }
        eapply triple_bind with
          (R := fun _ st => windows (sys st) = windows s /\
                            gl_can_be_initialised cfg env w0 = false).
        { apply triple_when.
          - intros _ st [Hix Hgl].
            pose proof (deinit_sdl_spec cfg env (windows s) (fun st => windows (sys st) = windows s)
                          (fun _ _ => False) ltac:(auto) st Hix) as H.
            destruct (deinit_sdl cfg env st) as [[[] | e] st']; [| contradiction].
            apply observable_inv in H. split; [tauto | exact Hgl].
          - intros _ st H. exact H. }
        intros ?. apply triple_throw. intros st [Hix Hgl].
        split; [| exact Hix]. unfold construction_succeeds. fold w0. rewrite Hgl.
        apply andb_false_r.
    + intros _.
      eapply triple_bind with
        (R := fun w st =>
                w = this st /\
                observable (sys st) = (flag, {[id]} ∪ sdl_windows s, windows s) /\
                (negb first || (SDL_Init env =? 0)) = true /\
                gl_can_be_initialised cfg env w0 = true /\
                window (this st) = Some id /\
                close_requested (this st) = false /\
                visible (this st) = USE_GLES cfg /\
                geometry (this st) =
                  (if USE_GLES cfg then queried_geometry cfg env else (0, 0, width, height))).
      { apply triple_get_this. intros st H. split; [reflexivity | exact H]. }
      intros w. apply triple_modify_sys.
      intros st (-> & Hobs & Hsdl & Hgl & Hwin & Hclose & Hvis & Hgeo).
      apply observable_inv in Hobs. destruct Hobs as (H1 & H2 & H3).
      cbn [this sys set_windows windows sdl_windows sdl_initialised]. split.
      * unfold construction_succeeds. fold w0. rewrite Hsdl, Hgl.
        rewrite bool_decide_eq_true_2 by eauto. reflexivity.
      * exists id. rewrite H1, H2, H3. repeat split; auto.
  - (* [SDL_CreateWindow] returned [nullptr] *)
    apply triple_seq; [apply triple_modify_sys; triple_side | intros _].
    eapply triple_bind with (R := fun _ st => windows (sys st) = windows s).
    { intros st (Hobs & _). apply observable_inv in Hobs.
      pose proof (deinit_sdl_spec cfg env (windows s) (fun st => windows (sys st) = windows s)
                    (fun _ _ => False) ltac:(auto) st ltac:(tauto)) as H.
      destruct (deinit_sdl cfg env st) as [[[] | e] st']; [| contradiction].
      apply observable_inv in H. tauto. }
    intros ?. apply triple_throw. intros st Hix. split; [| exact Hix].
    unfold construction_succeeds. rewrite Hcw.
    rewrite (bool_decide_eq_false_2 (is_Some None)) by (intros [? ?]; discriminate).
    rewrite andb_false_r. reflexivity.
Qed.


Lemma construct_completed width height fullscreen s w s' :
  construct cfg env width height fullscreen s = (Ok w, s') ->
  exists id,
    window w = Some id /\
    windows s' = <[id := w]> (windows s) /\
    sdl_windows s' = {[id]} ∪ sdl_windows s /\
    sdl_initialised s' =
      (if bool_decide (windows s = ∅) then true else sdl_initialised s).
Proof.
  unfold construct. intros Hc.
  pose proof (constructor_body_outcome width height fullscreen s
                (mkState (fresh cfg width height) s) eq_refl) as H.
  destruct (constructor_body width height fullscreen cfg env
              (mkState (fresh cfg width height) s)) as [[[] | what] st'];
    [| discriminate Hc].
  injection Hc as <- <-. destruct H as (_ & id & _ & Hw & Hix & Hws & Hup & _).
  exists id. auto.
Qed.

(** The constructor completes exactly under the answers
    [construction_succeeds] names. It then hands back a window that holds
    the id SDL gave, registered in the index under that id; SDL is up, and
    was brought up by this call only if the index was empty. When it
    throws, the index is as before. *)
Theorem construct_outcome width height fullscreen s :
  let first := bool_decide (windows s = ∅) in
  match construct cfg env width height fullscreen s with
  | (Ok w, s') =>
      construction_succeeds cfg env first width height = true /\
      exists id,
        SDL_CreateWindow env = Some id /\
        window w = Some id /\
        windows s' = <[id := w]> (windows s) /\
        sdl_windows s' = {[id]} ∪ sdl_windows s /\
        sdl_initialised s' = (if first then true else sdl_initialised s) /\
        close_requested w = false /\
        visible w = USE_GLES cfg /\
        geometry w =
          (if USE_GLES cfg then queried_geometry cfg env else (0, 0, width, height))
  | (InitException _, s') =>
      construction_succeeds cfg env first width height = false /\
      windows s' = windows s
  end.
Proof.
  intros first. unfold construct.
  pose proof (constructor_body_outcome width height fullscreen s
                (mkState (fresh cfg width height) s) eq_refl) as H.
  destruct (constructor_body width height fullscreen cfg env
              (mkState (fresh cfg width height) s)) as [[[] | what] st']; exact H.
Qed.

(** A construction that completes keeps the index and SDL in agreement. *)
Theorem construct_keeps_consistent width height fullscreen s w s' :
  consistent s ->
  construct cfg env width height fullscreen s = (Ok w, s') ->
  consistent s'.
Proof.
  intros [Hflag Hdom] Hc.
  destruct (construct_completed width height fullscreen s w s' Hc)
    as (id & _ & Hix & Hws & Hup).
  split.
  - rewrite Hup, Hix.
    rewrite (bool_decide_eq_false_2 (<[id:=w]> (windows s) = ∅))
      by apply insert_non_empty.
    destruct (decide (windows s = ∅)) as [He | Hne].
    + rewrite bool_decide_eq_true_2 by exact He. reflexivity.
    + rewrite bool_decide_eq_false_2 by exact Hne.
      rewrite Hflag, bool_decide_eq_false_2 by exact Hne. reflexivity.
  - rewrite Hws, Hix, Hdom, dom_insert_L. reflexivity.
Qed.

End Construction.

Section ConstructionExamples.
Import GameWindow.

Lemma before_any_window_consistent : consistent before_any_window.
Proof.
  split.
  - cbn. rewrite bool_decide_eq_true_2 by reflexivity. reflexivity.
  - cbn. rewrite dom_empty_L. reflexivity.
Qed.

Lemma construct_keeps_consistent_witness :
  consistent one_window.
Proof.
  apply (construct_keeps_consistent pi (all_succeed 1) 640 480 false before_any_window
           first_window).
  - exact before_any_window_consistent.
  - vm_compute. reflexivity.
Defined.

End ConstructionExamples.

Section Destruction.
Import GameWindow.

Lemma deinit_gl_cases cfg env st :
  match deinit_gl cfg env st with
  | (Ok _, st') =>
      surface_can_be_released cfg env (this st) = true /\
      observable (sys st') = observable (sys st)
  | (InitException _, st') =>
      surface_can_be_released cfg env (this st) = false /\
      observable (sys st') = observable (sys st)
  end.
Proof.
  destruct cfg as [gles ddr ol ot].
  destruct env as [i cw gd ei cc ctx [x y] [w h] cws cps rgb mc ds].
  destruct st as [[vis fg wfg rs wx wy ww wh cr chs win sf bg] s].
  destruct gles; [| vm_compute; split; reflexivity].
  destruct vis; [| vm_compute; split; reflexivity].
  destruct wfg; [| destruct bg]; destruct ds; vm_compute; split; reflexivity.
Qed.

Context (cfg : Config) (env : Env).

Lemma destructor_cases id st :
  let emptied := bool_decide (delete id (windows (sys st)) = ∅) in
  match destructor id cfg env st with
  | (Ok _, st') =>
      surface_can_be_released cfg env (this st) = true /\
      windows (sys st') = delete id (windows (sys st)) /\
      sdl_windows (sys st') = (if emptied then ∅ else sdl_windows (sys st) ∖ {[id]}) /\
      sdl_initialised (sys st') = (if emptied then false else sdl_initialised (sys st))
  | (InitException _, st') =>
      surface_can_be_released cfg env (this st) = false /\
      observable (sys st') = observable (sys st)
  end.
Proof.
  intros emptied. subst emptied.
  set (ix := windows (sys st)). set (ws := sdl_windows (sys st)).
  set (up := sdl_initialised (sys st)).
  set (emptied := bool_decide (delete id ix = ∅)).
  enough (triple cfg env (fun st0 => st0 = st) (destructor id)
            (fun _ st' =>
               surface_can_be_released cfg env (this st) = true /\
               windows (sys st') = delete id ix /\
               sdl_windows (sys st') = (if emptied then ∅ else ws ∖ {[id]}) /\
               sdl_initialised (sys st') = (if emptied then false else up))
            (fun _ st' =>
               surface_can_be_released cfg env (this st) = false /\
               observable (sys st') = observable (sys st))) as H.
  { exact (H st eq_refl). }
  unfold destructor. apply triple_config_bind.
  eapply triple_bind with
    (R := fun _ st' =>
            surface_can_be_released cfg env (this st) = true /\
            windows (sys st') = ix /\ sdl_windows (sys st') = ws /\
            sdl_initialised (sys st') = up).
  { intros st0 ->. pose proof (deinit_gl_cases cfg env st) as H.
    destruct (deinit_gl cfg env st) as [[[] | what] st']; [| exact H].
    destruct H as [Hr Hobs]. apply observable_inv in Hobs.
    split; [exact Hr | tauto]. }
  intros _.
  apply triple_seq.
  { apply triple_when; [intros _; apply triple_modify_sys |]; triple_side. }
  intros _.
  eapply triple_bind with
    (R := fun _ st' =>
            surface_can_be_released cfg env (this st) = true /\
            windows (sys st') = delete id ix /\ sdl_windows (sys st') = ws /\
            sdl_initialised (sys st') = up).
  { apply triple_modify_sys. intros st0 (Hr & Hix & Hws & Hup). cbn.
    rewrite Hix. auto. }
  intros _.
  apply triple_seq; [apply triple_modify_sys; triple_side | intros _].
  eapply triple_bind with
    (R := fun _ st' =>
            surface_can_be_released cfg env (this st) = true /\
            windows (sys st') = delete id ix /\ sdl_windows (sys st') = ws ∖ {[id]} /\
            sdl_initialised (sys st') = up).
  { apply triple_modify_sys. intros st0 (Hr & Hix & Hws & Hup). cbn.
    rewrite Hws. auto. }
  intros _.
  apply (triple_windows_size_bind _ _ _ (delete id ix)).
  { intros st0 H. tauto. }
  rewrite size_windows_eqb. fold emptied.
  apply triple_when.
  - intros He st0 (Hr & Hix & Hws & Hup).
    pose proof (deinit_sdl_spec cfg env (delete id ix)
                  (fun st1 => windows (sys st1) = delete id ix)
                  (fun _ _ => False) (fun _ H => H) st0 Hix) as H.
    destruct (deinit_sdl cfg env st0) as [[[] | e] st']; [| contradiction].
    apply observable_inv in H. rewrite He. tauto.
  - intros He st0 H. rewrite He. exact H.
Qed.


(** Constructing a window and destroying it again, in a process whose
    index and SDL agree and in which the id SDL gives is not in use, puts
    the index, the SDL windows and the SDL flag back as they were,
    provided the surface can be destroyed. *)
Theorem construct_then_destroy width height fullscreen s id w s' :
  consistent s ->
  id ∉ dom (windows s) ->
  eglDestroySurface env = true ->
  construct cfg env width height fullscreen s = (Ok w, s') ->
  window w = Some id ->
  exists s'', destroy cfg env id w s' = (Ok tt, s'') /\ observable s'' = observable s.
Proof.
  intros [Hflag Hdom] Hfresh Hds Hc Hid.
  destruct (construct_completed cfg env width height fullscreen s w s' Hc)
    as (id' & Hid' & Hix & Hws & Hup).
  assert (id' = id) as -> by congruence.
  pose proof (destructor_cases id (mkState w s')) as H. cbv zeta in H.
  unfold destroy. cbn [this sys] in H.
  destruct (destructor id cfg env (mkState w s')) as [[[] | what] st''].
  - destruct H as (_ & Hix'' & Hws'' & Hup''). exists (sys st''). split; [reflexivity |].
    assert (delete id (windows s') = windows s) as Hdel.
    { rewrite Hix. apply delete_insert_id, not_elem_of_dom, Hfresh. }
    rewrite Hdel in Hix'', Hws'', Hup''.
    unfold observable. rewrite Hix'', Hws'', Hup'', Hws, Hup.
    destruct (decide (windows s = ∅)) as [He | Hne].
    + rewrite !bool_decide_eq_true_2 by exact He.
      rewrite Hflag, Hdom, He, dom_empty_L, bool_decide_eq_true_2 by reflexivity.
      reflexivity.
    + rewrite !bool_decide_eq_false_2 by exact Hne.
      rewrite difference_union_distr_l_L, difference_diag_L, union_empty_l_L.
      rewrite difference_disjoint_L; [reflexivity |].
      apply disjoint_singleton_r. rewrite Hdom. exact Hfresh.
  - destruct H as [Hr _]. unfold surface_can_be_released in Hr. rewrite Hds in Hr.
    rewrite orb_true_r in Hr. discriminate.
Qed.

End Destruction.

Section DestructionExamples.
Import GameWindow.

Lemma construct_then_destroy_witness :
  exists s'',
    destroy pi (all_succeed 1) 1
      first_window one_window = (Ok tt, s'') /\
    observable s'' = observable before_any_window.
Proof.
  apply (construct_then_destroy pi (all_succeed 1) 640 480 false before_any_window).
  - exact before_any_window_consistent.
  - cbn. rewrite dom_empty_L. apply not_elem_of_empty.
  - reflexivity.
  - vm_compute. reflexivity.
  - vm_compute. reflexivity.
Defined.

End DestructionExamples.

Section DestructionConsistency.
Import GameWindow.
Context (cfg : Config) (env : Env).

(** A destruction that completes keeps the index and SDL in agreement. *)
Theorem destroy_keeps_consistent id w s s' :
  consistent s ->
  destroy cfg env id w s = (Ok tt, s') ->
  consistent s'.
Proof.
  intros [Hflag Hdom] Hd. unfold destroy in Hd.
  pose proof (destructor_cases cfg env id (mkState w s)) as H. cbv zeta in H.
  cbn [this sys] in H.
  destruct (destructor id cfg env (mkState w s)) as [[[] | what] st'];
    [| discriminate Hd].
  injection Hd as <-. destruct H as (_ & Hix & Hws & Hup).
  split.
  - rewrite Hup, Hix. destruct (decide (delete id (windows s) = ∅)) as [He | Hne].
    + rewrite !bool_decide_eq_true_2 by exact He. reflexivity.
    + rewrite !bool_decide_eq_false_2 by exact Hne. rewrite Hflag.
      rewrite bool_decide_eq_false_2; [reflexivity |].
      intros He. apply Hne. rewrite He. apply delete_empty.
  - rewrite Hws, Hix. destruct (decide (delete id (windows s) = ∅)) as [He | Hne].
    + rewrite bool_decide_eq_true_2 by exact He. rewrite He, dom_empty_L. reflexivity.
    + rewrite bool_decide_eq_false_2 by exact Hne. rewrite Hdom, dom_delete_L.
      reflexivity.
Qed.

End DestructionConsistency.

Section DestructionConsistencyExamples.
Import GameWindow.

Lemma destroy_keeps_consistent_witness :
  consistent (snd (destroy pi (all_succeed 1) 1 first_window one_window)).
Proof.
  apply (destroy_keeps_consistent pi (all_succeed 1) 1 first_window one_window).
  - exact one_window_consistent.
  - vm_compute. reflexivity.
Defined.

End DestructionConsistencyExamples.

Section Update.
Import GameWindow.

Lemma update_surface_eq cfg env st :
  update_surface cfg env st =
  match change_surface (this (after_position_test cfg env st)) with
  | DO_INIT =>
      try_catch init_surface
        (fun e => record (LOG (String.append "Surface reinit failed: " e)))
        cfg env (after_position_test cfg env st)
  | DO_DEINIT => deinit_surface cfg env (after_position_test cfg env st)
  | DO_NOTHING => (Ok tt, after_position_test cfg env st)
  end.
Proof.
  unfold update_surface, after_position_test, mbind, W_bind, config, environment, get_this,
    when.
  destruct (USE_GLES cfg); cbn [andb].
  - destruct (XTranslateCoordinates env) as [x y]. cbn [fst snd].
    destruct ((negb (window_x (this st) =? x) || negb (window_y (this st) =? y)) &&
              visible (this st)); cbn.
    + reflexivity.
    + destruct st as [w s]. cbn. destruct (change_surface w); reflexivity.
  - cbn. destruct st as [w s]. cbn. destruct (change_surface w); reflexivity.
Qed.

Lemma after_position_test_this cfg env st :
  this (after_position_test cfg env st) = this st \/
  this (after_position_test cfg env st) = set_change_surface DO_INIT (this st).
Proof. unfold after_position_test. destruct (_ && _); cbn; auto. Qed.

Lemma after_position_test_observable cfg env st :
  observable (sys (after_position_test cfg env st)) = observable (sys st).
Proof. unfold after_position_test. destruct (_ && _); reflexivity. Qed.

Lemma after_position_test_requested cfg env st :
  rebuild_requested cfg env (this st) = true ->
  change_surface (this (after_position_test cfg env st)) = DO_INIT.
Proof.
  unfold rebuild_requested, after_position_test.
  destruct (USE_GLES cfg && _) eqn:E; cbn; [reflexivity |].
  destruct (change_surface (this st)); intros H; congruence.
Qed.

Lemma after_position_test_idle cfg env st :
  rebuild_requested cfg env (this st) = false ->
  after_position_test cfg env st = st /\ change_surface (this st) <> DO_INIT.
Proof.
  unfold rebuild_requested, after_position_test.
  destruct (change_surface (this st)) eqn:E; intros H; try discriminate;
    rewrite H; split; congruence.
Qed.

Lemma deinit_surface_cases cfg env st :
  match deinit_surface cfg env st with
  | (Ok _, st') =>
      if USE_GLES cfg then
        visible (this st') = false /\ change_surface (this st') = DO_NOTHING
      else st' = st
  | (InitException _, st') =>
      USE_GLES cfg = true /\ visible (this st) = true /\ eglDestroySurface env = false /\
      change_surface (this st') = change_surface (this st)
  end.
Proof.
  destruct cfg as [gles ddr ol ot].
  destruct env as [i cw gd ei cc ctx [x y] [w h] cws cps rgb mc ds].
  destruct st as [[vis fg wfg rs wx wy ww wh cr chs win sf bg] s].
  destruct gles; [| destruct s; vm_compute; reflexivity].
  destruct vis; [| vm_compute; split; reflexivity].
  destruct wfg; [| destruct bg]; destruct ds; vm_compute; repeat split; reflexivity.
Qed.

Lemma surface_can_be_built_ext cfg env w w' :
  visible w' = visible w -> foreground w' = foreground w ->
  surface_can_be_built cfg env w' = surface_can_be_built cfg env w.
Proof. unfold surface_can_be_built. intros -> ->. reflexivity. Qed.

Lemma update_surface_rebuild_cases cfg env st :
  rebuild_requested cfg env (this st) = true ->
  exists st',
    update_surface cfg env st = (Ok tt, st') /\
    observable (sys st') = observable (sys st) /\
    change_surface (this st') =
      (if surface_can_be_built cfg env (this st) then DO_NOTHING else DO_INIT) /\
    geometry (this st') =
      (if surface_can_be_built cfg env (this st) then queried_geometry cfg env
       else geometry (this st)) /\
    foreground (this st') = foreground (this st) /\
    close_requested (this st') = close_requested (this st).
Proof.
  intros Hreq. rewrite update_surface_eq.
  pose proof (after_position_test_requested cfg env st Hreq) as Hinit.
  pose proof (after_position_test_observable cfg env st) as Hobs.
  assert (visible (this (after_position_test cfg env st)) = visible (this st) /\
          foreground (this (after_position_test cfg env st)) = foreground (this st) /\
          geometry (this (after_position_test cfg env st)) = geometry (this st) /\
          close_requested (this (after_position_test cfg env st)) =
            close_requested (this st)) as (Hvis & Hfg & Hgeo & Hclose).
  { destruct (after_position_test_this cfg env st) as [-> | ->]; auto. }
  rewrite Hinit. unfold try_catch.
  pose proof (init_surface_cases cfg env (after_position_test cfg env st)) as H.
  rewrite (surface_can_be_built_ext cfg env _ _ Hvis Hfg) in H.
  destruct (init_surface cfg env (after_position_test cfg env st)) as [[[] | what] st1].
  - destruct H as ((Hb & Hcs & Hg) & Ho & Hf & Hc). cbn [snd] in Ho, Hf, Hc.
    exists st1. rewrite Hb. repeat split; congruence.
  - destruct H as ((Hb & Hcs & Hg) & Ho & Hf & Hc). cbn [snd] in Ho, Hf, Hc.
    specialize (Hcs Hinit).
    eexists. split; [reflexivity |]. rewrite Hb. cbn.
    repeat split; try congruence.
    rewrite <- Hobs, <- Ho. reflexivity.
Qed.


Lemma update_surface_idle cfg env st :
  rebuild_requested cfg env (this st) = false ->
  change_surface (this st) = DO_NOTHING ->
  update_surface cfg env st = (Ok tt, st).
Proof.
  intros Hreq Hcs. rewrite update_surface_eq.
  destruct (after_position_test_idle cfg env st Hreq) as [-> _]. rewrite Hcs.
  reflexivity.
Qed.

Lemma rebuild_requested_settled cfg env w :
  change_surface w = DO_NOTHING ->
  (USE_GLES cfg = true ->
   visible w = false \/
   (window_x w = fst (XTranslateCoordinates env) /\
    window_y w = snd (XTranslateCoordinates env))) ->
  rebuild_requested cfg env w = false.
Proof.
  unfold rebuild_requested. intros -> H.
  destruct (USE_GLES cfg); [| reflexivity]. cbn [andb].
  destruct (H eq_refl) as [-> | [-> ->]].
  - apply andb_false_r.
  - rewrite !Z.eqb_refl. reflexivity.
Qed.

(** Once the surface step has left no request behind, running it again in
    the same environment changes nothing, not even the trace. *)
Theorem update_surface_settles cfg env st st1 :
  update_surface cfg env st = (Ok tt, st1) ->
  change_surface (this st1) = DO_NOTHING ->
  update_surface cfg env st1 = (Ok tt, st1).
Proof.
  intros Hrun Hcs. apply update_surface_idle; [| exact Hcs].
  apply rebuild_requested_settled; [exact Hcs |]. intros Hgles.
  destruct (rebuild_requested cfg env (this st)) eqn:Hreq.
  - destruct (update_surface_rebuild_cases cfg env st Hreq)
      as (st' & Hrun' & _ & Hcs' & Hgeo & _).
    rewrite Hrun in Hrun'. injection Hrun' as <-.
    destruct (surface_can_be_built cfg env (this st)); [| congruence].
    right. unfold geometry, queried_geometry in Hgeo. rewrite Hgles in Hgeo.
    injection Hgeo as -> -> _ _. auto.
  - rewrite update_surface_eq in Hrun.
    destruct (after_position_test_idle cfg env st Hreq) as [Heq Hni].
    rewrite Heq in Hrun.
    destruct (change_surface (this st)) eqn:E; [| congruence |].
    + injection Hrun as <-. unfold rebuild_requested in Hreq. rewrite E, Hgles in Hreq.
      cbn [andb] in Hreq. apply andb_false_iff in Hreq. destruct Hreq as [Hpos | Hvis].
      * right. apply orb_false_iff in Hpos. destruct Hpos as [Hx Hy].
        apply negb_false_iff in Hx, Hy. apply Z.eqb_eq in Hx, Hy. auto.
      * left. exact Hvis.
    + pose proof (deinit_surface_cases cfg env st) as H. rewrite Hrun, Hgles in H.
      left. tauto.
Qed.

End Update.

Section UpdateExamples.
Import GameWindow.


Lemma update_surface_settles_witness :
  let st1 :=
    snd (update_surface pi (all_succeed 1)
           (mkState (set_change_surface DO_INIT first_window) one_window)) in
  update_surface pi (all_succeed 1) st1 = (Ok tt, st1).
Proof.
  apply (update_surface_settles pi (all_succeed 1)
           (mkState (set_change_surface DO_INIT first_window) one_window)).
  - vm_compute. reflexivity.
  - vm_compute. reflexivity.
Defined.

End UpdateExamples.

Section Events.
Import GameWindow.

Lemma only_requests_refl cfg w : only_requests cfg w w.
Proof. unfold only_requests. tauto. Qed.

Lemma only_requests_trans cfg w1 w2 w3 :
  only_requests cfg w1 w2 -> only_requests cfg w2 w3 -> only_requests cfg w1 w3.
Proof.
  unfold only_requests.
  intros (Hv & Hw & Hg & Hi & Hs & Hb & Hc & Hcs & Hf)
         (Hv' & Hw' & Hg' & Hi' & Hs' & Hb' & Hc' & Hcs' & Hf').
  repeat split; try congruence; auto.
  destruct Hcs' as [E' | E']; [| right; exact E'].
  destruct Hcs as [E | E]; [left | right]; congruence.
Qed.

Lemma window_event_only_requests cfg id e w f :
  only_requests cfg w (fst (window_event cfg id e w f)).
Proof.
  unfold only_requests.
  destruct e; cbn; destruct (GAME_WINDOW_DISABLE_DIRECT_RENDER cfg); cbn;
    repeat split; auto; congruence.
Qed.


(** The event loop of [update] only records what has to be done: whatever
    events a window receives, it is shown or hidden as before, its stored
    position and size, its SDL window and its surfaces are untouched, and
    a rebuild is at most requested. A close request is never withdrawn,
    and in a build without direct rendering a window that is not in the
    foreground never gets there. *)
Theorem window_events_only_request cfg id es w focused_window :
  let w' := fst (window_events cfg id es w focused_window) in
  visible w' = visible w /\
  was_foreground w' = was_foreground w /\
  geometry w' = geometry w /\
  window w' = window w /\
  surface w' = surface w /\
  background_surface w' = background_surface w /\
  (close_requested w = true -> close_requested w' = true) /\
  (change_surface w' = change_surface w \/ change_surface w' = DO_INIT) /\
  (GAME_WINDOW_DISABLE_DIRECT_RENDER cfg = true ->
   foreground w = false -> foreground w' = false).
Proof.
  cbv zeta. change (only_requests cfg w (fst (window_events cfg id es w focused_window))).
  revert w focused_window.
  induction es as [| e es IH]; intros w f; cbn [window_events].
  - apply only_requests_refl.
  - pose proof (window_event_only_requests cfg id e w f) as He.
    destruct (window_event cfg id e w f) as [w' f']. cbn [fst] in He.
    eapply only_requests_trans; [exact He | apply IH].
Qed.



End Events.

Section EventsExamples.
Import GameWindow.


End EventsExamples.

(** ** The EGL display when the surface cannot be built *)

Section EglDisplay.
Import GameWindow.
Context (cfg : Config) (env : Env).



End EglDisplay.


Section EglDisplayRun.
Import GameWindow.
Context (cfg : Config) (env : Env).








End EglDisplayRun.

Section EglDisplayExamples.
Import GameWindow.


End EglDisplayExamples.
(** ** Loading a shader program *)

Section ShaderLoading.
Import Shader.

Lemma without_head r l : without r (r :: l) = l.
Proof. cbn. destruct (decide (r = r)); [reflexivity | contradiction]. Qed.

Lemma without_skip r x l : x <> r -> without r (x :: l) = x :: without r l.
Proof. intros H. cbn. destruct (decide (x = r)); [contradiction | reflexivity]. Qed.

Lemma load_shader_cases type src env st :
  exists tr,
    load_shader type src env st =
      (Ok (loaded_shader env type),
       mkState
         ((if shader_loads env type then [ShaderObject (glCreateShader env type)] else [])
            ++ held st)
         tr).
Proof.
  unfold load_shader, loaded_shader, shader_loads, delete_shader, mbind, L_bind,
    environment, record, acquire, release, when, mret, L_ret.
  destruct st as [h tr]. cbn [held trace].
  destruct (glCreateShader env type =? 0) eqn:E0; cbn; [eexists; reflexivity |].
  destruct (GL_COMPILE_STATUS env type); cbn; [eexists; reflexivity |].
  destruct (1 <? shader_info_log_length env type); cbn;
    (destruct (decide _) as [_ | Hne]; [eexists; reflexivity | contradiction]).
Qed.

(** [load_shader] never throws. It returns the name of the new shader
    object, and leaves that object held, exactly when the object could be
    created and its source compiled; otherwise it returns [0] and what is
    held is what was held before: a shader that does not compile is
    deleted. *)
Theorem load_shader_outcome type src env st :
  exists st',
    load_shader type src env st =
      (Ok (if shader_loads env type then glCreateShader env type else 0), st') /\
    held st' =
      (if shader_loads env type then [ShaderObject (glCreateShader env type)] else [])
        ++ held st.
Proof.
  destruct (load_shader_cases type src env st) as [tr H].
  eexists. split; [exact H | reflexivity].
Qed.

Lemma without_app_skip r l1 l2 :
  Forall (fun x => x <> r) l1 -> without r (l1 ++ l2) = l1 ++ without r l2.
Proof.
  induction 1 as [| x l1 Hx _ IH]; [reflexivity |].
  cbn [app]. rewrite without_skip by exact Hx. rewrite IH. reflexivity.
Qed.

Lemma loaded_shaders_not_buffer env name :
  Forall (fun x => x <> Buffer name) (loaded_shaders env).
Proof.
  unfold loaded_shaders.
  destruct (shader_loads env GL_FRAGMENT_SHADER), (shader_loads env GL_VERTEX_SHADER);
    repeat constructor; discriminate.
Qed.

Lemma buffers_released env vs fs h :
  without (Buffer fs) (without (Buffer vs) (loaded_shaders env ++ Buffer fs :: Buffer vs :: h))
    = loaded_shaders env ++ h.
Proof.
  rewrite without_app_skip by apply loaded_shaders_not_buffer.
  destruct (decide (fs = vs)) as [-> | Hne].
  - rewrite without_head, without_app_skip by apply loaded_shaders_not_buffer.
    rewrite without_head. reflexivity.
  - rewrite without_skip by congruence. rewrite without_head.
    rewrite without_app_skip by apply loaded_shaders_not_buffer.
    rewrite without_head. reflexivity.
Qed.

Lemma shaders_deleted {A} env p h (k : L A) :
  p <> 0 ->
  exists tr' : list Call -> list Call, forall tr,
    (delete_shader (loaded_shader env GL_FRAGMENT_SHADER) ;;
     delete_shader (loaded_shader env GL_VERTEX_SHADER) ;;
     delete_program p ;;
     k) env (mkState (ProgramObject p :: loaded_shaders env ++ h) tr)
    = k env (mkState h (tr' tr)).
Proof.
  intros Hp. unfold delete_shader, delete_program, loaded_shader, loaded_shaders, mbind,
    L_bind, record, release, when, mret, L_ret.
  apply Z.eqb_neq in Hp. rewrite Hp. cbn [negb].
  destruct (shader_loads env GL_FRAGMENT_SHADER) eqn:Ef;
    destruct (shader_loads env GL_VERTEX_SHADER) eqn:Ev;
    unfold shader_loads in Ef, Ev;
    repeat match goal with
           | H : _ && _ = true |- _ => apply andb_prop in H; destruct H as [H ?]
           | H : negb _ = true |- _ => apply negb_true_iff in H; rewrite H
           end;
    cbn; repeat (destruct (decide _) as [? | ?]; try discriminate; try contradiction; cbn);
    eexists (fun tr => _); intros tr; reflexivity.
Qed.

Lemma bind_cases {A B} (m : L A) (f : A -> L B) env st :
  (m ≫= f) env st =
    match m env st with
    | (Ok a, st1) => f a env st1
    | (LoadException what, st1) => (LoadException what, st1)
    end.
Proof. unfold mbind, L_bind. destruct (m env st) as [[a | what] st1]; reflexivity. Qed.

Lemma load_file_cases filename env st :
  load_file filename env st =
    match file_content env filename with
    | Some content => (Ok content, mkState (Buffer filename :: held st) (trace st))
    | None =>
        (LoadException "Unable to load shader file",
         mkState (Buffer filename :: held st)
           (trace st ++
            [LOG_ERROR
               (String.append "Unable to load shader file "
                  (String.append quote
                     (String.append filename (String.append quote "."))))]))
    end.
Proof.
  unfold load_file. rewrite bind_cases. cbn [environment].
  rewrite bind_cases. cbn [acquire].
  destruct (file_content env filename); reflexivity.
Qed.

Lemma constructor_outcome_cases vs fs env st :
  match constructor vs fs env st with
  | (Ok shader, st') =>
      is_Some (file_content env vs) /\ is_Some (file_content env fs) /\
      glCreateProgram env <> 0 /\ GL_LINK_STATUS env = true /\
      shader = mk (loaded_shader env GL_VERTEX_SHADER) (loaded_shader env GL_FRAGMENT_SHADER)
                  (glCreateProgram env) true /\
      held st' = ProgramObject (glCreateProgram env) :: loaded_shaders env ++ held st
  | (LoadException what, st') =>
      (file_content env vs = None /\
       what = "Unable to load shader file"%string /\
       held st' = Buffer vs :: held st) \/
      (is_Some (file_content env vs) /\ file_content env fs = None /\
       what = "Unable to load shader file"%string /\
       held st' = Buffer fs :: Buffer vs :: held st) \/
      (is_Some (file_content env vs) /\ is_Some (file_content env fs) /\
       glCreateProgram env = 0 /\
       what = "Unable to create shader program"%string /\
       held st' = loaded_shaders env ++ held st) \/
      (is_Some (file_content env vs) /\ is_Some (file_content env fs) /\
       glCreateProgram env <> 0 /\ GL_LINK_STATUS env = false /\
       what = "Unable to link shader program"%string /\
       held st' = held st)
  end.
Proof.
  unfold constructor. rewrite bind_cases. cbn [environment].
  rewrite bind_cases, load_file_cases.
  destruct (file_content env vs) as [vs_src |] eqn:Evs; [| left; auto].
  rewrite bind_cases, load_file_cases. cbn [held trace].
  destruct (file_content env fs) as [fs_src |] eqn:Efs; [| right; left; eauto].
  rewrite bind_cases.
  destruct (load_shader_cases GL_VERTEX_SHADER vs_src env
              (mkState (Buffer fs :: Buffer vs :: held st) (trace st))) as [tr1 ->].
  rewrite bind_cases.
  destruct (load_shader_cases GL_FRAGMENT_SHADER fs_src env
              (mkState
                 ((if shader_loads env GL_VERTEX_SHADER
                   then [ShaderObject (glCreateShader env GL_VERTEX_SHADER)] else [])
                    ++ held (mkState (Buffer fs :: Buffer vs :: held st) (trace st)))
                 tr1)) as [tr2 ->].
  cbn [held]. rewrite app_assoc. fold (loaded_shaders env).
  rewrite bind_cases. cbn [release held trace].
  rewrite bind_cases. cbn [release held trace].
  rewrite buffers_released.
  rewrite bind_cases. cbn [record held trace].
  destruct (Z.eqb_spec (glCreateProgram env) 0) as [Ep | Ep].
  - right; right; left. cbn. eauto 10.
  - rewrite bind_cases. cbn [acquire held trace].
    do 5 (rewrite bind_cases; cbn [record held trace]).
    destruct (GL_LINK_STATUS env) eqn:El; cbn [negb].
    + cbn. eauto 10.
    + rewrite bind_cases.
      assert (forall h tr,
                when (1 <? program_info_log_length env) (record (LOG_ERROR "Program linking:"))
                  env (mkState h tr)
                = (Ok tt, mkState h (if 1 <? program_info_log_length env
                                     then tr ++ [LOG_ERROR "Program linking:"] else tr)))
        as Hlog.
      { intros h tr. destruct (1 <? program_info_log_length env); reflexivity. }
      rewrite Hlog.
      destruct (shaders_deleted env (glCreateProgram env) (held st)
                  (throw "Unable to link shader program" : L t) Ep) as [tr' Hdel].
      rewrite Hdel. cbn. right; right; right. eauto 10.
Qed.

(** The constructor completes exactly when both files can be read, the
    program object can be created and the program links; whether the two
    shaders compiled is not asked. It then holds the program object and
    the shader objects that compiled, the two arrays having been freed. When
    it throws, it has released everything only if the failure is that of
    the link: a file that cannot be read leaves the arrays allocated so far,
    and a program object that cannot be created leaves the compiled shader
    objects. *)
Theorem constructor_outcome vs fs env st :
  match constructor vs fs env st with
  | (Ok shader, st') =>
      is_Some (file_content env vs) /\ is_Some (file_content env fs) /\
      glCreateProgram env <> 0 /\ GL_LINK_STATUS env = true /\
      shader = mk (loaded_shader env GL_VERTEX_SHADER) (loaded_shader env GL_FRAGMENT_SHADER)
                  (glCreateProgram env) true /\
      held st' = ProgramObject (glCreateProgram env) :: loaded_shaders env ++ held st
  | (LoadException what, st') =>
      (file_content env vs = None /\
       what = "Unable to load shader file"%string /\
       held st' = Buffer vs :: held st) \/
      (is_Some (file_content env vs) /\ file_content env fs = None /\
       what = "Unable to load shader file"%string /\
       held st' = Buffer fs :: Buffer vs :: held st) \/
      (is_Some (file_content env vs) /\ is_Some (file_content env fs) /\
       glCreateProgram env = 0 /\
       what = "Unable to create shader program"%string /\
       held st' = loaded_shaders env ++ held st) \/
      (is_Some (file_content env vs) /\ is_Some (file_content env fs) /\
       glCreateProgram env <> 0 /\ GL_LINK_STATUS env = false /\
       what = "Unable to link shader program"%string /\
       held st' = held st)
  end.
Proof. exact (constructor_outcome_cases vs fs env st). Qed.

(** What the constructor has acquired, the destructor releases: after a
    construction that completed and the destruction of its result, what is
    held is what was held before. *)
Theorem constructor_then_destructor vs fs env st shader st' :
  constructor vs fs env st = (Ok shader, st') ->
  exists st'', destructor shader env st' = (Ok tt, st'') /\ held st'' = held st.
Proof.
  intros Hc. pose proof (constructor_outcome_cases vs fs env st) as H. rewrite Hc in H.
  destruct H as (_ & _ & Hp & _ & -> & Hheld).
  unfold destructor. cbn [fragment_shader vertex_shader program_obj].
  destruct (shaders_deleted env (glCreateProgram env) (held st) (mret tt : L unit) Hp)
    as [tr' Hdel].
  destruct st' as [h' tr]. cbn [held] in Hheld. subst h'.
  exists (mkState (held st) (tr' tr)). split; [| reflexivity].
  change (Ok tt, mkState (held st) (tr' tr))
    with ((mret tt : L unit) env (mkState (held st) (tr' tr))).
  rewrite <- (Hdel tr). unfold mbind, L_bind.
  destruct (delete_shader _ env _) as [[[] | what] st1]; [| reflexivity].
  destruct (delete_shader _ env st1) as [[[] | what] st2]; [| reflexivity].
  destruct (delete_program _ env st2) as [[[] | what] st3]; reflexivity.
Qed.

End ShaderLoading.

Section ShaderExamples.
Import Shader.

Lemma constructor_then_destructor_witness :
  exists st'',
    destructor (mk 1 2 3 true) healthy
      (snd (constructor "tile.glv" "tile.glf" healthy nothing_held)) = (Ok tt, st'') /\
    held st'' = [].
Proof.
  apply (constructor_then_destructor "tile.glv" "tile.glf" healthy nothing_held).
  vm_compute. reflexivity.
Defined.

End ShaderExamples.
